(** * robloxHELL: streaming deduplication and rate-gated batch verification

    A shallow embedding of the TypeScript sources

      - [rotector.ts]       (module [Rotector]):  backoff, flag labels, the
        global 429 gate, [checkMultipleUsers], [checkLotsOfUsers];
      - [usersScraper.ts]   (module [UsersScraper]): [backoffMs],
        [fetchFriendsPage], [streamFriends], [getFriends];
      - [groupsScraper.ts]  (modules [GroupsScraper] and [Groups]):
        [backoffMs]; [fetchJSON], [getGroupRoles], [getRolesetIds],
        [streamRolesetMembers], [streamGroupMembers], [getAllGroupMembers];
      - [index.ts]          (module [Index]): [statusCache], [persistCache],
        [writeStatus], [flushLookup], [processEntries] and the driver loop;
        the counters, [formatStatusLine], [buildIndexPayload] and the run
        summary; [parseArgs] and the checks of [main]; [createLogger]; the
        role files of [processGroupSource] are in [Groups];
      - [exp.ts]            (module [Exp]): the export script.

    Conventions.  JavaScript numbers that hold identifiers, counters, HTTP
    status codes and millisecond delays are integers here ([Z] or [nat]);
    where the code makes a number of a string of digits, [Number] rounds it
    to the nearest double.
    A [Record<string, UserStatus>] keyed by the decimal rendering of a user id
    is a [gmap Z UserStatus] keyed by the id.  A promise is the value it
    settles with ([Resolved], [Rejected]) or [NeverSettles].  The network is
    an environment the functions are applied to. *)

From Stdlib Require Import ZArith Lia Ascii.
From stdpp Require Import base tactics option list sorting gmap strings pretty.

Local Open Scope Z_scope.

(** ** Promises *)

(** What a thrown [Error] carries: the data interpolated into its message. *)
Inductive Error : Type :=
  | NetworkError (message : string)   (* `Network error ...: ${err.message}` *)
  | HttpError (status : Z)            (* `HTTP error! status: ${status}` *)
  | ServiceError (message : string)   (* result.error || "Failed to fetch users data" *)
  | JsonError.                        (* response.json() rejected *)

Inductive Promise (A : Type) : Type :=
  | Resolved (value : A)
  | Rejected (reason : Error)
  | NeverSettles.

Arguments Resolved {A} value.
Arguments Rejected {A} reason.
Arguments NeverSettles {A}.

(** ** Async iterables *)

(** What an [AsyncIterable] delivers to a [for await]: the entries it yields,
    and how the iteration ends. *)
Inductive Ending : Type :=
  | Exhausted
  | Throws (e : Error)
  | Stalls.

Record Stream (Entry : Type) : Type := mkStream {
  yields : list Entry;
  ending : Ending
}.

Arguments mkStream {Entry} yields ending.
Arguments yields {Entry} s.
Arguments ending {Entry} s.

(* ===================================================================== *)
(** * rotector.ts *)
(* ===================================================================== *)

Module Rotector.

Definition MAX_HTTP_RETRIES : Z := 5.
Definition BASE_RETRY_DELAY_MS : Z := 1000.
Definition MAX_RETRY_DELAY_MS : Z := 30000.

(** [Math.min(MAX_RETRY_DELAY_MS, BASE_RETRY_DELAY_MS * 2 ** (attempt - 1))].
    The callers pass [consecutiveFailures], which is at least 1 there; below 1
    JavaScript's [**] is fractional and this integer model does not apply. *)
Definition retryDelayMs (attempt : Z) : Z :=
  Z.min MAX_RETRY_DELAY_MS (BASE_RETRY_DELAY_MS * 2 ^ (attempt - 1)).

(** [interface UserStatus].  [confidence], [reasons] and [reviewer] (floats and
    nested records that no function of the pipeline reads) are left out. *)
Record UserStatus : Type := mkUserStatus {
  id : Z;
  flagType : Z;
  engineVersion : option string;
  versionCompatibility : option string;
  lastUpdated : option Z
}.

(** [interface BatchApiResponse]. *)
Record BatchApiResponse : Type := mkBatchApiResponse {
  success : bool;
  data : option (gmap Z UserStatus);
  error : option string
}.

(** What [fetch] resolves with: the status line, the [Retry-After] header read
    through [Number(...)] ([None] when the header is missing or is not a
    number; whole seconds otherwise), and the body read through
    [response.json()] ([None] when that call rejects). *)
Record Response : Type := mkResponse {
  status : Z;
  RetryAfter_header : option Z;
  json : option BatchApiResponse
}.

Inductive FetchResult : Type :=
  | FetchThrows (message : string)
  | FetchResolves (response : Response).

(** [response.ok] *)
Definition ok (response : Response) : bool :=
  (200 <=? status response) && (status response <=? 299).

(** ** Flag labels *)

Inductive UserFlagStatus : Type :=
  | SAFE | PENDING | UNSAFE | QUEUED | INTEGRATION | MIXED | PAST_OFFENDER.

Definition UserFlagStatus_value (s : UserFlagStatus) : Z :=
  match s with
  | SAFE => 0 | PENDING => 1 | UNSAFE => 2 | QUEUED => 3
  | INTEGRATION => 4 | MIXED => 5 | PAST_OFFENDER => 6
  end.

(** The reverse mapping [UserFlagStatus[f]] of the numeric enum. *)
Definition UserFlagStatus_name (s : UserFlagStatus) : string :=
  match s with
  | SAFE => "SAFE" | PENDING => "PENDING" | UNSAFE => "UNSAFE"
  | QUEUED => "QUEUED" | INTEGRATION => "INTEGRATION" | MIXED => "MIXED"
  | PAST_OFFENDER => "PAST_OFFENDER"
  end.

(** [flagTypeToEnum]: the [default] branch throws [Unknown flag type: f]. *)
Definition flagTypeToEnum (f : Z) : Z + UserFlagStatus :=
  match f with
  | 0 => inr SAFE
  | 1 => inr PENDING
  | 2 => inr UNSAFE
  | 3 => inr QUEUED
  | 4 => inr INTEGRATION
  | 5 => inr MIXED
  | 6 => inr PAST_OFFENDER
  | _ => inl f
  end.

(** [f in UserFlagStatus] for a number [f]: the enum object has the keys
    "0".."6" (and the seven names, which no number renders to). *)
Definition in_UserFlagStatus (f : Z) : bool := (0 <=? f) && (f <=? 6).

(** [flagTypeToString]: every reverse-mapped name is a non-empty string, so
    [UserFlagStatus[f] || "UNKNOWN"] is the name. *)
Definition flagTypeToString (f : Z) : string :=
  if in_UserFlagStatus f then
    match flagTypeToEnum f with
    | inr s => UserFlagStatus_name s
    | inl _ => "UNKNOWN"
    end
  else "UNKNOWN".

(** ** One iteration of the [while (true)] loop of [checkMultipleUsers],
       from the point where [fetch] has settled. *)

Inductive Step : Type :=
  | Return (result : gmap Z UserStatus)
  | Throw (e : Error)
  | SleepThenRetry (consecutiveFailures : Z) (waitMs : Z)
      (* await sleep(waitMs); next iteration *)
  | HaltThenRetry (consecutiveFailures : Z) (waitMs : Z).
      (* await activateGlobal429(waitMs); continue *)

(** [Number(response.headers.get("Retry-After")) || 10]: a missing header
    reads as 0, a non-number as NaN; both are falsy, and so is the number 0. *)
Definition retryAfter (response : Response) : Z :=
  match RetryAfter_header response with
  | Some n => if n =? 0 then 10 else n
  | None => 10
  end.

Definition failure_message (result : BatchApiResponse) : string :=
  match error result with
  | Some m => if decide (m = "") then "Failed to fetch users data" else m
  | None => "Failed to fetch users data"
  end.

Definition loop_body (consecutiveFailures : Z) (fetched : FetchResult) : Step :=
  match fetched with
  | FetchThrows message =>
      let consecutiveFailures := consecutiveFailures + 1 in
      if MAX_HTTP_RETRIES <? consecutiveFailures
      then Throw (NetworkError message)
      else SleepThenRetry consecutiveFailures (retryDelayMs consecutiveFailures)
  | FetchResolves response =>
      if ok response then
        match json response with
        | None => Throw JsonError
        | Some result =>
            match success result, data result with
            | true, Some d => Return d
            | _, _ => Throw (ServiceError (failure_message result))
            end
        end
      else if status response =? 429 then
        let consecutiveFailures := 0 in
        let waitMs := retryAfter response * 1000 + 2500 in
        HaltThenRetry consecutiveFailures waitMs
      else
        let consecutiveFailures := consecutiveFailures + 1 in
        if MAX_HTTP_RETRIES <? consecutiveFailures
        then Throw (HttpError (status response))
        else SleepThenRetry consecutiveFailures (retryDelayMs consecutiveFailures)
  end.

(** The waits a call goes through, in order. *)
Inductive Wait : Type :=
  | Slept (waitMs : Z)      (* sleep(waitMs) of the backoff *)
  | Halted (waitMs : Z).    (* activateGlobal429(waitMs) *)

(** A call that is still looping: its failure counter. *)
Inductive Outcome : Type :=
  | Fulfilled (result : gmap Z UserStatus)
  | Failed (e : Error)
  | Looping (consecutiveFailures : Z).

(** [checkMultipleUsers] against [net], the answers of the network to the
    successive requests of this call (all of them carry the same body).  The
    gate delays a request and never changes its answer, so the value the call
    settles with is a function of [net] alone.  [fuel] bounds the number of
    iterations looked at; a call that has not settled by then is [Looping]. *)
Fixpoint checkMultipleUsers_loop (fuel : nat) (net : nat -> FetchResult)
    (request : nat) (consecutiveFailures : Z) : Outcome * list Wait :=
  match fuel with
  | O => (Looping consecutiveFailures, [])
  | S fuel' =>
      match loop_body consecutiveFailures (net request) with
      | Return d => (Fulfilled d, [])
      | Throw e => (Failed e, [])
      | SleepThenRetry f waitMs =>
          let '(o, ws) := checkMultipleUsers_loop fuel' net (S request) f in
          (o, Slept waitMs :: ws)
      | HaltThenRetry f waitMs =>
          let '(o, ws) := checkMultipleUsers_loop fuel' net (S request) f in
          (o, Halted waitMs :: ws)
      end
  end.

(** The remote service: the answer to the [n]-th request of a call whose body
    is [userIds]. *)
Definition Server : Type := list Z -> nat -> FetchResult.

Definition checkMultipleUsers (fuel : nat) (server : Server) (userIds : list Z)
    : Outcome * list Wait :=
  checkMultipleUsers_loop fuel (server userIds) 0%nat 0.

Definition promise_of (o : Outcome) : Promise (gmap Z UserStatus) :=
  match o with
  | Fulfilled d => Resolved d
  | Failed e => Rejected e
  | Looping _ => NeverSettles
  end.

(** ** The global 429 gate, and the calls that share it

    The scheduling of the calls of [checkMultipleUsers] that one process runs
    side by side.  A call is suspended at one of its [await]s; the event loop
    resumes it when the awaited promise settles, and the call then runs,
    without interleaving, up to its next [await].  [global429Lock] is [null]
    ([None]) or the promise of the async block that sleeps: the time its
    [sleep(waitMs)] is due, and the calls awaiting it in the order they
    started to. *)

Inductive Task : Type :=
  | Unstarted
  | Fetching (consecutiveFailures : Z)
      (* await fetch(...) *)
  | BackingOff (consecutiveFailures : Z) (due : Z)
      (* await sleep(waitMs) after a failure *)
  | AtGate_wait (consecutiveFailures : Z)
      (* await global429Lock, in waitForGlobal429 *)
  | AtGate_activate (consecutiveFailures : Z)
      (* await global429Lock, in activateGlobal429 *)
  | Settled (p : Promise (gmap Z UserStatus)).

Record Lock : Type := mkLock {
  lock_due : Z;
  lock_waiters : list nat
}.

(** What the process does that the outside sees. *)
Inductive Logged : Type :=
  | Requested (task : nat)         (* fetch(...) is called *)
  | HaltStarted (waitMs : Z)       (* "GLOBAL 429 HALT for ${waitMs}ms" *)
  | HaltCleared.                   (* "GLOBAL 429 CLEARED" *)

Record System : Type := mkSystem {
  now : Z;
  global429Lock : option Lock;
  tasks : list Task;
  log : list Logged
}.

(** The call of [fetch]: the request leaves, the call awaits the response. *)
Definition request (i : nat) (consecutiveFailures : Z) (s : System) : System :=
  mkSystem (now s) (global429Lock s)
    (<[i := Fetching consecutiveFailures]> (tasks s))
    (log s ++ [Requested i]).

Definition await_lock (i : nat) (t : Task) (lk : Lock) (s : System) : System :=
  mkSystem (now s)
    (Some (mkLock (lock_due lk) (lock_waiters lk ++ [i])))
    (<[i := t]> (tasks s))
    (log s).

(** The head of the [while (true)] loop: [await waitForGlobal429()], then
    [fetch]. *)
Definition waitForGlobal429_then_fetch (i : nat) (consecutiveFailures : Z)
    (s : System) : System :=
  match global429Lock s with
  | Some lk => await_lock i (AtGate_wait consecutiveFailures) lk s
  | None => request i consecutiveFailures s
  end.

(** [activateGlobal429(waitMs)], called by task [i]. *)
Definition activateGlobal429 (i : nat) (consecutiveFailures : Z) (waitMs : Z)
    (s : System) : System :=
  match global429Lock s with
  | None =>
      let lk := mkLock (now s + waitMs) [] in
      let s := mkSystem (now s) (Some lk) (tasks s) (log s ++ [HaltStarted waitMs]) in
      await_lock i (AtGate_activate consecutiveFailures) lk s
  | Some lk => await_lock i (AtGate_activate consecutiveFailures) lk s
  end.

Definition settle (i : nat) (p : Promise (gmap Z UserStatus)) (s : System)
    : System :=
  mkSystem (now s) (global429Lock s) (<[i := Settled p]> (tasks s)) (log s).

Definition back_off (i : nat) (consecutiveFailures waitMs : Z) (s : System)
    : System :=
  mkSystem (now s) (global429Lock s)
    (<[i := BackingOff consecutiveFailures (now s + waitMs)]> (tasks s)) (log s).

(** A call resumes after [await global429Lock]. *)
Definition resume (s : System) (i : nat) : System :=
  match tasks s !! i with
  | Some (AtGate_wait f) => request i f s
  | Some (AtGate_activate f) => waitForGlobal429_then_fetch i f s
  | _ => s
  end.

(** The sleep inside the lock is over: [global429Lock = null], the message,
    and the awaiting calls resume in turn. *)
Definition clear_lock (lk : Lock) (s : System) : System :=
  foldl resume
    (mkSystem (now s) None (tasks s) (log s ++ [HaltCleared]))
    (lock_waiters lk).

(** What the event loop delivers.  When a call starts is up to the launch
    loop of [checkLotsOfUsers], which itself awaits the stagger and
    [waitForGlobal429] before each call; here a call may start at any time. *)
Inductive Event : Type :=
  | Starts (task : nat)                       (* checkMultipleUsers is called *)
  | Settles (task : nat) (r : FetchResult)    (* its fetch settles *)
  | WakesUp (task : nat)                      (* its backoff sleep is over *)
  | LockExpires.                              (* the sleep inside the lock is over *)

Definition at_time (t : Z) (s : System) : System :=
  mkSystem t (global429Lock s) (tasks s) (log s).

(** One turn of the event loop at time [t]; [None] when the event cannot
    happen then (the clock does not run backwards, a timer does not fire
    before it is due, only an awaited promise settles). *)
Definition step (t : Z) (e : Event) (s : System) : option System :=
  if decide (t < now s) then None
  else
    let s := at_time t s in
    match e with
    | Starts i =>
        match tasks s !! i with
        | Some Unstarted => Some (waitForGlobal429_then_fetch i 0 s)
        | _ => None
        end
    | Settles i fetched =>
        match tasks s !! i with
        | Some (Fetching f) =>
            Some match loop_body f fetched with
                 | Return d => settle i (Resolved d) s
                 | Throw e => settle i (Rejected e) s
                 | SleepThenRetry f' waitMs => back_off i f' waitMs s
                 | HaltThenRetry f' waitMs => activateGlobal429 i f' waitMs s
                 end
        | _ => None
        end
    | WakesUp i =>
        match tasks s !! i with
        | Some (BackingOff f due) =>
            if decide (due <= t) then Some (waitForGlobal429_then_fetch i f s)
            else None
        | _ => None
        end
    | LockExpires =>
        match global429Lock s with
        | Some lk => if decide (lock_due lk <= t) then Some (clear_lock lk s) else None
        | None => None
        end
    end.

Fixpoint run (events : list (Z * Event)) (s : System) : option System :=
  match events with
  | [] => Some s
  | (t, e) :: events' =>
      match step t e s with
      | Some s' => run events' s'
      | None => None
      end
  end.

(** [n] calls not yet started, the gate open. *)
Definition boot (n : nat) : System := mkSystem 0 None (replicate n Unstarted) [].

(** Reading a log: [Some halted] while every request was made with the gate
    open, every halt started with the gate open and every clearing ended a
    halt; [None] from the first entry that breaks this. *)
Definition read_log (st : option bool) (e : Logged) : option bool :=
  match st, e with
  | Some false, Requested _ => Some false
  | Some false, HaltStarted _ => Some true
  | Some true, HaltCleared => Some false
  | _, _ => None
  end.

Definition gate_log (l : list Logged) : option bool := foldl read_log (Some false) l.

Definition is_halt_start (e : Logged) : bool :=
  match e with HaltStarted _ => true | _ => false end.

(** The number of cooldown sleeps started. *)
Definition halts (l : list Logged) : nat := length (List.filter is_halt_start l).

(** ** [checkLotsOfUsers] *)

Definition BATCH_SIZE : nat := 50.
Definition START_DELAY_MS : Z := 150.

(** [l.slice(start, stop)] for [0 <= start <= stop]. *)
Definition slice {A} (l : list A) (start stop : nat) : list A :=
  take (stop - start) (drop start l).

(** [for (let i = 0; i < ids.length; i += BATCH_SIZE)
       batches.push(ids.slice(i, i + BATCH_SIZE))].
    Every iteration moves [i] forward, so [length ids] iterations are enough
    ([batches_loop_fuel]). *)
Fixpoint batches_loop (fuel : nat) (ids : list Z) (i : nat) : list (list Z) :=
  match fuel with
  | O => []
  | S fuel' =>
      if decide (i < length ids)%nat
      then slice ids i (i + BATCH_SIZE) :: batches_loop fuel' ids (i + BATCH_SIZE)
      else []
  end.

Definition batches (ids : list Z) : list (list Z) :=
  batches_loop (length ids) ids 0.

(** [Object.assign(target, source)]: the keys of [source] overwrite. *)
Definition Object_assign (target source : gmap Z UserStatus) : gmap Z UserStatus :=
  source ∪ target.

(** The environment of one call of [checkLotsOfUsers]: the service as the
    [i]-th batch meets it, and the order in which the batch tasks complete
    (batch [i] completes before batch [j] when its rank is smaller). *)
Record Env : Type := mkEnv {
  server : nat -> Server;
  completion : nat -> nat
}.

(** [checkMultipleUsers(batches[i]).then((data) => Object.assign(userStatuses,
    data)).catch((err) => {})]: the task settles with what it does to
    [userStatuses]. *)
Definition then_assign_catch (p : Promise (gmap Z UserStatus))
    : Promise (gmap Z UserStatus -> gmap Z UserStatus) :=
  match p with
  | Resolved data => Resolved (fun userStatuses => Object_assign userStatuses data)
  | Rejected _ => Resolved (fun userStatuses => userStatuses)
  | NeverSettles => NeverSettles
  end.

(** [Promise.all]: rejects when a member rejects, resolves when all have. *)
Fixpoint Promise_all {A} (ps : list (Promise A)) : Promise (list A) :=
  match ps with
  | [] => Resolved []
  | p :: ps' =>
      match p, Promise_all ps' with
      | Rejected e, _ => Rejected e
      | _, Rejected e => Rejected e
      | Resolved v, Resolved vs => Resolved (v :: vs)
      | _, _ => NeverSettles
      end
  end.

Definition runningTasks (fuel : nat) (env : Env) (ids : list Z)
    : list (Promise (gmap Z UserStatus -> gmap Z UserStatus)) :=
  imap (fun i batch =>
          then_assign_catch
            (promise_of (checkMultipleUsers fuel (server env i) batch).1))
       (batches ids).

Definition completes_before (env : Env) (i j : nat) : Prop :=
  (completion env i <= completion env j)%nat.

#[global] Instance completes_before_dec env : RelDecision (completes_before env).
Proof. intros i j. unfold completes_before. apply _. Defined.

Definition completion_order (env : Env) (n : nat) : list nat :=
  merge_sort (completes_before env) (seq 0 n).

(** The launch loop only waits (the stagger of [START_DELAY_MS] after every 25
    launches and [waitForGlobal429]) before it starts each task, so every
    batch of [batches ids] is submitted; the tasks then run their effect on
    [userStatuses] as they complete. *)
Definition checkLotsOfUsers (fuel : nat) (env : Env) (ids : list Z)
    : Promise (gmap Z UserStatus) :=
  match Promise_all (runningTasks fuel env ids) with
  | Resolved effects =>
      Resolved
        (foldl (fun userStatuses i =>
                  match effects !! i with
                  | Some assign => assign userStatuses
                  | None => userStatuses
                  end)
               ∅ (completion_order env (length effects)))
  | Rejected e => Rejected e
  | NeverSettles => NeverSettles
  end.

End Rotector.

(* ===================================================================== *)
(** * usersScraper.ts *)
(* ===================================================================== *)

Module UsersScraper.

Definition MAX_SEARCH_FRIENDS_LIMIT : Z := 50.
Definition MAX_HTTP_RETRIES : nat := 5.
Definition BASE_RETRY_DELAY_MS : Z := 1000.
Definition MAX_RETRY_DELAY_MS : Z := 30000.

(** [Math.min(MAX_RETRY_DELAY_MS, BASE_RETRY_DELAY_MS * 2 ** attempt)] *)
Definition backoffMs (attempt : Z) : Z :=
  Z.min MAX_RETRY_DELAY_MS (BASE_RETRY_DELAY_MS * 2 ^ attempt).

Record PageItem : Type := mkPageItem {
  id : Z;
  hasVerifiedBadge : bool
}.

(** [type FriendResponse] *)
Record FriendResponse : Type := mkFriendResponse {
  PreviousCursor : option string;
  PageItems : list PageItem;
  NextCursor : option string
}.

(** What [fetch] of a friends page settles with; the body is [None] when
    [resp.json()] rejects. *)
Inductive FetchResult : Type :=
  | FetchThrows (message : string)
  | FetchResolves (status : Z) (body : option FriendResponse).

Definition ok (status : Z) : bool := (200 <=? status) && (status <=? 299).

(** [fetchFriendsPage]: the [for (let attempt = 0; ; attempt++)] loop against
    the answers [net] to its successive requests; the second component lists
    the [wait(waitMs)] calls. *)
Fixpoint fetchFriendsPage_loop (fuel : nat) (net : nat -> FetchResult)
    (attempt : nat) : Promise FriendResponse * list Z :=
  match fuel with
  | O => (NeverSettles, [])
  | S fuel' =>
      match net attempt with
      | FetchThrows message =>
          let retryAttempt := (attempt + 1)%nat in
          if decide (MAX_HTTP_RETRIES <= retryAttempt)%nat
          then (Rejected (NetworkError message), [])
          else
            let waitMs := backoffMs (Z.of_nat retryAttempt) in
            let '(p, ws) := fetchFriendsPage_loop fuel' net (S attempt) in
            (p, waitMs :: ws)
      | FetchResolves status body =>
          if ok status then
            match body with
            | Some page => (Resolved page, [])
            | None => (Rejected JsonError, [])
            end
          else
            let retryAttempt := (attempt + 1)%nat in
            let waitMs := backoffMs (Z.of_nat retryAttempt) in
            if decide (MAX_HTTP_RETRIES <= retryAttempt)%nat
            then (Rejected (HttpError status), [])
            else
              let '(p, ws) := fetchFriendsPage_loop fuel' net (S attempt) in
              (p, waitMs :: ws)
      end
  end.

(** The friends service: the answers to the requests for the page at
    [cursor]. *)
Definition Pages : Type := option string -> nat -> FetchResult.

Definition fetchFriendsPage (fuel : nat) (pages : Pages) (cursor : option string)
    : Promise FriendResponse * list Z :=
  fetchFriendsPage_loop fuel (pages cursor) 0.

(** [Number(userid)] for the decimal strings [parseArgs] lets through
    ([/^\d+$/]): the IEEE double nearest to the value the digits denote, a
    tie going to the even significand.  Up to [2^53] that is the value
    itself; above, the last bits are rounded away.  Other strings, which
    JavaScript reads as NaN or by other number syntaxes, and strings of more
    than 308 digits, which it reads as [Infinity], are outside this model. *)
Definition digit (c : Ascii.ascii) : Z := Z.of_nat (Ascii.nat_of_ascii c) - 48.

Fixpoint Number_from (acc : Z) (s : string) : Z :=
  match s with
  | EmptyString => acc
  | String c s' => Number_from (acc * 10 + digit c) s'
  end.

(** The double nearest to a non-negative integer: 53 significant bits. *)
Definition nearest_double (n : Z) : Z :=
  if n <? 2 ^ 53 then n
  else
    let ulp := 2 ^ (Z.log2 n - 52) in
    let significand := n / ulp in
    let rest := n mod ulp in
    let up := (ulp <? 2 * rest) || ((2 * rest =? ulp) && Z.odd significand) in
    (if up then significand + 1 else significand) * ulp.

Definition Number (s : string) : Z := nearest_double (Number_from 0 s).

(** [!!nextCursor] *)
Definition truthy (cursor : option string) : bool :=
  match cursor with
  | Some c => bool_decide (c <> EmptyString)
  | None => false
  end.

(** What the generator does, in order. *)
Inductive Event : Type :=
  | Yield (n : Z)
  | FetchPage (cursor : option string).

(** The [while (hasMore)] loop of [streamFriends], entered with [hasMore]
    true; [pagesLeft] bounds the number of pages looked at. *)
Fixpoint streamFriends_loop (pagesLeft fuel : nat) (pages : Pages)
    (nextCursor : option string) : list Event * Ending :=
  match pagesLeft with
  | O => ([], Stalls)
  | S pagesLeft' =>
      match (fetchFriendsPage fuel pages nextCursor).1 with
      | Resolved page =>
          let here := FetchPage nextCursor :: (Yield ∘ id <$> PageItems page) in
          if truthy (NextCursor page) then
            let '(evs, e) := streamFriends_loop pagesLeft' fuel pages (NextCursor page) in
            (here ++ evs, e)
          else (here, Exhausted)
      | Rejected e => ([FetchPage nextCursor], Throws e)
      | NeverSettles => ([FetchPage nextCursor], Stalls)
      end
  end.

(** [streamFriends] *)
Definition streamFriends_events (pagesLeft fuel : nat) (pages : Pages)
    (userid : string) : list Event * Ending :=
  let '(evs, e) := streamFriends_loop pagesLeft fuel pages None in
  (Yield (Number userid) :: evs, e).

Definition yielded (evs : list Event) : list Z :=
  omap (fun ev => match ev with Yield n => Some n | FetchPage _ => None end) evs.

Definition streamFriends (pagesLeft fuel : nat) (pages : Pages) (userid : string)
    : Stream Z :=
  let '(evs, e) := streamFriends_events pagesLeft fuel pages userid in
  mkStream (yielded evs) e.

(** [getFriends]: the ids [streamFriends] yields, pushed to [friends] in
    order. *)
Definition getFriends (pagesLeft fuel : nat) (pages : Pages) (userid : string)
    : Promise (list Z) :=
  let entryStream := streamFriends pagesLeft fuel pages userid in
  match ending entryStream with
  | Exhausted => Resolved (yields entryStream)
  | Throws e => Rejected e
  | Stalls => NeverSettles
  end.

End UsersScraper.

(* ===================================================================== *)
(** * groupsScraper.ts (its backoff) *)
(* ===================================================================== *)

Module GroupsScraper.

Definition MAX_HTTP_RETRIES : nat := 5.
Definition BASE_RETRY_DELAY_MS : Z := 1000.
Definition MAX_RETRY_DELAY_MS : Z := 30000.

(** [Math.min(MAX_RETRY_DELAY_MS, BASE_RETRY_DELAY_MS * 2 ** attempt)] *)
Definition backoffMs (attempt : Z) : Z :=
  Z.min MAX_RETRY_DELAY_MS (BASE_RETRY_DELAY_MS * 2 ^ attempt).

End GroupsScraper.

(* ===================================================================== *)
(** * index.ts *)
(* ===================================================================== *)

Module Index.

Definition LOOKUP_BATCH_SIZE : nat := 50.

(** The world a run meets: how far each lookup is followed, and the
    environment of the [n]-th call of [checkLotsOfUsers] of the run. *)
Record World : Type := mkWorld {
  fuel : nat;
  rotector : nat -> Rotector.Env
}.

(** Module-level state: [statusCache], and how many lookups the run has
    started (which environment the next one meets). *)
Record Run : Type := mkRun {
  statusCache : gmap Z Rotector.UserStatus;
  calls : nat
}.

(** One JSON line of a source's [rotector] file: the [source] and [user]
    objects of [writeStatus] ([runId] and [generatedAt] are left out). *)
Record Line : Type := mkLine {
  source_label : string;
  user_id : Z;
  user_flagType : Z;
  user_flagLabel : string;
  user_status : Rotector.UserStatus
}.

(** The locals of one call of [processEntries], with what the call has done
    so far to the outside: the lines appended through [rotectorWriter], the
    ids [logger.warn] reported as missing, and the batches handed to
    [checkMultipleUsers]. *)
Record Locals : Type := mkLocals {
  seenIds : gset Z;
  pendingLookup : list Z;
  flagBreakdown : gmap string nat;
  totalCollected : nat;
  uniqueUsers : nat;
  newlyChecked : nat;
  unsafeMatches : nat;
  rotectorWriter : list Line;
  warnings : list Z;
  submitted : list (list Z)
}.

Definition fresh : Locals :=
  mkLocals ∅ [] ∅ 0 0 0 0 [] [] [].

(** [persistCache]: [statusCache.set(Number(userId), status)] for every entry
    of [results]. *)
Definition persistCache (results : gmap Z Rotector.UserStatus)
    (cache : gmap Z Rotector.UserStatus) : gmap Z Rotector.UserStatus :=
  map_fold (fun userId status cache => <[userId := status]> cache) cache results.

(** [writeStatus] *)
Definition writeStatus (label : string) (status : Rotector.UserStatus)
    (l : Locals) : Locals :=
  let flagLabel := Rotector.flagTypeToString (Rotector.flagType status) in
  mkLocals
    (seenIds l)
    (pendingLookup l)
    (<[flagLabel := S (default 0%nat (flagBreakdown l !! flagLabel))]> (flagBreakdown l))
    (totalCollected l)
    (uniqueUsers l)
    (newlyChecked l)
    (if decide (Rotector.flagType status = 0) then unsafeMatches l
     else S (unsafeMatches l))
    (rotectorWriter l ++
       [mkLine label (Rotector.id status) (Rotector.flagType status) flagLabel status])
    (warnings l)
    (submitted l).

(** [logger.warn(`[${label}] missing Rotector data for ${id}`)] *)
Definition warn_missing (userId : Z) (l : Locals) : Locals :=
  mkLocals (seenIds l) (pendingLookup l) (flagBreakdown l) (totalCollected l)
    (uniqueUsers l) (newlyChecked l) (unsafeMatches l) (rotectorWriter l)
    (warnings l ++ [userId]) (submitted l).

(** How a call stands: running, waiting for a promise that never settles, or
    left through an exception. *)
Inductive Control : Type :=
  | Live
  | Hung
  | Crashed (e : Error).

Inductive Exec : Type :=
  | At (c : Control) (r : Run) (l : Locals).

(** [pendingLookup.splice(0)] and the call of [checkLotsOfUsers(chunk)], up
    to its [await]. *)
Definition start_lookup (chunk : list Z) (l : Locals) : Locals :=
  mkLocals (seenIds l) [] (flagBreakdown l) (totalCollected l)
    (uniqueUsers l) (newlyChecked l) (unsafeMatches l) (rotectorWriter l)
    (warnings l) (submitted l ++ Rotector.batches chunk).

Definition add_newlyChecked (n : nat) (l : Locals) : Locals :=
  mkLocals (seenIds l) (pendingLookup l) (flagBreakdown l) (totalCollected l)
    (uniqueUsers l) (newlyChecked l + n) (unsafeMatches l) (rotectorWriter l)
    (warnings l) (submitted l).

(** The [for (const id of chunk)] loop of [flushLookup]. *)
Definition record_results (label : string)
    (lookupResults : gmap Z Rotector.UserStatus) (chunk : list Z) (l : Locals)
    : Locals :=
  foldl (fun l userId =>
           match lookupResults !! userId with
           | Some status => writeStatus label status l
           | None => warn_missing userId l
           end)
        l chunk.

(** [flushLookup] *)
Definition flushLookup (w : World) (label : string) (r : Run) (l : Locals) : Exec :=
  match pendingLookup l with
  | [] => At Live r l
  | _ :: _ =>
      let chunk := pendingLookup l in
      let l := start_lookup chunk l in
      let called := mkRun (statusCache r) (S (calls r)) in
      match Rotector.checkLotsOfUsers (fuel w) (rotector w (calls r)) chunk with
      | Resolved lookupResults =>
          let r := mkRun (persistCache lookupResults (statusCache r)) (S (calls r)) in
          let l := add_newlyChecked (length chunk) l in
          At Live r (record_results label lookupResults chunk l)
      | Rejected e => At (Crashed e) called l
      | NeverSettles => At Hung called l
      end
  end.

Definition count_entry (l : Locals) : Locals :=
  mkLocals (seenIds l) (pendingLookup l) (flagBreakdown l) (S (totalCollected l))
    (uniqueUsers l) (newlyChecked l) (unsafeMatches l) (rotectorWriter l)
    (warnings l) (submitted l).

Definition mark_seen (userId : Z) (l : Locals) : Locals :=
  mkLocals ({[userId]} ∪ seenIds l) (pendingLookup l) (flagBreakdown l)
    (totalCollected l) (S (uniqueUsers l)) (newlyChecked l) (unsafeMatches l)
    (rotectorWriter l) (warnings l) (submitted l).

Definition push_pending (userId : Z) (l : Locals) : Locals :=
  mkLocals (seenIds l) (pendingLookup l ++ [userId]) (flagBreakdown l)
    (totalCollected l) (uniqueUsers l) (newlyChecked l) (unsafeMatches l)
    (rotectorWriter l) (warnings l) (submitted l).

(** The body of [for await (const entry of entryStream)], for the user id
    [extractUserId(entry)]; [onEntryCollected] and [emitStatus] only write the
    per-source id logs and the status line. *)
Definition collect (w : World) (label : string) (r : Run) (l : Locals)
    (userId : Z) : Exec :=
  let l := count_entry l in
  if decide (userId ∈ seenIds l) then At Live r l
  else
    let l := mark_seen userId l in
    match statusCache r !! userId with
    | Some cached => At Live r (writeStatus label cached l)
    | None =>
        let l := push_pending userId l in
        if decide (LOOKUP_BATCH_SIZE <= length (pendingLookup l))%nat
        then flushLookup w label r l
        else At Live r l
    end.

Definition collect_step {Entry} (w : World) (label : string)
    (extractUserId : Entry -> Z) (x : Exec) (entry : Entry) : Exec :=
  match x with
  | At Live r l => collect w label r l (extractUserId entry)
  | _ => x
  end.

(** [processEntries], from fresh locals; the value of the last [At] stands
    for the returned [ProcessResult]. *)
Definition processEntries {Entry} (w : World) (label : string)
    (extractUserId : Entry -> Z) (entryStream : Stream Entry) (r : Run) : Exec :=
  match foldl (collect_step w label extractUserId) (At Live r fresh)
              (yields entryStream) with
  | At Live r l =>
      match ending entryStream with
      | Exhausted => flushLookup w label r l
      | Throws e => At (Crashed e) r l
      | Stalls => At Hung r l
      end
  | x => x
  end.

(** [interface GroupMemberEntry] of groupsScraper.ts. *)
Record GroupMemberEntry : Type := mkGroupMemberEntry {
  userId : Z;
  rolesetId : Z
}.

(** A target of the command line with the stream its scraper delivers:
    [streamFriends(friendId)] or [streamGroupMembers(group.id, group.cap,
    roles)]. *)
Inductive Target : Type :=
  | Friends (friendId : string) (entryStream : Stream Z)
  | Group (groupId : string) (entryStream : Stream GroupMemberEntry).

(** [processFriendSource] and [processGroupSource], as far as the lookups and
    the [rotector] file go. *)
Definition processSource (w : World) (t : Target) (r : Run) : Exec :=
  match t with
  | Friends friendId entryStream =>
      processEntries w ("friends:" +:+ friendId) (fun id => id) entryStream r
  | Group groupId entryStream =>
      processEntries w ("group:" +:+ groupId) userId entryStream r
  end.

(** The two [for ... of] loops of [main] over [options.friendIds] and
    [options.groups]: one source after the other, each awaited; an exception
    ends the run.  The result lists the locals of every source that was
    started. *)
Fixpoint processSources (w : World) (targets : list Target) (r : Run)
    : list Locals * Control * Run :=
  match targets with
  | [] => ([], Live, r)
  | t :: targets' =>
      match processSource w t r with
      | At Live r' l =>
          let '(ls, c, r'') := processSources w targets' r' in
          (l :: ls, c, r'')
      | At c r' l => ([l], c, r')
      end
  end.

Definition main (w : World) (friends : list (string * Stream Z))
    (groups : list (string * Stream GroupMemberEntry))
    : list Locals * Control * Run :=
  processSources w
    ((uncurry Friends <$> friends) ++ (uncurry Group <$> groups))
    (mkRun ∅ 0).

(** ** Counters, status line and reports *)

(** [Object.values(flagBreakdown).reduce((sum, count) => sum + count, 0)],
    the body of [getMatchedUsers] and the [uniqueMatched] of
    [buildIndexPayload]. *)
Definition getMatchedUsers (flagBreakdown : gmap string nat) : nat :=
  map_fold (fun _ count sum => (sum + count)%nat) 0%nat flagBreakdown.

(** [interface StatusSnapshot] *)
Record StatusSnapshot : Type := mkStatusSnapshot {
  snapshot_totalCollected : nat;
  snapshot_uniqueUsers : nat;
  matchedUsers : nat;
  snapshot_unsafeMatches : nat;
  queueSize : nat
}.

(** [emitStatus]: the snapshot handed to [statusUpdater]. *)
Definition emitStatus (l : Locals) : StatusSnapshot :=
  mkStatusSnapshot (totalCollected l) (uniqueUsers l)
    (getMatchedUsers (flagBreakdown l)) (unsafeMatches l)
    (length (pendingLookup l)).

(** [Math.max(0, snapshot.uniqueUsers - snapshot.matchedUsers)] *)
Definition pendingMatches (snapshot : StatusSnapshot) : Z :=
  Z.max 0 (Z.of_nat (snapshot_uniqueUsers snapshot) - Z.of_nat (matchedUsers snapshot)).

(** [formatStatusLine] *)
Definition formatStatusLine (label : string) (snapshot : StatusSnapshot) : string :=
  label +:+ " :: total " +:+ pretty (snapshot_totalCollected snapshot)
    +:+ " | unique " +:+ pretty (snapshot_uniqueUsers snapshot)
    +:+ " | matched " +:+ pretty (matchedUsers snapshot)
    +:+ " (unsafe " +:+ pretty (snapshot_unsafeMatches snapshot)
    +:+ ") | queue " +:+ pretty (queueSize snapshot)
    +:+ " | pending " +:+ pretty (pendingMatches snapshot).

(** [interface ProcessResult], and the [return] of [processEntries]. *)
Record ProcessResult : Type := mkProcessResult {
  result_totalCollected : nat;
  result_uniqueUsers : nat;
  result_newlyChecked : nat;
  result_flagBreakdown : gmap string nat;
  result_unsafeMatches : nat
}.

Definition result (l : Locals) : ProcessResult :=
  mkProcessResult (totalCollected l) (uniqueUsers l) (newlyChecked l)
    (flagBreakdown l) (unsafeMatches l).




(** [interface SourceRunSummary] ([type], [targetId] and [indexFile] are
    left out), and the [return] of [processFriendSource] and
    [processGroupSource]. *)
Record SourceRunSummary : Type := mkSourceRunSummary {
  summary_label : string;
  totalUsers : nat;
  summary_uniqueUsers : nat;
  summary_newlyChecked : nat;
  summary_flagBreakdown : gmap string nat
}.

Definition label_of (t : Target) : string :=
  match t with
  | Friends friendId _ => "friends:" +:+ friendId
  | Group groupId _ => "group:" +:+ groupId
  end.

Definition summarize (t : Target) (stats : ProcessResult) : SourceRunSummary :=
  mkSourceRunSummary (label_of t) (result_totalCollected stats)
    (result_uniqueUsers stats) (result_newlyChecked stats)
    (result_flagBreakdown stats).

(** The two nested loops of [main] that fill [aggregateBreakdown]. *)
Definition add_breakdown (aggregateBreakdown flagBreakdown : gmap string nat)
    : gmap string nat :=
  map_fold (fun label count aggregateBreakdown =>
              <[label := (default 0%nat (aggregateBreakdown !! label) + count)%nat]>
                aggregateBreakdown)
           aggregateBreakdown flagBreakdown.

Definition aggregateBreakdown (summaries : list SourceRunSummary) : gmap string nat :=
  foldl (fun aggregateBreakdown summary =>
           add_breakdown aggregateBreakdown (summary_flagBreakdown summary))
        ∅ summaries.

(** [summaryPayload.stats] and [summaryPayload.flagBreakdown]. *)
Record SummaryPayload : Type := mkSummaryPayload {
  sourcesAnalyzed : nat;
  uniqueUsersMatched : nat;
  totalIdsCollected : nat;
  summary_aggregate : gmap string nat;
  sources : list SourceRunSummary
}.

Definition summaryPayload (summaries : list SourceRunSummary)
    (statusCache : gmap Z Rotector.UserStatus) : SummaryPayload :=
  mkSummaryPayload (length summaries) (size statusCache)
    (foldl (fun acc s => (acc + totalUsers s)%nat) 0%nat summaries)
    (aggregateBreakdown summaries) summaries.

(** What [main] writes to [summary.json]: the summaries of the sources, when
    every one of them has returned. *)
Definition summary_of_run (targets : list Target)
    (outcome : list Locals * Control * Run) : option SummaryPayload :=
  match outcome with
  | (ls, Live, r) =>
      Some (summaryPayload (zip_with (fun t l => summarize t (result l)) targets ls)
              (statusCache r))
  | _ => None
  end.

(** ** The command line *)

(** [interface GroupConfig] and [interface CliOptions].  A cap is a whole
    number here. *)
Record GroupConfig : Type := mkGroupConfig {
  group_id : string;
  cap : option Z
}.

Record CliOptions : Type := mkCliOptions {
  friendIds : list string;
  groups : list GroupConfig;
  outputDir : string;
  verbose : bool
}.

(** How [parseArgs] ends: it returns the options, or prints the help and
    calls [process.exit(0)], or throws an [Error] with a message. *)
Inductive Parsed : Type :=
  | Options (opts : CliOptions)
  | Help
  | Invalid (message : string).

(** [/^\d+$/.test(s)] *)
Definition is_digit (c : Ascii.ascii) : bool :=
  (48 <=? Ascii.nat_of_ascii c)%nat && (Ascii.nat_of_ascii c <=? 57)%nat.

Fixpoint all_digits (s : string) : bool :=
  match s with
  | EmptyString => true
  | String c s' => is_digit c && all_digits s'
  end.

Definition digits_only (s : string) : bool :=
  negb (bool_decide (s = EmptyString)) && all_digits s.

(** [s.split(sep)] for a separator of one character. *)
Fixpoint split (sep : Ascii.ascii) (s : string) : list string :=
  match s with
  | EmptyString => [EmptyString]
  | String c s' =>
      if Ascii.eqb c sep then EmptyString :: split sep s'
      else
        match split sep s' with
        | first :: rest => String c first :: rest
        | [] => [String c EmptyString]
        end
  end.

Section parseArgs.

(** Two functions of the runtime that [parseArgs] applies to its input:
    [String.prototype.trim], and [Number] on a string, [None] being NaN (the
    numbers are the whole ones: a cap such as 1.5 is outside the model). *)
Variable trim : string -> string.
Variable Number : string -> option Z.

(** The [for (const id of idsRaw.split(","))] loop, pushing to
    [opts.friendIds]. *)
Fixpoint push_friendIds (ids : list string) (friendIds : list string)
    : string + list string :=
  match ids with
  | [] => inr friendIds
  | id :: ids' =>
      let trimmed := trim id in
      if decide (trimmed = EmptyString) then push_friendIds ids' friendIds
      else if negb (digits_only trimmed)
      then inl ("Invalid Roblox user id: " +:+ trimmed)
      else push_friendIds ids' (friendIds ++ [trimmed])
  end.

(** The body of [case "--group"], from [groupRaw.split(":")] on. *)
Definition group_config (groupRaw : string) : string + GroupConfig :=
  let parts := split ":"%char groupRaw in
  let groupIdRaw := default EmptyString (parts !! 0%nat) in
  let capRaw := parts !! 1%nat in
  if negb (digits_only groupIdRaw)
  then inl ("Invalid Roblox group id: " +:+ groupIdRaw)
  else
    match capRaw with
    | None => inr (mkGroupConfig groupIdRaw None)
    | Some capRaw =>
        match Number capRaw with
        | Some parsed =>
            if parsed <=? 0
            then inl ("Invalid member cap for group " +:+ groupIdRaw +:+ ": " +:+ capRaw)
            else inr (mkGroupConfig groupIdRaw (Some parsed))
        | None =>
            inl ("Invalid member cap for group " +:+ groupIdRaw +:+ ": " +:+ capRaw)
        end
    end.

(** The [for (let i = 0; i < argv.length; i++)] loop of [parseArgs] over the
    arguments from [argv[i]] on; [argv[++i]] is the head of the rest. *)
Fixpoint parseArgs_loop (argv : list string) (opts : CliOptions) : Parsed :=
  match argv with
  | [] => Options opts
  | arg :: rest =>
      if bool_decide (arg ∈ ["-h"; "--help"]) then Help
      else if bool_decide (arg ∈ ["-o"; "--output"; "--out"]) then
        match rest with
        | dir :: rest' =>
            if decide (dir = EmptyString) then Invalid "Missing value for --output"
            else parseArgs_loop rest'
                   (mkCliOptions (friendIds opts) (groups opts) dir (verbose opts))
        | [] => Invalid "Missing value for --output"
        end
      else if bool_decide (arg ∈ ["-f"; "--friend"; "--friends"]) then
        match rest with
        | idsRaw :: rest' =>
            if decide (idsRaw = EmptyString)
            then Invalid "Missing value for --friend/--friends"
            else
              match push_friendIds (split ","%char idsRaw) (friendIds opts) with
              | inl message => Invalid message
              | inr friendIds =>
                  parseArgs_loop rest'
                    (mkCliOptions friendIds (groups opts) (outputDir opts) (verbose opts))
              end
        | [] => Invalid "Missing value for --friend/--friends"
        end
      else if bool_decide (arg ∈ ["-g"; "--group"]) then
        match rest with
        | groupRaw :: rest' =>
            if decide (groupRaw = EmptyString) then Invalid "Missing value for --group"
            else
              match group_config groupRaw with
              | inl message => Invalid message
              | inr cfg =>
                  parseArgs_loop rest'
                    (mkCliOptions (friendIds opts) (groups opts ++ [cfg])
                       (outputDir opts) (verbose opts))
              end
        | [] => Invalid "Missing value for --group"
        end
      else if bool_decide (arg ∈ ["-v"; "--verbose"]) then
        parseArgs_loop rest
          (mkCliOptions (friendIds opts) (groups opts) (outputDir opts) true)
      else Invalid ("Unknown argument: " +:+ arg)
  end.

(** [parseArgs] *)
Definition parseArgs (argv : list string) : Parsed :=
  parseArgs_loop argv (mkCliOptions [] [] EmptyString false).

(** How [main] gets to its first [mkdirSync]: with the options, or not at
    all, the process having exited with a status (and, from the [catch], a
    message on the error output). *)
Inductive Started : Type :=
  | Proceeds (options : CliOptions)
  | Exits (code : Z) (message : option string).

(** [main] up to [const resolvedOutput = ...]; [COOKIE] is
    [process.env.COOKIE]. *)
Definition main_options (argv : list string) (COOKIE : option string) : Started :=
  match parseArgs argv with
  | Help => Exits 0 None
  | Invalid message => Exits 1 (Some message)
  | Options options =>
      if decide (outputDir options = EmptyString)
      then Exits 1 (Some "--output directory is required")
      else if decide (friendIds options = [] /\ groups options = [])
      then Exits 1 (Some "Provide at least one --friend or --group target")
      else
        match COOKIE with
        | Some (String _ _) => Proceeds options
        | _ => Exits 1 (Some "COOKIE environment variable (.ROBLOSECURITY) is missing")
        end
  end.

End parseArgs.

(** ** The logger *)

(** The closure [createLogger(verbose)] returns, with what it has written:
    its flag, the variables [statusActive] and [lastStatusLength], and the
    text sent to the standard output and to the standard error.  Messages
    are ASCII here (the status lines of this program are), so that [length]
    counts their characters. *)
Record Logger : Type := mkLogger {
  verboseEnabled : bool;
  statusActive : bool;
  lastStatusLength : nat;
  stdout : string;
  stderr : string
}.

Definition createLogger (verbose : bool) : Logger :=
  mkLogger verbose false 0 EmptyString EmptyString.

Definition prefix : string := "[status] ".

Definition CR : string := String (Ascii.ascii_of_nat 13) EmptyString.
Definition LF : string := String (Ascii.ascii_of_nat 10) EmptyString.
Definition BS : Ascii.ascii := Ascii.ascii_of_nat 8.

(** [c.repeat(n)] *)
Fixpoint repeat_char (c : Ascii.ascii) (n : nat) : string :=
  match n with
  | O => EmptyString
  | S n' => String c (repeat_char c n')
  end.

(** [process.stdout.write(text)], [console.log(text)], [console.warn(text)] *)
Definition stdout_write (text : string) (lg : Logger) : Logger :=
  mkLogger (verboseEnabled lg) (statusActive lg) (lastStatusLength lg)
    (stdout lg +:+ text) (stderr lg).

Definition console_log (text : string) (lg : Logger) : Logger :=
  stdout_write (text +:+ LF) lg.

Definition console_warn (text : string) (lg : Logger) : Logger :=
  mkLogger (verboseEnabled lg) (statusActive lg) (lastStatusLength lg)
    (stdout lg) (stderr lg +:+ text +:+ LF).

(** [status] *)
Definition status (message : string) (lg : Logger) : Logger :=
  if verboseEnabled lg then console_log (prefix +:+ message) lg
  else
    let line := prefix +:+ message in
    let padding := (lastStatusLength lg - String.length message)%nat in
    let lg := stdout_write (CR +:+ repeat_char " " (lastStatusLength lg)
                            +:+ repeat_char BS (lastStatusLength lg)) lg in
    let lg := stdout_write (line +:+ repeat_char " " padding +:+ CR) lg in
    mkLogger (verboseEnabled lg) true (String.length message) (stdout lg) (stderr lg).

(** [statusDone]; the test [if (finalMessage)] fails for [undefined] and for
    the empty string. *)
Definition statusDone (finalMessage : option string) (lg : Logger) : Logger :=
  let given :=
    match finalMessage with
    | Some (String c s) => Some (String c s)
    | _ => None
    end in
  if verboseEnabled lg then
    match given with
    | Some finalMessage => console_log (prefix +:+ finalMessage) lg
    | None => lg
    end
  else
    let lg :=
      match given with
      | Some finalMessage =>
          let padding := (lastStatusLength lg - String.length finalMessage)%nat in
          stdout_write (CR +:+ prefix +:+ finalMessage +:+ repeat_char " " padding +:+ LF) lg
      | None => if statusActive lg then stdout_write LF lg else lg
      end in
    mkLogger (verboseEnabled lg) false 0 (stdout lg) (stderr lg).

(** [log], [warn] and [verbose] *)
Definition log (message : string) (lg : Logger) : Logger :=
  let lg := if verboseEnabled lg then lg else statusDone None lg in
  console_log message lg.

Definition warn (message : string) (lg : Logger) : Logger :=
  let lg := if verboseEnabled lg then lg else statusDone None lg in
  console_warn message lg.

Definition verboseLog (message : string) (lg : Logger) : Logger :=
  if verboseEnabled lg then console_log message lg else lg.

(** A call of one of the five functions of the logger. *)
Inductive LoggerCall : Type :=
  | Status (message : string)
  | StatusDone (finalMessage : option string)
  | Log (message : string)
  | Warn (message : string)
  | VerboseLog (message : string).

Definition call (lg : Logger) (c : LoggerCall) : Logger :=
  match c with
  | Status message => status message lg
  | StatusDone finalMessage => statusDone finalMessage lg
  | Log message => log message lg
  | Warn message => warn message lg
  | VerboseLog message => verboseLog message lg
  end.

End Index.

(* ===================================================================== *)
(** * groupsScraper.ts: [fetchJSON], the roles and the member streams *)
(* ===================================================================== *)

Module Groups.

(** [type Roleset] *)
Record Roleset : Type := mkRoleset {
  id : Z;
  name : string;
  rank : Z;
  memberCount : Z
}.

(** [type RolesetInfo] *)
Record RolesetInfo : Type := mkRolesetInfo {
  groupId : Z;
  roles : list Roleset
}.

(** An entry of [GroupMembersResponse.data]. *)
Record Member : Type := mkMember {
  hasVerifiedBadge : bool;
  userId : Z;
  username : string;
  displayName : string
}.

(** [type GroupMembersResponse] *)
Record GroupMembersResponse : Type := mkGroupMembersResponse {
  previousPageCursor : option string;
  nextPageCursor : option string;
  data : list Member
}.

(** The [Retry-After] header of a response as [Number(resp.headers.get(
    "Retry-After"))] reads it: the header is missing ([get] returns [null],
    which [Number] reads as 0), or it is not a number (an HTTP date, say:
    NaN), or it is a number of seconds. *)
Inductive RetryAfter : Type :=
  | Missing
  | NotANumber
  | Seconds (n : Z).

(** The value of [retryAfterHeader]; [None] is NaN. *)
Definition retryAfterHeader (h : RetryAfter) : option Z :=
  match h with
  | Missing => Some 0
  | NotANumber => None
  | Seconds n => Some n
  end.

(** What [fetch] settles with; the body is [None] when [resp.json()]
    rejects. *)
Inductive FetchResult (A : Type) : Type :=
  | FetchThrows (message : string)
  | FetchResolves (status : Z) (header : RetryAfter) (body : option A).

Arguments FetchThrows {A} message.
Arguments FetchResolves {A} status header body.

Definition ok (status : Z) : bool := (200 <=? status) && (status <=? 299).

(** [resp.status === 429 && !Number.isNaN(retryAfterHeader)
       ? retryAfterHeader * 1000 : backoffMs(retryAttempt)] *)
Definition waitMs_of (status : Z) (header : RetryAfter) (retryAttempt : nat) : Z :=
  match retryAfterHeader header with
  | Some seconds =>
      if status =? 429 then seconds * 1000
      else GroupsScraper.backoffMs (Z.of_nat retryAttempt)
  | None => GroupsScraper.backoffMs (Z.of_nat retryAttempt)
  end.

(** [fetchJSON]: the [for (let attempt = 0; ; attempt++)] loop against the
    answers [net] to its successive requests; the second component lists the
    [wait(waitMs)] calls. *)
Fixpoint fetchJSON_loop {A} (fuel : nat) (net : nat -> FetchResult A)
    (attempt : nat) : Promise A * list Z :=
  match fuel with
  | O => (NeverSettles, [])
  | S fuel' =>
      match net attempt with
      | FetchThrows message =>
          let retryAttempt := (attempt + 1)%nat in
          if decide (GroupsScraper.MAX_HTTP_RETRIES <= retryAttempt)%nat
          then (Rejected (NetworkError message), [])
          else
            let waitMs := GroupsScraper.backoffMs (Z.of_nat retryAttempt) in
            let '(p, ws) := fetchJSON_loop fuel' net (S attempt) in
            (p, waitMs :: ws)
      | FetchResolves status header body =>
          if ok status then
            match body with
            | Some json => (Resolved json, [])
            | None => (Rejected JsonError, [])
            end
          else
            let retryAttempt := (attempt + 1)%nat in
            let waitMs := waitMs_of status header retryAttempt in
            if decide (GroupsScraper.MAX_HTTP_RETRIES <= retryAttempt)%nat
            then (Rejected (HttpError status), [])
            else
              let '(p, ws) := fetchJSON_loop fuel' net (S attempt) in
              (p, waitMs :: ws)
      end
  end.

Definition fetchJSON {A} (fuel : nat) (net : nat -> FetchResult A)
    : Promise A * list Z :=
  fetchJSON_loop fuel net 0.

(** The groups service for one group: the answers to the successive requests
    for its roles, and for the page of the members of a role at a cursor. *)
Record Service : Type := mkService {
  roles_url : nat -> FetchResult RolesetInfo;
  users_url : Z -> option string -> nat -> FetchResult GroupMembersResponse
}.

(** [getGroupRoles]: [rolesets.roles.filter((r) => r.rank > 0)] *)
Definition getGroupRoles (fuel : nat) (service : Service) : Promise (list Roleset) :=
  match (fetchJSON fuel (roles_url service)).1 with
  | Resolved rolesets => Resolved (filter (fun r => 0 < rank r) (roles rolesets))
  | Rejected e => Rejected e
  | NeverSettles => NeverSettles
  end.

(** [getRolesetIds] *)
Definition getRolesetIds (fuel : nat) (service : Service) : Promise (list Z) :=
  match getGroupRoles fuel service with
  | Resolved roles => Resolved (id <$> roles)
  | Rejected e => Rejected e
  | NeverSettles => NeverSettles
  end.

(** What the generators do, in order. *)
Inductive Event : Type :=
  | Yield (member : Index.GroupMemberEntry)
  | FetchRoles
  | FetchPage (rolesetId : Z) (cursor : option string).

(** [!data.nextPageCursor] is false *)
Definition truthy (cursor : option string) : bool :=
  match cursor with
  | Some c => bool_decide (c <> EmptyString)
  | None => false
  end.

(** [streamRolesetMembers]: the [while (true)] loop; [pagesLeft] bounds the
    number of pages looked at. *)
Fixpoint streamRolesetMembers_loop (pagesLeft fuel : nat) (service : Service)
    (rolesetId : Z) (cursor : option string) : list Event * Ending :=
  match pagesLeft with
  | O => ([], Stalls)
  | S pagesLeft' =>
      match (fetchJSON fuel (users_url service rolesetId cursor)).1 with
      | Resolved page =>
          let here :=
            FetchPage rolesetId cursor
            :: ((fun entry => Yield (Index.mkGroupMemberEntry (userId entry) rolesetId))
                <$> data page) in
          if truthy (nextPageCursor page) then
            let '(evs, e) :=
              streamRolesetMembers_loop pagesLeft' fuel service rolesetId
                (nextPageCursor page) in
            (here ++ evs, e)
          else (here, Exhausted)
      | Rejected e => ([FetchPage rolesetId cursor], Throws e)
      | NeverSettles => ([FetchPage rolesetId cursor], Stalls)
      end
  end.

Definition streamRolesetMembers (pagesLeft fuel : nat) (service : Service)
    (rolesetId : Z) : list Event * Ending :=
  streamRolesetMembers_loop pagesLeft fuel service rolesetId None.

(** [max && delivered >= max]: no cap when [max] is [undefined] or 0. *)
Definition reached (max : option Z) (delivered : Z) : bool :=
  match max with
  | Some m => negb (m =? 0) && (m <=? delivered)
  | None => false
  end.

(** The [for await (const member of streamRolesetMembers(...))] loop of
    [streamGroupMembers] over what the inner generator does when it is
    resumed: the requests it makes go through; at a member the outer
    generator yields, counts, and returns when the cap is reached, and the
    inner generator is then never resumed.  The result tells whether the
    outer generator has returned. *)
Fixpoint deliver (max : option Z) (inner : list Event) (delivered : Z)
    : list Event * Z * bool :=
  match inner with
  | [] => ([], delivered, false)
  | Yield member :: inner' =>
      let delivered := delivered + 1 in
      if reached max delivered then ([Yield member], delivered, true)
      else
        let '(evs, delivered, returned) := deliver max inner' delivered in
        (Yield member :: evs, delivered, returned)
  | ev :: inner' =>
      let '(evs, delivered, returned) := deliver max inner' delivered in
      (ev :: evs, delivered, returned)
  end.

(** The [for (const roleset of roleList)] loop of [streamGroupMembers]. *)
Fixpoint streamGroupMembers_loop (pagesLeft fuel : nat) (service : Service)
    (max : option Z) (roleList : list Roleset) (delivered : Z)
    : list Event * Ending :=
  match roleList with
  | [] => ([], Exhausted)
  | roleset :: roleList' =>
      let '(inner, e) := streamRolesetMembers pagesLeft fuel service (id roleset) in
      let '(evs, delivered, returned) := deliver max inner delivered in
      if returned then (evs, Exhausted)
      else
        match e with
        | Exhausted =>
            let '(evs', e') :=
              streamGroupMembers_loop pagesLeft fuel service max roleList' delivered in
            (evs ++ evs', e')
        | _ => (evs, e)
        end
  end.

(** [streamGroupMembers(groupId, max, rolesets)] *)
Definition streamGroupMembers_events (pagesLeft fuel : nat) (service : Service)
    (max : option Z) (rolesets : option (list Roleset)) : list Event * Ending :=
  match rolesets with
  | Some roleList => streamGroupMembers_loop pagesLeft fuel service max roleList 0
  | None =>
      match getGroupRoles fuel service with
      | Resolved roleList =>
          let '(evs, e) :=
            streamGroupMembers_loop pagesLeft fuel service max roleList 0 in
          (FetchRoles :: evs, e)
      | Rejected e => ([FetchRoles], Throws e)
      | NeverSettles => ([FetchRoles], Stalls)
      end
  end.

Definition yielded (evs : list Event) : list Index.GroupMemberEntry :=
  omap (fun ev => match ev with Yield member => Some member | _ => None end) evs.

Definition streamGroupMembers (pagesLeft fuel : nat) (service : Service)
    (max : option Z) (rolesets : option (list Roleset))
    : Stream Index.GroupMemberEntry :=
  let '(evs, e) := streamGroupMembers_events pagesLeft fuel service max rolesets in
  mkStream (yielded evs) e.

(** [getAllGroupMembers] *)
Definition getAllGroupMembers (pagesLeft fuel : nat) (service : Service)
    (max : option Z) : Promise (list Z) :=
  let entryStream := streamGroupMembers pagesLeft fuel service max None in
  match ending entryStream with
  | Exhausted => Resolved (Index.userId <$> yields entryStream)
  | Throws e => Rejected e
  | Stalls => NeverSettles
  end.

(** ** [processGroupSource]: the role files *)






End Groups.

(* ===================================================================== *)
(** * exp.ts *)
(* ===================================================================== *)

Module Exp.

(** The three objects the script fills.  [vD] and [vI] are keyed by the
    labels [DT] and keep the order in which the labels came up, which is the
    order [Object.entries] lists them in; [newV] is keyed by user id. *)
Record Tally : Type := mkTally {
  newV : gmap string Rotector.UserStatus;
  vD : list (string * nat);
  vI : list (string * list string)
}.

(** [`${flagTypeToString(fT)} (${fT})`] *)
Definition DT_of (fT : Rotector.UserFlagStatus) : string :=
  Rotector.flagTypeToString (Rotector.UserFlagStatus_value fT)
    +:+ " (" +:+ pretty (Rotector.UserFlagStatus_value fT) +:+ ")".

(** [if (!vD[DT]) vD[DT] = 1; else vD[DT] += 1] *)
Fixpoint count (DT : string) (vD : list (string * nat)) : list (string * nat) :=
  match vD with
  | [] => [(DT, 1%nat)]
  | (key, n) :: vD' =>
      if decide (key = DT)
      then (key, if decide (n = 0%nat) then 1%nat else S n) :: vD'
      else (key, n) :: count DT vD'
  end.

(** [if (!vI[DT]) vI[DT] = [id]; else vI[DT].push(id)]: an array is truthy,
    also when it is empty. *)
Fixpoint list_id (DT : string) (id : string) (vI : list (string * list string))
    : list (string * list string) :=
  match vI with
  | [] => [(DT, [id])]
  | (key, ids) :: vI' =>
      if decide (key = DT) then (key, ids ++ [id]) :: vI'
      else (key, ids) :: list_id DT id vI'
  end.

(** [Object.assign(newV, { [skidId]: skid })]: the computed key makes an own
    property of the source object, which [Object.assign] copies by the
    assignment [newV[skidId] = skid].  For the key ["__proto__"] that
    assignment runs the setter of [Object.prototype]: [skid] becomes the
    prototype of [newV] and no property is added; [JSON.stringify] writes
    own properties only, so the prototype does not show in the file. *)
Definition assign (skidId : string) (skid : Rotector.UserStatus)
    (newV : gmap string Rotector.UserStatus) : gmap string Rotector.UserStatus :=
  if decide (skidId = "__proto__") then newV else <[skidId := skid]> newV.

(** The body of [for (const [skidId, skid] of Object.entries(stuff))];
    [inl f] when [flagTypeToEnum] has thrown [Unknown flag type: f].
    [skid.id.toString()] is the decimal rendering of the id (ids stay below
    [10^21], from where on JavaScript prints an exponent). *)
Definition step (acc : Z + Tally) (entry : string * Rotector.UserStatus)
    : Z + Tally :=
  match acc with
  | inl f => inl f
  | inr t =>
      let '(skidId, skid) := entry in
      match Rotector.flagTypeToEnum (Rotector.flagType skid) with
      | inl f => inl f
      | inr fT =>
          let DT := DT_of fT in
          inr (mkTally
                 (if decide (Rotector.flagType skid = 0) then newV t
                  else assign skidId skid (newV t))
                 (count DT (vD t))
                 (list_id DT (pretty (Rotector.id skid)) (vI t)))
      end
  end.

(** The loop over [Object.entries(stuff)], given as the list of its
    entries in the order [Object.entries] lists them; the [console.log]
    calls and [writeFileSync] follow it. *)
Definition tally (stuff : list (string * Rotector.UserStatus)) : Z + Tally :=
  foldl step (inr (mkTally ∅ [] [])) stuff.

(** [b.join(sep)] *)
Fixpoint join (sep : string) (parts : list string) : string :=
  match parts with
  | [] => EmptyString
  | [part] => part
  | part :: parts' => part +:+ sep +:+ join sep parts'
  end.

(** The text of the second [console.log]. *)
Definition report (vI : list (string * list string)) : string :=
  join (String (Ascii.ascii_of_nat 10) EmptyString)
    ((fun entry => entry.1 +:+ " - " +:+ join ", " entry.2)
     <$> List.filter (fun entry => negb (String.eqb entry.1 "SAFE (0)")) vI).

(** What the script does: it throws, or prints [vD], prints the report and
    writes [newV] to [d/outputF.json]. *)
Inductive Outcome : Type :=
  | Threw (f : Z)
  | Wrote (printed_vD : list (string * nat)) (printed : string)
      (outputF : gmap string Rotector.UserStatus).

Definition script (stuff : list (string * Rotector.UserStatus)) : Outcome :=
  match tally stuff with
  | inl f => Threw f
  | inr t => Wrote (vD t) (report (vI t)) (newV t)
  end.

End Exp.

(* ===================================================================== *)
(** * Vocabulary of the statements *)
(* ===================================================================== *)

(** The backoff contract in the words of the design note: the delay is
    [min(maxDelay, baseDelay * 2^attempt)] and the first retry, numbered 1,
    waits exactly [baseDelay]. *)
Definition delay_as_specified (delay : Z -> Z) (baseDelay maxDelay : Z) : Prop :=
  (forall attempt, 0 <= attempt ->
     delay attempt = Z.min maxDelay (baseDelay * 2 ^ attempt))
  /\ delay 1 = baseDelay.

(** A response that [checkMultipleUsers] counts as a failure: [fetch] threw,
    or the status is neither a success nor 429. *)
Definition transient (fetched : Rotector.FetchResult) : bool :=
  match fetched with
  | Rotector.FetchThrows _ => true
  | Rotector.FetchResolves response =>
      negb (Rotector.ok response) && negb (Rotector.status response =? 429)
  end.

(** An explicit rate-limit response. *)
Definition rate_limited (fetched : Rotector.FetchResult) : bool :=
  match fetched with
  | Rotector.FetchThrows _ => false
  | Rotector.FetchResolves response => Rotector.status response =? 429
  end.

(** A success envelope that carries the error flag (or no data). *)
Definition logical_failure (fetched : Rotector.FetchResult) : bool :=
  match fetched with
  | Rotector.FetchThrows _ => false
  | Rotector.FetchResolves response =>
      Rotector.ok response &&
      match Rotector.json response with
      | Some result =>
          negb (Rotector.success result) || negb (bool_decide (is_Some (Rotector.data result)))
      | None => false
      end
  end.

(** The cooldown [checkMultipleUsers] asks of the gate on a 429 response. *)
Definition cooldown_of (fetched : Rotector.FetchResult) : Z :=
  match fetched with
  | Rotector.FetchThrows _ => 0
  | Rotector.FetchResolves response => Rotector.retryAfter response * 1000 + 2500
  end.

(** Example services.  [answering flag] returns a status with that flag for
    every id asked; [silent] answers with an empty record; [unreachable]
    makes every [fetch] throw; [limiting] answers 429 with no hint;
    [flagged_failure] answers with a success status and the error flag. *)
Definition answer (flag : Z) (userId : Z) : Rotector.UserStatus :=
  Rotector.mkUserStatus userId flag None None None.

Definition answering (flag : Z) : Rotector.Server :=
  fun userIds _ =>
    Rotector.FetchResolves
      (Rotector.mkResponse 200 None
        (Some (Rotector.mkBatchApiResponse true
          (Some (list_to_map ((fun i => (i, answer flag i)) <$> userIds))) None))).

Definition silent : Rotector.Server :=
  fun _ _ =>
    Rotector.FetchResolves
      (Rotector.mkResponse 200 None
        (Some (Rotector.mkBatchApiResponse true (Some ∅) None))).

Definition unreachable : Rotector.Server :=
  fun _ _ => Rotector.FetchThrows "ECONNREFUSED".

Definition limiting : Rotector.Server :=
  fun _ _ => Rotector.FetchResolves (Rotector.mkResponse 429 None None).

Definition flagged_failure : Rotector.Server :=
  fun _ _ =>
    Rotector.FetchResolves
      (Rotector.mkResponse 200 None
        (Some (Rotector.mkBatchApiResponse false None (Some "internal error")))).

(** A world in which every lookup meets the same service, batches completing
    in the order they were started. *)
Definition world_of (fuel : nat) (service : nat -> Rotector.Server) : Index.World :=
  Index.mkWorld fuel (fun n => Rotector.mkEnv (fun _ => service n) (fun i => i)).

(** How the calls of [checkMultipleUsers] of one [checkLotsOfUsers(ids)] end,
    batch by batch. *)
Definition batch_outcomes (fuel : nat) (env : Rotector.Env) (ids : list Z)
    : list Rotector.Outcome :=
  imap (fun i batch =>
          (Rotector.checkMultipleUsers fuel (Rotector.server env i) batch).1)
       (Rotector.batches ids).

Definition still_looping (o : Rotector.Outcome) : bool :=
  match o with Rotector.Looping _ => true | _ => false end.

(** The line [writeStatus] appends for a status. *)
Definition line_of (label : string) (status : Rotector.UserStatus) : Index.Line :=
  Index.mkLine label (Rotector.id status) (Rotector.flagType status)
    (Rotector.flagTypeToString (Rotector.flagType status)) status.

(** The lines and the warnings of the [for (const id of chunk)] loop. *)
Definition lines_for (label : string) (results : gmap Z Rotector.UserStatus)
    (chunk : list Z) : list Index.Line :=
  omap (fun userId => line_of label <$> results !! userId) chunk.

Definition missing_from (results : gmap Z Rotector.UserStatus) (chunk : list Z)
    : list Z :=
  omap (fun userId => match results !! userId with
                      | Some _ => None
                      | None => Some userId
                      end) chunk.

(** All ids a call of [processEntries] has handed to the Verification
    Client. *)
Definition submitted_ids (l : Index.Locals) : list Z := concat (Index.submitted l).

(** The ids a call of [processEntries] has taken up for lookup, in order:
    those submitted, then those still in the buffer. *)
Definition queue (l : Index.Locals) : list Z :=
  submitted_ids l ++ Index.pendingLookup l.

(** What holds of the locals of [processEntries] between two entries, for a
    call that started with the module state [r0]. *)
Record consistent (r0 r : Index.Run) (l : Index.Locals) : Prop := mkConsistent {
  c_nodup : NoDup (submitted_ids l ++ Index.pendingLookup l);
  c_seen : forall x, x ∈ submitted_ids l ++ Index.pendingLookup l -> x ∈ Index.seenIds l;
  c_uncached_at_start :
    forall x, x ∈ submitted_ids l ++ Index.pendingLookup l ->
              Index.statusCache r0 !! x = None;
  c_pending_uncached :
    forall x, x ∈ Index.pendingLookup l -> Index.statusCache r !! x = None;
  c_cache_grows :
    forall x, is_Some (Index.statusCache r0 !! x) -> is_Some (Index.statusCache r !! x)
}.

Definition locals_of (x : Index.Exec) : Index.Locals :=
  match x with Index.At _ _ l => l end.

Definition run_of (x : Index.Exec) : Index.Run :=
  match x with Index.At _ r _ => r end.

Definition control_of (x : Index.Exec) : Index.Control :=
  match x with Index.At c _ _ => c end.

(** A verifier that returns a status for every id it is asked about. *)
Definition answers_every_id (w : Index.World) : Prop :=
  forall n chunk results,
    Rotector.checkLotsOfUsers (Index.fuel w) (Index.rotector w n) chunk
    = Resolved results ->
    forall x, x ∈ chunk -> is_Some (results !! x).

(** A verifier that returns statuses only for ids it was asked about. *)
Definition answers_only_asked (w : Index.World) : Prop :=
  forall n chunk results,
    Rotector.checkLotsOfUsers (Index.fuel w) (Index.rotector w n) chunk
    = Resolved results ->
    forall x, is_Some (results !! x) -> x ∈ chunk.

(** A verifier that has no entry for user 42 when it is asked about 42, and
    adds an entry for 42 to every answer to a request that does not ask for
    it. *)
Definition volunteering : Rotector.Server :=
  fun userIds _ =>
    let told :=
      if decide (42 ∈ userIds) then List.filter (fun i => negb (i =? 42)) userIds
      else 42 :: userIds in
    Rotector.FetchResolves
      (Rotector.mkResponse 200 None
        (Some (Rotector.mkBatchApiResponse true
          (Some (list_to_map ((fun i => (i, answer 0 i)) <$> told))) None))).

(** [n] consecutive user ids from [first] on. *)
Definition ids_from (first : Z) (n : nat) : list Z :=
  (fun k => first + Z.of_nat k) <$> seq 0 n.

(** The error [checkMultipleUsers] throws when a failure exceeds the
    ceiling. *)
Definition error_of (fetched : Rotector.FetchResult) : Error :=
  match fetched with
  | Rotector.FetchThrows message => NetworkError message
  | Rotector.FetchResolves response => HttpError (Rotector.status response)
  end.

(** The verifier of a run whose first lookup cannot reach the service and
    whose later lookups are answered. *)
Definition down_at_first (flag : Z) (n : nat) : Rotector.Server :=
  match n with
  | O => unreachable
  | S _ => answering flag
  end.

(** Between two entries: only full batches have been submitted, the buffer
    is not full, and [newlyChecked] counts the submitted ids. *)
Definition streaming (r : Index.Run) (l : Index.Locals) : Prop :=
  Forall (fun b => length b = 50%nat) (Index.submitted l)
  /\ (length (Index.pendingLookup l) < 50)%nat
  /\ Index.newlyChecked l = length (submitted_ids l).

(** Whether the gate is halted. *)
Definition halted (s : Rotector.System) : bool :=
  match Rotector.global429Lock s with Some _ => true | None => false end.

(** The log of a system is in order: no request was made, and no second
    sleep started, while the gate was halted. *)
Definition gate_respected (s : Rotector.System) : Prop :=
  Rotector.gate_log (Rotector.log s) = Some (halted s).

(** A call that observes a rate limit: the task, the time its [fetch]
    settles, and the 429 response. *)
Definition Observation : Type := nat * Z * Rotector.Response.

Definition observer (o : Observation) : nat := o.1.1.

Definition observed (o : Observation) : Z * Rotector.Event :=
  (o.1.2, Rotector.Settles o.1.1 (Rotector.FetchResolves o.2)).

(** A friends service with two pages: friends 42 and 43, then, at the cursor
    "c1", friend 44. *)
Definition two_pages : UsersScraper.Pages :=
  fun cursor _ =>
    match cursor with
    | None =>
        UsersScraper.FetchResolves 200
          (Some (UsersScraper.mkFriendResponse None
                   [UsersScraper.mkPageItem 42 false; UsersScraper.mkPageItem 43 true]
                   (Some "c1")))
    | Some _ =>
        UsersScraper.FetchResolves 200
          (Some (UsersScraper.mkFriendResponse None
                   [UsersScraper.mkPageItem 44 false] None))
    end.

(** The counters of [processEntries] agree with what the call has done:
    [uniqueUsers] counts the ids seen, each of which has a line in the sink,
    a warning, or a place in the buffer; the flag breakdown sums to the
    number of lines; [unsafeMatches] counts the lines whose flag is not 0. *)
Record accounted (l : Index.Locals) : Prop := mkAccounted {
  a_unique : Index.uniqueUsers l = size (Index.seenIds l);
  a_split :
    Index.uniqueUsers l
    = (length (Index.rotectorWriter l) + length (Index.warnings l)
       + length (Index.pendingLookup l))%nat;
  a_matched :
    Index.getMatchedUsers (Index.flagBreakdown l) = length (Index.rotectorWriter l);
  a_unsafe :
    Index.unsafeMatches l
    = length (filter (fun line => Index.user_flagType line <> 0)
                (Index.rotectorWriter l));
  a_collected : (Index.uniqueUsers l <= Index.totalCollected l)%nat
}.

(** The user ids a target's stream delivers. *)
Definition ids_of (t : Index.Target) : list Z :=
  match t with
  | Index.Friends _ entryStream => yields entryStream
  | Index.Group _ entryStream => Index.userId <$> yields entryStream
  end.

(** The backoff sleeps among the waits of a call. *)
Definition slept (ws : list Rotector.Wait) : list Z :=
  omap (fun wait => match wait with
                    | Rotector.Slept waitMs => Some waitMs
                    | Rotector.Halted _ => None
                    end) ws.

(** The errors [checkMultipleUsers] throws when the failure counter exceeds
    the ceiling. *)
Definition retries_exhausted (e : Error) : bool :=
  match e with
  | NetworkError _ | HttpError _ => true
  | ServiceError _ | JsonError => false
  end.

(** An answer to a page request that [fetchFriendsPage] counts as a failed
    attempt, the error it throws when that attempt was the last, and what
    the call settles with on any other answer. *)
Definition page_failing (fetched : UsersScraper.FetchResult) : bool :=
  match fetched with
  | UsersScraper.FetchThrows _ => true
  | UsersScraper.FetchResolves status _ => negb (UsersScraper.ok status)
  end.

Definition page_error (fetched : UsersScraper.FetchResult) : Error :=
  match fetched with
  | UsersScraper.FetchThrows message => NetworkError message
  | UsersScraper.FetchResolves status _ => HttpError status
  end.

Definition page_answer (fetched : UsersScraper.FetchResult)
    : Promise UsersScraper.FriendResponse :=
  match fetched with
  | UsersScraper.FetchResolves _ (Some page) => Resolved page
  | UsersScraper.FetchResolves _ None => Rejected JsonError
  | UsersScraper.FetchThrows message => Rejected (NetworkError message)
  end.

(** The cursors of the pages a friends stream asked for, in order, and the
    ids of the page at a cursor. *)
Definition requested (evs : list UsersScraper.Event) : list (option string) :=
  omap (fun ev => match ev with
                  | UsersScraper.FetchPage cursor => Some cursor
                  | UsersScraper.Yield _ => None
                  end) evs.

Definition page_ids (fuel : nat) (pages : UsersScraper.Pages)
    (cursor : option string) : list Z :=
  match (UsersScraper.fetchFriendsPage fuel pages cursor).1 with
  | Resolved page => UsersScraper.id <$> UsersScraper.PageItems page
  | _ => []
  end.

(** An answer that [fetchJSON] counts as a failed attempt, the error it
    throws when that attempt was the last, what the call settles with on any
    other answer, and the wait after the failed attempt number [k] (from 0):
    the seconds of the [Retry-After] header of a 429, none when a 429 has no
    such header, and the backoff otherwise. *)
Definition json_failing {A} (fetched : Groups.FetchResult A) : bool :=
  match fetched with
  | Groups.FetchThrows _ => true
  | Groups.FetchResolves status _ _ => negb (Groups.ok status)
  end.

Definition json_error {A} (fetched : Groups.FetchResult A) : Error :=
  match fetched with
  | Groups.FetchThrows message => NetworkError message
  | Groups.FetchResolves status _ _ => HttpError status
  end.

Definition json_answer {A} (fetched : Groups.FetchResult A) : Promise A :=
  match fetched with
  | Groups.FetchResolves _ _ (Some json) => Resolved json
  | Groups.FetchResolves _ _ None => Rejected JsonError
  | Groups.FetchThrows message => Rejected (NetworkError message)
  end.

Definition retry_wait {A} (k : nat) (fetched : Groups.FetchResult A) : Z :=
  match fetched with
  | Groups.FetchResolves 429 (Groups.Seconds seconds) _ => seconds * 1000
  | Groups.FetchResolves 429 Groups.Missing _ => 0
  | _ => default 0 ([2000; 4000; 8000; 16000] !! k)
  end.

(** A group with a guest role of rank 0 and two roles with members: role 11
    has the members 101 and 102 on its first page and 103 on the page at
    "p2"; role 12 has the member 200. *)
Definition small_group : Groups.Service :=
  Groups.mkService
    (fun _ =>
       Groups.FetchResolves 200 Groups.Missing
         (Some (Groups.mkRolesetInfo 5
                  [Groups.mkRoleset 10 "Guest" 0 0;
                   Groups.mkRoleset 11 "Member" 1 3;
                   Groups.mkRoleset 12 "Owner" 255 1])))
    (fun rolesetId cursor _ =>
       let member i := Groups.mkMember false i "user" "User" in
       Groups.FetchResolves 200 Groups.Missing
         (Some (if rolesetId =? 11 then
                  match cursor with
                  | None => Groups.mkGroupMembersResponse None (Some "p2")
                              [member 101; member 102]
                  | Some _ => Groups.mkGroupMembersResponse (Some "p1") None [member 103]
                  end
                else if rolesetId =? 12 then
                  Groups.mkGroupMembersResponse None None [member 200]
                else Groups.mkGroupMembersResponse None None []))).

(** Options [parseArgs] lets through: every friend id and every group id is
    a non-empty string of decimal digits, and every cap is positive. *)
Definition valid_options (opts : Index.CliOptions) : Prop :=
  Forall (fun friendId => Index.digits_only friendId = true) (Index.friendIds opts)
  /\ Forall (fun group =>
               Index.digits_only (Index.group_id group) = true
               /\ forall cap, Index.cap group = Some cap -> 0 < cap)
            (Index.groups opts).

(** The options of two command lines, one after the other. *)
Definition options_app (first second : Index.CliOptions) : Index.CliOptions :=
  Index.mkCliOptions
    (Index.friendIds first ++ Index.friendIds second)
    (Index.groups first ++ Index.groups second)
    (if decide (Index.outputDir second = EmptyString) then Index.outputDir first
     else Index.outputDir second)
    (Index.verbose first || Index.verbose second).

(** A stand-in for [Number] in the examples: the double nearest to the
    value of a string of decimal digits, NaN for any other string. *)
Definition decimal (s : string) : option Z :=
  if Index.digits_only s then Some (UsersScraper.Number s) else None.

(** The standard output stands at the start of a line: nothing was written,
    or the last character written is a line feed. *)
Definition at_line_start (out : string) : Prop :=
  out = EmptyString \/ exists before, out = before +:+ Index.LF.

#[global] Instance UserFlagStatus_eq_dec : EqDecision Rotector.UserFlagStatus.
Proof. solve_decision. Defined.

(** The value an object that keeps its keys in order has at a key. *)
Fixpoint assoc {A} (key : string) (object : list (string * A)) : option A :=
  match object with
  | [] => None
  | (k, v) :: object' => if decide (k = key) then Some v else assoc key object'
  end.

(** The entries of an export whose flag is that of an enum member. *)
Definition flagged (fT : Rotector.UserFlagStatus)
    (stuff : list (string * Rotector.UserStatus)) : list (string * Rotector.UserStatus) :=
  filter (fun entry => Rotector.flagType entry.2 = Rotector.UserFlagStatus_value fT) stuff.


(** The [rotector] file of a source holds the cached status of every id the
    source has seen: what a cache hit has to find there. *)
Definition cached_written (label : string) (r : Index.Run) (l : Index.Locals) : Prop :=
  forall x status,
    x ∈ Index.seenIds l -> Index.statusCache r !! x = Some status ->
    line_of label status ∈ Index.rotectorWriter l.

(** Every lookup of the run settles: no call of [checkLotsOfUsers] is left
    waiting, as it is under a persistent 429. *)
Definition lookups_settle (w : Index.World) : Prop :=
  forall n chunk,
    Rotector.checkLotsOfUsers (Index.fuel w) (Index.rotector w n) chunk <> NeverSettles.

(** A friends service that answers every request with a 500. *)
Definition pages_down : UsersScraper.Pages :=
  fun _ _ => UsersScraper.FetchResolves 500 None.

(** A friends service with the 119 friends 1001 to 1119 on three pages of at
    most 50, whose fourth page answers every request with a 500. *)
Definition fourth_page_down : UsersScraper.Pages :=
  fun cursor _ =>
    let page first n next :=
      UsersScraper.FetchResolves 200
        (Some (UsersScraper.mkFriendResponse None
                 ((fun i => UsersScraper.mkPageItem i false) <$> ids_from first n)
                 (Some next))) in
    match cursor with
    | None => page 1001 50%nat "p2"
    | Some "p2" => page 1051 50%nat "p3"
    | Some "p3" => page 1101 19%nat "p4"
    | Some _ => UsersScraper.FetchResolves 500 None
    end.

(* ===================================================================== *)
(** * Backoff *)
(* ===================================================================== *)

Lemma retryDelayMs_table :
  Rotector.retryDelayMs <$> [1; 2; 3; 4; 5; 6]
  = [1000; 2000; 4000; 8000; 16000; 30000].
Proof. reflexivity. Qed.

Lemma retryDelayMs_capped attempt :
  6 <= attempt -> Rotector.retryDelayMs attempt = Rotector.MAX_RETRY_DELAY_MS.
Proof.
  intros H. unfold Rotector.retryDelayMs, Rotector.MAX_RETRY_DELAY_MS,
    Rotector.BASE_RETRY_DELAY_MS.
  assert (2 ^ 5 <= 2 ^ (attempt - 1)) by (apply Z.pow_le_mono_r; lia).
  change (2 ^ 5) with 32 in *. lia.
Qed.

Lemma retryDelayMs_bounds attempt :
  1 <= attempt ->
  Rotector.BASE_RETRY_DELAY_MS <= Rotector.retryDelayMs attempt
                               <= Rotector.MAX_RETRY_DELAY_MS.
Proof.
  intros H. unfold Rotector.retryDelayMs, Rotector.MAX_RETRY_DELAY_MS,
    Rotector.BASE_RETRY_DELAY_MS.
  assert (2 ^ 0 <= 2 ^ (attempt - 1)) by (apply Z.pow_le_mono_r; lia).
  change (2 ^ 0) with 1 in *. lia.
Qed.

Lemma backoffMs_shift attempt :
  0 <= attempt ->
  UsersScraper.backoffMs attempt = Rotector.retryDelayMs (attempt + 1).
Proof.
  intros _. unfold UsersScraper.backoffMs, Rotector.retryDelayMs.
  by replace (attempt + 1 - 1) with attempt by lia.
Qed.

Lemma first_failure_sleeps fetched :
  transient fetched = true ->
  Rotector.loop_body 0 fetched
  = Rotector.SleepThenRetry 1 Rotector.BASE_RETRY_DELAY_MS.
Proof.
  destruct fetched as [m|response]; simpl; [done|].
  intros [Hok H429]%andb_true_iff.
  apply negb_true_iff in Hok, H429. by rewrite Hok, H429.
Qed.

(** C6, as stated, fails: none of the three backoff functions computes
    [min(maxDelay, baseDelay * 2^attempt)] and also waits [baseDelay] at
    attempt 1. *)
Lemma backoff_as_specified_fails :
  ~ delay_as_specified Rotector.retryDelayMs
      Rotector.BASE_RETRY_DELAY_MS Rotector.MAX_RETRY_DELAY_MS
  /\ ~ delay_as_specified UsersScraper.backoffMs
      UsersScraper.BASE_RETRY_DELAY_MS UsersScraper.MAX_RETRY_DELAY_MS
  /\ ~ delay_as_specified GroupsScraper.backoffMs
      GroupsScraper.BASE_RETRY_DELAY_MS GroupsScraper.MAX_RETRY_DELAY_MS.
Proof.
  split; [|split].
  - intros [Hformula _]. specialize (Hformula 1 ltac:(lia)). discriminate.
  - intros [_ Hfirst]. discriminate.
  - intros [_ Hfirst]. discriminate.
Qed.

(** C6, amended: the Verification Client's [retryDelayMs] is
    [min(30000, 1000 * 2^(attempt-1))], so its first retry (attempt 1, the
    value of [consecutiveFailures] after the first failure) waits exactly the
    base delay; the scrapers' [backoffMs] is [min(30000, 1000 * 2^attempt)],
    one doubling ahead, so their first retry (attempt 1) waits twice the base
    delay.  Both stay between the base delay and the cap. *)
Theorem backoff_policy :
  (forall attempt, 1 <= attempt ->
     Rotector.retryDelayMs attempt = Z.min 30000 (1000 * 2 ^ (attempt - 1))
     /\ 1000 <= Rotector.retryDelayMs attempt <= 30000
     /\ Rotector.retryDelayMs (attempt + 1)
        = Z.min 30000 (2 * Rotector.retryDelayMs attempt))
  /\ Rotector.retryDelayMs 1 = Rotector.BASE_RETRY_DELAY_MS
  /\ (forall fetched, transient fetched = true ->
        Rotector.loop_body 0 fetched
        = Rotector.SleepThenRetry 1 Rotector.BASE_RETRY_DELAY_MS)
  /\ (forall attempt, 0 <= attempt ->
        UsersScraper.backoffMs attempt = Z.min 30000 (1000 * 2 ^ attempt)
        /\ GroupsScraper.backoffMs attempt = UsersScraper.backoffMs attempt
        /\ UsersScraper.backoffMs attempt = Rotector.retryDelayMs (attempt + 1))
  /\ UsersScraper.backoffMs 1 = 2 * UsersScraper.BASE_RETRY_DELAY_MS
  /\ (forall pages cursor message,
        pages cursor 0%nat = UsersScraper.FetchThrows message ->
        forall fuel, head (UsersScraper.fetchFriendsPage (S fuel) pages cursor).2
                     = Some (2 * UsersScraper.BASE_RETRY_DELAY_MS)).
Proof.
  split; [|split; [|split; [|split; [|split]]]].
  - intros attempt H. split; [done|]. split.
    + apply retryDelayMs_bounds; lia.
    + unfold Rotector.retryDelayMs, Rotector.MAX_RETRY_DELAY_MS,
        Rotector.BASE_RETRY_DELAY_MS.
      replace (attempt + 1 - 1) with (Z.succ (attempt - 1)) by lia.
      rewrite Z.pow_succ_r by lia. lia.
  - reflexivity.
  - apply first_failure_sleeps.
  - intros attempt H. split; [done|]. split; [done|]. by apply backoffMs_shift.
  - reflexivity.
  - intros pages cursor message Hfirst fuel.
    unfold UsersScraper.fetchFriendsPage. simpl. rewrite Hfirst. simpl.
    by destruct (UsersScraper.fetchFriendsPage_loop fuel _ _).
Qed.

(* ===================================================================== *)
(** * Flag labels *)
(* ===================================================================== *)

Lemma flagTypeToEnum_out_of_range f :
  f < 0 \/ 6 < f -> Rotector.flagTypeToEnum f = inl f.
Proof.
  intros H. destruct f as [|p|p]; [lia| |done].
  do 3 (destruct p as [p|p|]; try lia; try reflexivity).
Qed.

Lemma flagTypeToString_out_of_range f :
  f < 0 \/ 6 < f -> Rotector.flagTypeToString f = "UNKNOWN".
Proof.
  intros H. unfold Rotector.flagTypeToString, Rotector.in_UserFlagStatus.
  destruct (0 <=? f) eqn:H0, (f <=? 6) eqn:H6; simpl; try done; lia.
Qed.

Lemma flagTypeToEnum_value s :
  Rotector.flagTypeToEnum (Rotector.UserFlagStatus_value s) = inr s
  /\ Rotector.flagTypeToString (Rotector.UserFlagStatus_value s)
     = Rotector.UserFlagStatus_name s
  /\ Rotector.UserFlagStatus_name s <> "UNKNOWN".
Proof. by destruct s. Qed.

(** C8, as stated, fails: for the flag level 7 the strict parser
    [flagTypeToEnum] does raise, but the pipeline classifies through
    [flagTypeToString]; a run whose verifier answers flag 7 for user 42 ends
    normally with a line for 42 under the placeholder label (the source is
    the friends list of user 42, who has no friends). *)
Lemma unknown_flag_is_labelled :
  Rotector.flagTypeToEnum 7 = inl 7
  /\ Rotector.flagTypeToString 7 = "UNKNOWN"
  /\ (Index.main (world_of 1 (fun _ => answering 7))
        [("42", mkStream [42] Exhausted)] []).1.2 = Index.Live
  /\ Index.rotectorWriter <$>
       (Index.main (world_of 1 (fun _ => answering 7))
          [("42", mkStream [42] Exhausted)] []).1.1
     = [[Index.mkLine "friends:42" 42 7 "UNKNOWN" (answer 7 42)]].
Proof. repeat split; vm_compute; reflexivity. Qed.

(** C8, amended: for a flag level outside 0..6 the strict parser
    [flagTypeToEnum] raises; [flagTypeToString], through which the pipeline's
    [writeStatus] classifies, returns the placeholder label "UNKNOWN", and
    [writeStatus] appends the line under that label, counts it in the flag
    breakdown and as an unsafe match, and does not raise. *)
Theorem out_of_range_flag (f : Z) (Hout : f < 0 \/ 6 < f) :
  Rotector.flagTypeToEnum f = inl f
  /\ Rotector.flagTypeToString f = "UNKNOWN"
  /\ forall label status l,
       Rotector.flagType status = f ->
       let l' := Index.writeStatus label status l in
       Index.rotectorWriter l'
       = Index.rotectorWriter l
         ++ [Index.mkLine label (Rotector.id status) f "UNKNOWN" status]
       /\ Index.flagBreakdown l' !! "UNKNOWN"
          = Some (S (default 0%nat (Index.flagBreakdown l !! "UNKNOWN")))
       /\ Index.unsafeMatches l' = S (Index.unsafeMatches l).
Proof.
  split; [by apply flagTypeToEnum_out_of_range|].
  split; [by apply flagTypeToString_out_of_range|].
  intros label status l Hf. simpl.
  rewrite Hf, (flagTypeToString_out_of_range f Hout).
  split; [done|]. split; [by rewrite lookup_insert_eq|].
  destruct (decide (f = 0)); [lia|done].
Qed.

Lemma out_of_range_flag_witness :
  Rotector.flagTypeToEnum 7 = inl 7 /\ Rotector.flagTypeToString 7 = "UNKNOWN".
Proof.
  pose proof (out_of_range_flag 7 (or_intror eq_refl)) as (H1 & H2 & _).
  exact (conj H1 H2).
Defined.

(* ===================================================================== *)
(** * The retry loop of [checkMultipleUsers] *)
(* ===================================================================== *)

Lemma status_429_not_ok response :
  Rotector.status response = 429 -> Rotector.ok response = false.
Proof. intros H. unfold Rotector.ok. rewrite H. reflexivity. Qed.

Lemma loop_body_rate_limited f fetched :
  rate_limited fetched = true ->
  Rotector.loop_body f fetched = Rotector.HaltThenRetry 0 (cooldown_of fetched).
Proof.
  destruct fetched as [m|response]; simpl; [done|].
  intros H%Z.eqb_eq. by rewrite (status_429_not_ok _ H), H.
Qed.

Lemma loop_unfold_rate_limited fuel net request f :
  rate_limited (net request) = true ->
  Rotector.checkMultipleUsers_loop (S fuel) net request f
  = ((Rotector.checkMultipleUsers_loop fuel net (S request) 0).1,
     Rotector.Halted (cooldown_of (net request))
       :: (Rotector.checkMultipleUsers_loop fuel net (S request) 0).2).
Proof.
  intros H. simpl. rewrite (loop_body_rate_limited _ _ H).
  by destruct (Rotector.checkMultipleUsers_loop fuel net (S request) 0).
Qed.

(** Under a persistent rate limit the call only ever waits at the gate. *)
Lemma loop_rate_limited_forever fuel : forall net request f,
  (forall k, (request <= k)%nat -> rate_limited (net k) = true) ->
  Rotector.checkMultipleUsers_loop fuel net request f
  = (Rotector.Looping (match fuel with O => f | S _ => 0 end),
     (fun k => Rotector.Halted (cooldown_of (net k))) <$> seq request fuel).
Proof.
  induction fuel as [|fuel IH]; intros net request f Hall; [done|].
  rewrite loop_unfold_rate_limited by (apply Hall; lia).
  rewrite (IH net (S request) 0) by (intros k Hk; apply Hall; lia).
  simpl. by destruct fuel.
Qed.




(* ===================================================================== *)
(** * Batches *)
(* ===================================================================== *)

Lemma elem_of_concat {A} (ls : list (list A)) x :
  x ∈ concat ls <-> exists l, l ∈ ls /\ x ∈ l.
Proof.
  induction ls as [|l ls IH]; simpl.
  - split; [by intros H%elem_of_nil|]. by intros (l & Hl%elem_of_nil & _).
  - rewrite elem_of_app, IH. split.
    + intros [Hx|(l' & Hl' & Hx)]; [exists l|exists l']; split; try done.
      * by left.
      * by right.
    + intros (l' & [->|Hl']%elem_of_cons & Hx); [by left|].
      right. by exists l'.
Qed.

Lemma batches_loop_lookup fuel : forall ids i k,
  Rotector.batches_loop fuel ids i !! k
  = if decide (k < fuel /\ i + k * Rotector.BATCH_SIZE < length ids)%nat
    then Some (Rotector.slice ids (i + k * Rotector.BATCH_SIZE)
                 (i + k * Rotector.BATCH_SIZE + Rotector.BATCH_SIZE))
    else None.
Proof.
  unfold Rotector.BATCH_SIZE.
  induction fuel as [|fuel IH]; intros ids i k; cbn [Rotector.batches_loop].
  { rewrite lookup_nil. case_decide; [lia|done]. }
  destruct (decide (i < length ids)%nat) as [Hi|Hi].
  - destruct k as [|k].
    + case_decide; [|lia]. simpl. unfold Rotector.BATCH_SIZE. do 2 f_equal; lia.
    + rewrite lookup_cons, IH. unfold Rotector.BATCH_SIZE.
      repeat case_decide; try lia; [|done]. do 2 f_equal; lia.
  - rewrite lookup_nil. case_decide; [lia|done].
Qed.

Lemma batches_lookup ids k :
  Rotector.batches ids !! k
  = if decide (k * 50 < length ids)%nat
    then Some (Rotector.slice ids (k * 50) (k * 50 + 50))
    else None.
Proof.
  unfold Rotector.batches. rewrite batches_loop_lookup.
  unfold Rotector.BATCH_SIZE. rewrite !Nat.add_0_l.
  repeat case_decide; try lia; done.
Qed.

Lemma batches_length ids :
  length (Rotector.batches ids) = ((length ids + 49) / 50)%nat.
Proof.
  set (L := length (Rotector.batches ids)).
  assert (Hin : forall k, (k < L)%nat <-> (k * 50 < length ids)%nat).
  { intros k. unfold L. rewrite <- lookup_lt_is_Some, batches_lookup.
    case_decide; split; intros H'; try done; by destruct H'. }
  assert (H1 : (length ids <= L * 50)%nat).
  { destruct (decide (L * 50 < length ids)%nat) as [H|H]; [|lia].
    apply Hin in H. lia. }
  assert (H2 : (L = 0 \/ (L - 1) * 50 < length ids)%nat).
  { destruct L as [|L']; [by left|right]. apply Hin. lia. }
  clearbody L.
  apply Nat.div_unique with (r := (length ids + 49 - 50 * L)%nat); lia.
Qed.

Lemma batches_loop_concat fuel : forall ids i,
  (length ids - i <= fuel)%nat ->
  concat (Rotector.batches_loop fuel ids i) = drop i ids.
Proof.
  induction fuel as [|fuel IH]; intros ids i Hfuel; simpl.
  { rewrite drop_ge by lia. done. }
  destruct (decide (i < length ids)%nat) as [Hi|Hi].
  - simpl. rewrite IH by (unfold Rotector.BATCH_SIZE; lia).
    unfold Rotector.slice.
    replace (i + Rotector.BATCH_SIZE - i)%nat with Rotector.BATCH_SIZE by lia.
    rewrite <- drop_drop. apply take_drop.
  - rewrite drop_ge by lia. done.
Qed.

(** The loop leaves through its condition, not for lack of fuel: more fuel
    than [length ids] changes nothing. *)
Lemma batches_loop_fuel ids fuel :
  (length ids <= fuel)%nat ->
  Rotector.batches_loop fuel ids 0 = Rotector.batches ids.
Proof.
  intros H. apply list_eq. intros k. unfold Rotector.batches.
  rewrite !batches_loop_lookup. unfold Rotector.BATCH_SIZE.
  repeat case_decide; try lia; done.
Qed.

Lemma batches_concat ids : concat (Rotector.batches ids) = ids.
Proof. unfold Rotector.batches. by rewrite batches_loop_concat by lia. Qed.

Lemma slice_length {A} (l : list A) a b :
  length (Rotector.slice l a b) = (Nat.min (b - a) (length l - a))%nat.
Proof. unfold Rotector.slice. by rewrite length_take, length_drop. Qed.

Lemma batches_nil : Rotector.batches [] = [].
Proof. reflexivity. Qed.

(** A chunk of at most [BATCH_SIZE] ids is a single batch. *)
Lemma batches_single chunk :
  (0 < length chunk <= 50)%nat -> Rotector.batches chunk = [chunk].
Proof.
  intros H. apply list_eq. intros [|k]; rewrite batches_lookup.
  - case_decide; [|lia]. unfold Rotector.slice.
    rewrite drop_0, take_ge by lia. done.
  - case_decide; [lia|done].
Qed.

(** The sizes: every batch but the last is full, the last holds the rest. *)
Lemma batches_sizes ids k batch :
  Rotector.batches ids !! k = Some batch ->
  batch = Rotector.slice ids (k * 50) (k * 50 + 50)
  /\ ((S k < length (Rotector.batches ids))%nat -> length batch = 50%nat)
  /\ (S k = length (Rotector.batches ids) ->
      length batch = if decide (length ids mod 50 = 0)%nat then 50%nat
                     else (length ids mod 50)%nat).
Proof.
  rewrite batches_lookup, batches_length.
  destruct (decide (k * 50 < length ids)%nat) as [Hk|]; [|done].
  intros [= <-]. split; [done|]. rewrite slice_length.
  split; intros HL.
  - assert (S k * 50 <= length ids + 49 - 49)%nat; [|lia].
    assert (S k <= (length ids + 49) / 50 - 1)%nat as Hle by lia.
    pose proof (Nat.Div0.mul_div_le (length ids + 49) 50).
    nia.
  - pose proof (Nat.div_mod_eq (length ids) 50).
    pose proof (Nat.div_mod_eq (length ids + 49) 50).
    pose proof (Nat.mod_upper_bound (length ids) 50 ltac:(lia)).
    pose proof (Nat.mod_upper_bound (length ids + 49) 50 ltac:(lia)).
    destruct (decide (length ids mod 50 = 0)%nat); nia.
Qed.

(* ===================================================================== *)
(** * [checkLotsOfUsers] *)
(* ===================================================================== *)

Lemma Promise_all_not_rejected {A} (ps : list (Promise A)) :
  (forall p e, p ∈ ps -> p <> Rejected e) ->
  forall e, Rotector.Promise_all ps <> Rejected e.
Proof.
  induction ps as [|p ps IH]; intros Hps e; [done|]. simpl.
  assert (forall e', Rotector.Promise_all ps <> Rejected e') as Hrec.
  { apply IH. intros q e' Hq. apply Hps. by right. }
  pose proof (fun e' => Hps p e' ltac:(left)) as Hp.
  destruct p as [v|e'|]; [|by destruct (Hp e')|];
    destruct (Rotector.Promise_all ps) as [vs|e'|]; try done; by destruct (Hrec e').
Qed.

Lemma Promise_all_resolved {A} (ps : list (Promise A)) vs :
  Rotector.Promise_all ps = Resolved vs <-> ps = Resolved <$> vs.
Proof.
  revert vs. induction ps as [|p ps IH]; intros vs; simpl.
  { split; [intros [= <-]; done|]. by destruct vs. }
  split.
  - destruct p as [v|e|]; destruct (Rotector.Promise_all ps) as [vs'|e'|] eqn:Hall;
      try done.
    intros [= <-]. simpl. f_equal. by apply IH.
  - destruct vs as [|v vs]; [done|]. intros [= -> Hps].
    apply IH in Hps. by rewrite Hps.
Qed.

Lemma Promise_all_never_settles {A} (ps : list (Promise A)) :
  (forall p e, p ∈ ps -> p <> Rejected e) ->
  NeverSettles ∈ ps ->
  Rotector.Promise_all ps = NeverSettles.
Proof.
  induction ps as [|p ps IH]; intros Hps Hin; [by apply elem_of_nil in Hin|].
  assert (forall e', Rotector.Promise_all ps <> Rejected e') as Hrec.
  { apply Promise_all_not_rejected. intros q e' Hq. apply Hps. by right. }
  pose proof (fun e' => Hps p e' ltac:(left)) as Hp.
  simpl. apply elem_of_cons in Hin as [<-|Hin].
  - destruct (Rotector.Promise_all ps) as [vs|e'|]; try done. by destruct (Hrec e').
  - rewrite IH; [|intros q e' Hq; apply Hps; by right|done].
    destruct p as [v|e'|]; try done. by destruct (Hp e').
Qed.

Lemma runningTasks_outcomes fuel env ids :
  Rotector.runningTasks fuel env ids
  = (fun o => Rotector.then_assign_catch (Rotector.promise_of o))
      <$> batch_outcomes fuel env ids.
Proof. unfold Rotector.runningTasks, batch_outcomes. by rewrite fmap_imap. Qed.

Lemma runningTasks_not_rejected fuel env ids p e :
  p ∈ Rotector.runningTasks fuel env ids -> p <> Rejected e.
Proof.
  rewrite runningTasks_outcomes. intros (o & -> & _)%list_elem_of_fmap.
  by destruct o.
Qed.

Lemma foldl_pointwise {A B} (f g : A -> B -> A) (l : list B) :
  (forall a b, f a b = g a b) -> forall a, foldl f a l = foldl g a l.
Proof.
  intros Hfg. induction l as [|b l IH]; intros a; simpl; [done|].
  by rewrite Hfg, IH.
Qed.

(** The record built up by the tasks that were fulfilled, in the order
    [order] of their completion. *)
Lemma merge_lookup (outcomes : list Rotector.Outcome) (order : list nat) :
  forall (acc : gmap Z Rotector.UserStatus) k v,
  foldl (fun userStatuses i =>
           match outcomes !! i with
           | Some (Rotector.Fulfilled d) => Rotector.Object_assign userStatuses d
           | _ => userStatuses
           end) acc order !! k = Some v ->
  acc !! k = Some v
  \/ exists i d, i ∈ order /\ outcomes !! i = Some (Rotector.Fulfilled d)
                /\ d !! k = Some v.
Proof.
  induction order as [|i order IH]; intros acc k v; simpl; [by left|].
  intros [Hacc|(j & d & Hj & Ho & Hd)]%IH.
  - destruct (outcomes !! i) as [[d| |]|] eqn:Ho; try by left.
    unfold Rotector.Object_assign in Hacc.
    apply lookup_union_Some_raw in Hacc as [Hd|[_ Hacc]]; [|by left].
    right. exists i, d. split; [by left|done].
  - right. exists j, d. split; [by right|done].
Qed.

Lemma merge_covers (outcomes : list Rotector.Outcome) (order : list nat) k :
  forall (acc : gmap Z Rotector.UserStatus),
  is_Some (acc !! k)
  \/ (exists i d, i ∈ order /\ outcomes !! i = Some (Rotector.Fulfilled d)
                 /\ is_Some (d !! k)) ->
  is_Some (foldl (fun userStatuses i =>
           match outcomes !! i with
           | Some (Rotector.Fulfilled d) => Rotector.Object_assign userStatuses d
           | _ => userStatuses
           end) acc order !! k).
Proof.
  induction order as [|i order IH]; intros acc; simpl.
  { intros [H|(i & d & Hi & _)]; [done|by apply elem_of_nil in Hi]. }
  intros [Hacc|(j & d & Hj & Ho & Hd)]; apply IH.
  - left. destruct (outcomes !! i) as [[d| |]|]; try done.
    unfold Rotector.Object_assign. apply lookup_union_is_Some. by right.
  - apply elem_of_cons in Hj as [->|Hj].
    + left. rewrite Ho. unfold Rotector.Object_assign.
      apply lookup_union_is_Some. by left.
    + right. by exists j, d.
Qed.

Lemma completion_order_covers env n i :
  i ∈ Rotector.completion_order env n <-> (i < n)%nat.
Proof.
  unfold Rotector.completion_order.
  rewrite merge_sort_Permutation, elem_of_seq. lia.
Qed.

(** The value [checkLotsOfUsers] resolves with, in terms of the outcomes. *)
Lemma checkLotsOfUsers_resolves fuel env ids :
  Forall (fun o => still_looping o = false) (batch_outcomes fuel env ids) ->
  Rotector.checkLotsOfUsers fuel env ids
  = Resolved
      (foldl (fun userStatuses i =>
                match batch_outcomes fuel env ids !! i with
                | Some (Rotector.Fulfilled d) => Rotector.Object_assign userStatuses d
                | _ => userStatuses
                end)
             ∅ (Rotector.completion_order env (length (batch_outcomes fuel env ids)))).
Proof.
  intros Hsettled. unfold Rotector.checkLotsOfUsers.
  rewrite runningTasks_outcomes.
  set (outcomes := batch_outcomes fuel env ids) in *.
  set (effects := (fun o => match o with
                            | Rotector.Fulfilled d =>
                                fun us => Rotector.Object_assign us d
                            | _ => fun us => us
                            end) <$> outcomes).
  assert (Rotector.Promise_all
            ((fun o => Rotector.then_assign_catch (Rotector.promise_of o)) <$> outcomes)
          = Resolved effects) as ->.
  { apply Promise_all_resolved. unfold effects. rewrite <- list_fmap_compose.
    apply Forall_fmap_ext_1. eapply Forall_impl; [exact Hsettled|].
    by intros [d|e|f]. }
  f_equal. unfold effects. rewrite length_fmap.
  apply foldl_pointwise. intros us i. rewrite list_lookup_fmap.
  by destruct (outcomes !! i) as [[d|e|f]|].
Qed.

Lemma checkLotsOfUsers_never_rejects fuel env ids e :
  Rotector.checkLotsOfUsers fuel env ids <> Rejected e.
Proof.
  unfold Rotector.checkLotsOfUsers.
  pose proof (Promise_all_not_rejected (Rotector.runningTasks fuel env ids)
                (fun p e' => runningTasks_not_rejected fuel env ids p e')) as Hall.
  destruct (Rotector.Promise_all (Rotector.runningTasks fuel env ids)) as [vs|e'|];
    try done.
  by destruct (Hall e').
Qed.

Lemma checkLotsOfUsers_hangs fuel env ids f :
  Rotector.Looping f ∈ batch_outcomes fuel env ids ->
  Rotector.checkLotsOfUsers fuel env ids = NeverSettles.
Proof.
  intros Hin. unfold Rotector.checkLotsOfUsers.
  rewrite Promise_all_never_settles; [done| |].
  - intros p e. apply runningTasks_not_rejected.
  - rewrite runningTasks_outcomes.
    apply list_elem_of_fmap. by exists (Rotector.Looping f).
Qed.

(** C9, as stated, fails: against a service that answers every request with
    429, the lookup of the single id 1 never resolves, however long the loop
    is followed. *)
Lemma lookup_under_persistent_429 :
  exists env ids,
    forall fuel, Rotector.checkLotsOfUsers fuel env ids = NeverSettles.
Proof.
  exists (Rotector.mkEnv (fun _ => limiting) (fun i => i)), [1].
  intros fuel. apply (checkLotsOfUsers_hangs _ _ _ (match fuel with O => 0 | S _ => 0 end)).
  unfold batch_outcomes. rewrite batches_single by (simpl; lia). simpl.
  unfold Rotector.checkMultipleUsers.
  rewrite loop_rate_limited_forever by done. simpl. left.
Qed.

(** C9, amended: [checkLotsOfUsers] never rejects; it resolves as soon as
    every batch's call of [checkMultipleUsers] has settled (and never while
    one keeps looping, as under a persistent 429); the record it resolves
    with holds exactly the keys of the data of the fulfilled batches, each
    with a value one of them returned for it, the failed batches adding
    nothing; it is empty when the input is empty or no batch is fulfilled. *)
Theorem checkLotsOfUsers_merges fuel env ids :
  (forall e, Rotector.checkLotsOfUsers fuel env ids <> Rejected e)
  /\ (forall f, Rotector.Looping f ∈ batch_outcomes fuel env ids ->
        Rotector.checkLotsOfUsers fuel env ids = NeverSettles)
  /\ (Forall (fun o => still_looping o = false) (batch_outcomes fuel env ids) ->
      exists userStatuses,
        Rotector.checkLotsOfUsers fuel env ids = Resolved userStatuses
        /\ (forall k v, userStatuses !! k = Some v ->
              exists i d, batch_outcomes fuel env ids !! i = Some (Rotector.Fulfilled d)
                          /\ d !! k = Some v)
        /\ (forall i d k, batch_outcomes fuel env ids !! i = Some (Rotector.Fulfilled d) ->
              is_Some (d !! k) -> is_Some (userStatuses !! k))
        /\ ((forall d, Rotector.Fulfilled d ∉ batch_outcomes fuel env ids) ->
            userStatuses = ∅))
  /\ Rotector.checkLotsOfUsers fuel env [] = Resolved ∅.
Proof.
  split; [apply checkLotsOfUsers_never_rejects|].
  split; [apply checkLotsOfUsers_hangs|].
  split; [|reflexivity].
  intros Hsettled. eexists. split; [by apply checkLotsOfUsers_resolves|].
  set (outcomes := batch_outcomes fuel env ids).
  split; [|split].
  - intros k v [Hempty|(i & d & _ & Ho & Hd)]%merge_lookup.
    + by rewrite lookup_empty in Hempty.
    + by exists i, d.
  - intros i d k Ho Hd. apply merge_covers. right. exists i, d.
    split; [|done]. apply completion_order_covers.
    apply lookup_lt_is_Some. by rewrite Ho.
  - intros Hnone. apply map_eq. intros k. rewrite lookup_empty.
    apply eq_None_not_Some. intros [v Hv].
    apply merge_lookup in Hv as [Hempty|(i & d & _ & Ho & _)].
    + by rewrite lookup_empty in Hempty.
    + apply (Hnone d), list_elem_of_lookup. by exists i.
Qed.

(** Sixty ids in two batches: the service cannot be reached for the first
    batch and answers the second; the lookup resolves with the ten statuses
    of the second batch. *)
Lemma checkLotsOfUsers_merges_witness :
  let env := Rotector.mkEnv (down_at_first 0) (fun i => i) in
  let ids := ids_from 1 60 in
  exists userStatuses,
    Rotector.checkLotsOfUsers 6 env ids = Resolved userStatuses
    /\ (forall k v, userStatuses !! k = Some v ->
          exists i d, batch_outcomes 6 env ids !! i = Some (Rotector.Fulfilled d)
                      /\ d !! k = Some v)
    /\ userStatuses !! 7 = None
    /\ userStatuses !! 57 = Some (answer 0 57).
Proof.
  intros env ids.
  destruct (proj1 (proj2 (proj2 (checkLotsOfUsers_merges 6 env ids))))
    as (userStatuses & Hres & Hfrom & _).
  { vm_compute. repeat constructor. }
  exists userStatuses. split; [exact Hres|]. split; [exact Hfrom|].
  assert (Rotector.checkLotsOfUsers 6 env ids
          = Resolved (list_to_map ((fun i => (i, answer 0 i)) <$> ids_from 51 10)))
    as Hval by (vm_compute; reflexivity).
  rewrite Hval in Hres. injection Hres as <-.
  split; vm_compute; reflexivity.
Defined.

(* ===================================================================== *)
(** * The pipeline: [flushLookup] and [collect] *)
(* ===================================================================== *)

Lemma persistCache_union results cache :
  Index.persistCache results cache = results ∪ cache.
Proof.
  unfold Index.persistCache.
  apply (map_fold_weak_ind (fun acc m => acc = m ∪ cache)).
  - by rewrite (left_id_L ∅ (∪)).
  - intros k v m acc Hk ->. by rewrite insert_union_l.
Qed.

Lemma record_results_frame label results chunk : forall l,
  let l' := Index.record_results label results chunk l in
  Index.seenIds l' = Index.seenIds l
  /\ Index.pendingLookup l' = Index.pendingLookup l
  /\ Index.submitted l' = Index.submitted l
  /\ Index.totalCollected l' = Index.totalCollected l
  /\ Index.uniqueUsers l' = Index.uniqueUsers l
  /\ Index.newlyChecked l' = Index.newlyChecked l
  /\ Index.rotectorWriter l'
     = Index.rotectorWriter l ++ lines_for label results chunk
  /\ Index.warnings l' = Index.warnings l ++ missing_from results chunk.
Proof.
  unfold Index.record_results.
  induction chunk as [|x chunk IH]; intros l; simpl.
  { by rewrite !app_nil_r. }
  destruct (IH (match results !! x with
                | Some status => Index.writeStatus label status l
                | None => Index.warn_missing x l
                end)) as (-> & -> & -> & -> & -> & -> & -> & ->).
  unfold lines_for, missing_from. simpl.
  destruct (results !! x) as [status|]; simpl; rewrite <- ?app_assoc; done.
Qed.

(** [flushLookup] with a non-empty buffer: one lookup, and then one of three
    ways on. *)
Lemma flushLookup_spec w label r l :
  Index.pendingLookup l <> [] ->
  let chunk := Index.pendingLookup l in
  let started := Index.start_lookup chunk l in
  match Rotector.checkLotsOfUsers (Index.fuel w) (Index.rotector w (Index.calls r)) chunk with
  | Resolved results =>
      Index.flushLookup w label r l
      = Index.At Index.Live
          (Index.mkRun (results ∪ Index.statusCache r) (S (Index.calls r)))
          (Index.record_results label results chunk
             (Index.add_newlyChecked (length chunk) started))
  | Rejected e => False
  | NeverSettles =>
      Index.flushLookup w label r l
      = Index.At Index.Hung (Index.mkRun (Index.statusCache r) (S (Index.calls r))) started
  end.
Proof.
  intros Hne. unfold Index.flushLookup.
  destruct (Index.pendingLookup l) as [|x chunk] eqn:Hp; [done|]. simpl.
  pose proof (checkLotsOfUsers_never_rejects (Index.fuel w)
                (Index.rotector w (Index.calls r)) (x :: chunk)) as Hnr.
  destruct (Rotector.checkLotsOfUsers _ _ _) as [results|e|].
  - by rewrite persistCache_union.
  - by destruct (Hnr e).
  - done.
Qed.

Lemma flushLookup_empty w label r l :
  Index.pendingLookup l = [] -> Index.flushLookup w label r l = Index.At Index.Live r l.
Proof. intros H. unfold Index.flushLookup. by rewrite H. Qed.

Lemma consistent_fresh r : consistent r r Index.fresh.
Proof.
  split; simpl; try done.
  - apply NoDup_nil_2.
  - intros x Hx. by apply elem_of_nil in Hx.
  - intros x Hx. by apply elem_of_nil in Hx.
  - intros x Hx. by apply elem_of_nil in Hx.
Qed.

(** Steps that leave the buffer and the submissions alone. *)
Lemma consistent_frame r0 r l l' :
  Index.seenIds l ⊆ Index.seenIds l' ->
  Index.submitted l' = Index.submitted l ->
  Index.pendingLookup l' = Index.pendingLookup l ->
  consistent r0 r l -> consistent r0 r l'.
Proof.
  intros Hseen Hsub Hpend [H1 H2 H3 H4 H5].
  split; unfold submitted_ids in *; rewrite ?Hsub, ?Hpend; try done.
  intros x Hx. apply Hseen. by apply H2.
Qed.

(** An id that is neither seen nor cached enters the buffer. *)
Lemma consistent_push r0 r l x :
  x ∉ Index.seenIds l ->
  Index.statusCache r !! x = None ->
  consistent r0 r l ->
  consistent r0 r (Index.push_pending x (Index.mark_seen x (Index.count_entry l))).
Proof.
  intros Hseen Hcache [H1 H2 H3 H4 H5].
  split; unfold submitted_ids in *; simpl.
  - rewrite app_assoc. apply NoDup_app. split; [done|]. split.
    + intros y Hy ->%list_elem_of_singleton. by apply Hseen, H2.
    + apply NoDup_singleton.
  - intros y. rewrite app_assoc. intros [Hy| ->%list_elem_of_singleton]%elem_of_app.
    + apply elem_of_union_r. by apply H2.
    + apply elem_of_union_l. by apply elem_of_singleton.
  - intros y. rewrite app_assoc. intros [Hy| ->%list_elem_of_singleton]%elem_of_app.
    + by apply H3.
    + apply eq_None_not_Some. intros Hy%H5. rewrite Hcache in Hy. by destruct Hy.
  - intros y [Hy| ->%list_elem_of_singleton]%elem_of_app; [by apply H4|done].
  - done.
Qed.

(** The buffer is handed over as a chunk, the cache may grow. *)
Lemma consistent_flush r0 r r' l l' :
  Index.seenIds l' = Index.seenIds l ->
  Index.submitted l' = Index.submitted l ++ Rotector.batches (Index.pendingLookup l) ->
  Index.pendingLookup l' = [] ->
  (forall x, is_Some (Index.statusCache r !! x) -> is_Some (Index.statusCache r' !! x)) ->
  consistent r0 r l -> consistent r0 r' l'.
Proof.
  intros Hseen Hsub Hpend Hgrow [H1 H2 H3 H4 H5].
  assert (submitted_ids l' ++ Index.pendingLookup l'
          = submitted_ids l ++ Index.pendingLookup l) as Heq.
  { unfold submitted_ids. rewrite Hsub, Hpend, concat_app, batches_concat.
    by rewrite app_nil_r. }
  split; rewrite ?Heq, ?Hseen; try done.
  - rewrite Hpend. intros x Hx. by apply elem_of_nil in Hx.
  - intros x Hx. by apply Hgrow, H5.
Qed.

Lemma flushLookup_consistent w label r0 r l :
  consistent r0 r l ->
  consistent r0 (run_of (Index.flushLookup w label r l))
               (locals_of (Index.flushLookup w label r l)).
Proof.
  intros Hc. destruct (decide (Index.pendingLookup l = [])) as [He|Hne].
  { by rewrite flushLookup_empty. }
  pose proof (flushLookup_spec w label r l Hne) as Hspec. simpl in Hspec.
  destruct (Rotector.checkLotsOfUsers _ _ _) as [results|e|]; [|done|];
    rewrite Hspec; simpl.
  - destruct (record_results_frame label results (Index.pendingLookup l)
                (Index.add_newlyChecked (length (Index.pendingLookup l))
                   (Index.start_lookup (Index.pendingLookup l) l)))
      as (Hs & Hp & Hsub & _).
    apply (consistent_flush r0 r _ l _);
      [by rewrite Hs|by rewrite Hsub|by rewrite Hp| |exact Hc].
    simpl. intros x Hx. apply lookup_union_is_Some. by right.
  - by apply (consistent_flush r0 r _ l _).
Qed.

Lemma collect_consistent w label r0 r l x :
  consistent r0 r l ->
  consistent r0 (run_of (Index.collect w label r l x))
               (locals_of (Index.collect w label r l x)).
Proof.
  intros Hc. unfold Index.collect.
  destruct (decide (x ∈ Index.seenIds (Index.count_entry l))) as [Hseen|Hseen].
  { simpl. by apply (consistent_frame r0 r l). }
  destruct (Index.statusCache r !! x) as [cached|] eqn:Hcache.
  { simpl. apply (consistent_frame r0 r l); try done.
    simpl. apply union_subseteq_r. }
  pose proof (consistent_push r0 r l x Hseen Hcache Hc) as Hpush.
  case_decide; [|done]. by apply flushLookup_consistent.
Qed.

Lemma collect_step_consistent {Entry} w label (extractUserId : Entry -> Z) r0 x entry :
  consistent r0 (run_of x) (locals_of x) ->
  consistent r0 (run_of (Index.collect_step w label extractUserId x entry))
               (locals_of (Index.collect_step w label extractUserId x entry)).
Proof.
  destruct x as [[| |e] r l]; simpl; [|done|done]. apply collect_consistent.
Qed.

Lemma foldl_collect_consistent {Entry} w label (extractUserId : Entry -> Z) r0 entries :
  forall x,
  consistent r0 (run_of x) (locals_of x) ->
  consistent r0
    (run_of (foldl (Index.collect_step w label extractUserId) x entries))
    (locals_of (foldl (Index.collect_step w label extractUserId) x entries)).
Proof.
  induction entries as [|entry entries IH]; intros x Hx; simpl; [done|].
  by apply IH, collect_step_consistent.
Qed.

Lemma processEntries_consistent {Entry} w label (extractUserId : Entry -> Z) entryStream r :
  consistent r
    (run_of (Index.processEntries w label extractUserId entryStream r))
    (locals_of (Index.processEntries w label extractUserId entryStream r)).
Proof.
  unfold Index.processEntries.
  pose proof (foldl_collect_consistent w label extractUserId r (yields entryStream)
                (Index.At Index.Live r Index.fresh) (consistent_fresh r)) as Hc.
  destruct (foldl _ _ _) as [[| |e] r' l']; simpl in *; try done.
  destruct (ending entryStream); simpl; try done.
  by apply flushLookup_consistent.
Qed.

(** A call that has stopped running ignores the rest of the stream. *)
Lemma foldl_collect_stuck {Entry} w label (extractUserId : Entry -> Z) entries x :
  control_of x <> Index.Live ->
  foldl (Index.collect_step w label extractUserId) x entries = x.
Proof.
  intros Hx. induction entries as [|entry entries IH]; [done|]. simpl.
  destruct x as [[| |e] r l]; simpl in *; done.
Qed.

(** Induction along the entries of a call that is still running at the end:
    it was running after every entry. *)
Lemma foldl_collect_live_ind {Entry} w label (extractUserId : Entry -> Z)
    (P : Index.Run -> Index.Locals -> Prop) entries :
  (forall r l x r' l',
     P r l -> Index.collect w label r l x = Index.At Index.Live r' l' -> P r' l') ->
  forall r l r' l',
  P r l ->
  foldl (Index.collect_step w label extractUserId) (Index.At Index.Live r l) entries
  = Index.At Index.Live r' l' ->
  P r' l'.
Proof.
  intros Hstep. induction entries as [|entry entries IH]; intros r l r' l' HP; simpl.
  { by intros [= <- <-]. }
  destruct (Index.collect w label r l (extractUserId entry)) as [c r1 l1] eqn:Hc.
  destruct c as [| |e].
  - apply IH. by eapply Hstep.
  - by rewrite foldl_collect_stuck.
  - by rewrite foldl_collect_stuck.
Qed.

Lemma processSource_consistent w t r :
  consistent r (run_of (Index.processSource w t r))
               (locals_of (Index.processSource w t r)).
Proof. destruct t; apply processEntries_consistent. Qed.

Lemma processSources_cons w t targets r :
  Index.processSources w (t :: targets) r
  = match Index.processSource w t r with
    | Index.At Index.Live r' l =>
        (l :: (Index.processSources w targets r').1.1,
         (Index.processSources w targets r').1.2,
         (Index.processSources w targets r').2)
    | Index.At c r' l => ([l], c, r')
    end.
Proof.
  simpl. destruct (Index.processSource w t r) as [[| |e] r' l]; try done.
  by destruct (Index.processSources w targets r') as [[ls c] r''].
Qed.

(** The sources of a run, one after the other. *)
Lemma processSources_app w targets1 targets2 : forall r,
  Index.processSources w (targets1 ++ targets2) r
  = match Index.processSources w targets1 r with
    | (ls1, Index.Live, r1) =>
        (ls1 ++ (Index.processSources w targets2 r1).1.1,
         (Index.processSources w targets2 r1).1.2,
         (Index.processSources w targets2 r1).2)
    | stopped => stopped
    end.
Proof.
  induction targets1 as [|t targets1 IH]; intros r.
  { simpl. by destruct (Index.processSources w targets2 r) as [[ls c] r']. }
  rewrite <- app_comm_cons, !processSources_cons.
  destruct (Index.processSource w t r) as [[| |e] r' l]; try done.
  rewrite IH.
  destruct (Index.processSources w targets1 r') as [[ls1 [| |e]] r1]; done.
Qed.

Lemma processSources_uncached w targets : forall r l,
  l ∈ (Index.processSources w targets r).1.1 ->
  NoDup (submitted_ids l)
  /\ (forall x, is_Some (Index.statusCache r !! x) -> x ∉ submitted_ids l).
Proof.
  induction targets as [|t targets IH]; intros r l.
  { simpl. by intros Hl%elem_of_nil. }
  rewrite processSources_cons.
  pose proof (processSource_consistent w t r) as Hc.
  destruct (Index.processSource w t r) as [c r' l1]. simpl in Hc.
  assert (NoDup (submitted_ids l1)
          /\ (forall x, is_Some (Index.statusCache r !! x) -> x ∉ submitted_ids l1))
    as Hfirst.
  { split; [by destruct (proj1 (NoDup_app _ _) (c_nodup _ _ _ Hc))|].
    intros x Hx Hin.
    rewrite (c_uncached_at_start _ _ _ Hc x) in Hx; [by destruct Hx|].
    apply elem_of_app. by left. }
  destruct c; simpl.
  - intros [->|Hl]%elem_of_cons; [done|].
    destruct (IH r' l Hl) as [Hnd Hun]. split; [done|].
    intros x Hx. by apply Hun, (c_cache_grows _ _ _ Hc).
  - by intros ->%list_elem_of_singleton.
  - by intros ->%list_elem_of_singleton.
Qed.

(** The four ways through the loop body that leave the call running. *)
Lemma collect_live w label r l x r' l' :
  Index.collect w label r l x = Index.At Index.Live r' l' ->
  let pushed := Index.push_pending x (Index.mark_seen x (Index.count_entry l)) in
  let chunk := Index.pendingLookup l ++ [x] in
  (x ∈ Index.seenIds l /\ r' = r /\ l' = Index.count_entry l)
  \/ ((x ∉ Index.seenIds l)
      /\ exists cached, Index.statusCache r !! x = Some cached /\ r' = r
         /\ l' = Index.writeStatus label cached
                   (Index.mark_seen x (Index.count_entry l)))
  \/ ((x ∉ Index.seenIds l) /\ Index.statusCache r !! x = None
      /\ (length chunk < Index.LOOKUP_BATCH_SIZE)%nat /\ r' = r /\ l' = pushed)
  \/ ((x ∉ Index.seenIds l) /\ Index.statusCache r !! x = None
      /\ (Index.LOOKUP_BATCH_SIZE <= length chunk)%nat
      /\ exists results,
           Rotector.checkLotsOfUsers (Index.fuel w) (Index.rotector w (Index.calls r)) chunk
           = Resolved results
           /\ r' = Index.mkRun (results ∪ Index.statusCache r) (S (Index.calls r))
           /\ l' = Index.record_results label results chunk
                     (Index.add_newlyChecked (length chunk)
                        (Index.start_lookup chunk pushed))).
Proof.
  unfold Index.collect. intros H.
  destruct (decide (x ∈ Index.seenIds (Index.count_entry l))) as [Hseen|Hseen].
  { left. by injection H as <- <-. }
  right. destruct (Index.statusCache r !! x) as [cached|] eqn:Hcache.
  { left. split; [done|]. exists cached. by injection H as <- <-. }
  right. case_decide as Hlen.
  - right. split; [done|]. split; [done|]. split; [done|].
    pose proof (flushLookup_spec w label r
                  (Index.push_pending x (Index.mark_seen x (Index.count_entry l))))
      as Hspec.
    simpl in Hspec.
    destruct (Rotector.checkLotsOfUsers _ _ _) as [results|e|].
    + exists results. split; [done|]. rewrite Hspec in H; [|by destruct (Index.pendingLookup l)].
      by injection H as <- <-.
    + destruct Hspec. by destruct (Index.pendingLookup l).
    + rewrite Hspec in H; [done|by destruct (Index.pendingLookup l)].
  - left. split; [done|]. split; [done|]. split; [simpl in *; lia|].
    by injection H as <- <-.
Qed.

Lemma flushLookup_live w label r l r' l' :
  Index.flushLookup w label r l = Index.At Index.Live r' l' ->
  (Index.pendingLookup l = [] /\ r' = r /\ l' = l)
  \/ (Index.pendingLookup l <> []
      /\ exists results,
           Rotector.checkLotsOfUsers (Index.fuel w) (Index.rotector w (Index.calls r))
             (Index.pendingLookup l)
           = Resolved results
           /\ r' = Index.mkRun (results ∪ Index.statusCache r) (S (Index.calls r))
           /\ l' = Index.record_results label results (Index.pendingLookup l)
                     (Index.add_newlyChecked (length (Index.pendingLookup l))
                        (Index.start_lookup (Index.pendingLookup l) l))).
Proof.
  intros H. destruct (decide (Index.pendingLookup l = [])) as [He|Hne].
  { left. rewrite flushLookup_empty in H by done. by injection H as <- <-. }
  right. split; [done|].
  pose proof (flushLookup_spec w label r l Hne) as Hspec. simpl in Hspec.
  destruct (Rotector.checkLotsOfUsers _ _ _) as [results|e|]; [|done|].
  - exists results. split; [done|]. rewrite Hspec in H. by injection H as <- <-.
  - by rewrite Hspec in H.
Qed.

(** What [processEntries] is made of, for a call that returns. *)
Lemma processEntries_live {Entry} w label (extractUserId : Entry -> Z) entryStream r r' l' :
  Index.processEntries w label extractUserId entryStream r = Index.At Index.Live r' l' ->
  exists r1 l1,
    foldl (Index.collect_step w label extractUserId)
      (Index.At Index.Live r Index.fresh) (yields entryStream)
    = Index.At Index.Live r1 l1
    /\ ending entryStream = Exhausted
    /\ Index.flushLookup w label r1 l1 = Index.At Index.Live r' l'.
Proof.
  unfold Index.processEntries.
  destruct (foldl _ _ _) as [[| |e] r1 l1]; try done.
  destruct (ending entryStream); try done.
  intros H. by exists r1, l1.
Qed.

(** Against a verifier that answers every id, every submitted id is cached
    once the lookup has returned. *)
Lemma record_results_submitted label results chunk l :
  submitted_ids (Index.record_results label results chunk l) = submitted_ids l.
Proof.
  unfold submitted_ids.
  by destruct (record_results_frame label results chunk l) as (_ & _ & -> & _).
Qed.

Lemma flush_resolved_cached w (Hw : answers_every_id w) label r l r' l' :
  (forall x, x ∈ submitted_ids l -> is_Some (Index.statusCache r !! x)) ->
  Index.flushLookup w label r l = Index.At Index.Live r' l' ->
  forall x, x ∈ submitted_ids l' -> is_Some (Index.statusCache r' !! x).
Proof.
  intros HP [(_ & -> & ->)|(Hne & results & Hlookup & -> & ->)]%flushLookup_live x;
    [by apply HP|].
  rewrite record_results_submitted. unfold submitted_ids. simpl.
  rewrite concat_app, batches_concat.
  intros [Hx|Hx]%elem_of_app; apply lookup_union_is_Some.
  - right. by apply HP.
  - left. by eapply Hw.
Qed.

Lemma collect_resolved_cached w (Hw : answers_every_id w) label r l x r' l' :
  (forall y, y ∈ submitted_ids l -> is_Some (Index.statusCache r !! y)) ->
  Index.collect w label r l x = Index.At Index.Live r' l' ->
  forall y, y ∈ submitted_ids l' -> is_Some (Index.statusCache r' !! y).
Proof.
  intros HP Hc. apply collect_live in Hc.
  destruct Hc as [(_ & -> & ->)|[(_ & cached & _ & -> & ->)|
                 [(_ & _ & _ & -> & ->)|(_ & _ & _ & results & Hlookup & -> & ->)]]];
    try exact HP.
  intros y. rewrite record_results_submitted. unfold submitted_ids. simpl.
  rewrite concat_app, batches_concat.
  intros [Hy|Hy]%elem_of_app; apply lookup_union_is_Some.
  - right. by apply HP.
  - left. by eapply Hw.
Qed.

Lemma processSource_resolved_cached w (Hw : answers_every_id w) t r r' l' :
  Index.processSource w t r = Index.At Index.Live r' l' ->
  forall x, x ∈ submitted_ids l' -> is_Some (Index.statusCache r' !! x).
Proof.
  assert (forall Entry label (extractUserId : Entry -> Z) entryStream,
            Index.processEntries w label extractUserId entryStream r
            = Index.At Index.Live r' l' ->
            forall x, x ∈ submitted_ids l' -> is_Some (Index.statusCache r' !! x)) as H.
  { intros Entry label extractUserId entryStream
      (r1 & l1 & Hfold & _ & Hflush)%processEntries_live.
    eapply (flush_resolved_cached w Hw); [|exact Hflush].
    refine (foldl_collect_live_ind w label extractUserId
              (fun r l => forall x, x ∈ submitted_ids l ->
                                    is_Some (Index.statusCache r !! x))
              (yields entryStream) _ r Index.fresh r1 l1 _ Hfold).
    - intros r2 l2 x r3 l3 HP Hc. by eapply (collect_resolved_cached w Hw).
    - by intros x Hx%elem_of_nil. }
  destruct t; apply H.
Qed.

Lemma processSources_once w (Hw : answers_every_id w) targets : forall r,
  NoDup (concat (submitted_ids <$> (Index.processSources w targets r).1.1)).
Proof.
  induction targets as [|t targets IH]; intros r.
  { simpl. apply NoDup_nil_2. }
  rewrite processSources_cons.
  pose proof (processSource_consistent w t r) as Hc.
  pose proof (processSource_resolved_cached w Hw t r) as Hcached.
  destruct (Index.processSource w t r) as [c r' l1]. simpl in Hc.
  assert (NoDup (submitted_ids l1)) as Hnd
    by (by destruct (proj1 (NoDup_app _ _) (c_nodup _ _ _ Hc))).
  destruct c; simpl; [|by rewrite app_nil_r..].
  apply NoDup_app. split; [done|]. split; [|apply IH].
  intros x Hx (ids & (l & -> & Hl)%list_elem_of_fmap & Hin)%elem_of_concat.
  destruct (processSources_uncached w targets r' l Hl) as [_ Hun].
  apply (Hun x); [|done]. by apply (Hcached r' l1).
Qed.

(* ===================================================================== *)
(** * Deduplication *)
(* ===================================================================== *)

Lemma answering_outcomes fuel flag ids :
  batch_outcomes (S fuel) (Rotector.mkEnv (fun _ => answering flag) (fun i => i)) ids
  = (fun batch =>
       Rotector.Fulfilled (list_to_map ((fun i => (i, answer flag i)) <$> batch)))
      <$> Rotector.batches ids.
Proof.
  unfold batch_outcomes. apply list_eq. intros i.
  rewrite list_lookup_imap, list_lookup_fmap.
  by destruct (Rotector.batches ids !! i).
Qed.

Lemma answer_lookup flag (batch : list Z) x :
  is_Some ((list_to_map ((fun i => (i, answer flag i)) <$> batch)
              : gmap Z Rotector.UserStatus) !! x)
  <-> x ∈ batch.
Proof.
  rewrite <- not_eq_None_Some.
  assert (((fun i => (i, answer flag i)) <$> batch).*1 = batch) as Hfst.
  { rewrite <- list_fmap_compose. apply list_fmap_id. }
  split.
  - intros Hn. destruct (decide (x ∈ batch)) as [|Hx]; [done|].
    destruct Hn. apply not_elem_of_list_to_map_1. by rewrite Hfst.
  - intros Hx Hn. apply not_elem_of_list_to_map_2 in Hn. by rewrite Hfst in Hn.
Qed.

Lemma answering_settles fuel flag ids :
  Forall (fun o => still_looping o = false)
    (batch_outcomes (S fuel) (Rotector.mkEnv (fun _ => answering flag) (fun i => i)) ids).
Proof. rewrite answering_outcomes. apply Forall_fmap. by apply Forall_true. Qed.

Lemma answering_answers_every_id fuel flag :
  answers_every_id (world_of (S fuel) (fun _ => answering flag)).
Proof.
  intros n chunk results. simpl.
  rewrite checkLotsOfUsers_resolves by apply answering_settles.
  intros [= <-] x Hx. apply merge_covers. right.
  rewrite <- (batches_concat chunk) in Hx.
  apply elem_of_concat in Hx as (batch & Hb & Hx).
  apply list_elem_of_lookup in Hb as [i Hi].
  exists i. eexists. split; [|split].
  - apply completion_order_covers.
    rewrite answering_outcomes, length_fmap. by apply lookup_lt_is_Some.
  - rewrite answering_outcomes, list_lookup_fmap, Hi. reflexivity.
  - by apply answer_lookup.
Qed.

Lemma answering_answers_only_asked fuel flag :
  answers_only_asked (world_of (S fuel) (fun _ => answering flag)).
Proof.
  intros n chunk results. simpl.
  rewrite checkLotsOfUsers_resolves by apply answering_settles.
  intros [= <-] x [v Hv].
  apply merge_lookup in Hv as [Hv|(i & d & _ & Ho & Hd)].
  { by rewrite lookup_empty in Hv. }
  rewrite answering_outcomes, list_lookup_fmap in Ho.
  destruct (Rotector.batches chunk !! i) as [batch|] eqn:Hi; [|done].
  injection Ho as <-.
  rewrite <- (batches_concat chunk). apply elem_of_concat.
  exists batch. split; [by eapply list_elem_of_lookup_2|].
  apply (answer_lookup flag). by exists v.
Qed.

(** C1, as stated, fails: users 1 and 2 both have user 42 among their
    friends and the verifier returns no entry for 42 (nor for anyone); the
    run completes, and 42 is submitted once for each of the two sources. *)
Lemma unresolved_id_is_resubmitted :
  let outcome :=
    Index.main (world_of 1 (fun _ => silent))
      [("1", mkStream [1; 42] Exhausted); ("2", mkStream [2; 42] Exhausted)] [] in
  outcome.1.2 = Index.Live
  /\ Index.submitted <$> outcome.1.1 = [[[1; 42]]; [[2; 42]]]
  /\ ~ NoDup (concat (submitted_ids <$> outcome.1.1)).
Proof.
  split; [vm_compute; reflexivity|]. split; [vm_compute; reflexivity|].
  vm_compute. intros H. inversion H as [|? ? _ H1]; subst.
  inversion H1 as [|? ? Hnotin _]; subst.
  apply Hnotin. right. left.
Qed.

(** C1, amended: within one source every identifier is submitted to the
    Verification Client at most once; an identifier that has an entry in the
    run cache when a source starts is not submitted by that source or any
    later one; hence an identifier is submitted at most once per run whenever
    the verifier returns a result for every identifier it is asked about.
    (An identifier that a lookup left without a result can be submitted
    again by a later source that contains it.) *)
Theorem submitted_once_while_resolved w targets r :
  let sources := (Index.processSources w targets r).1.1 in
  (forall l, l ∈ sources -> NoDup (submitted_ids l))
  /\ (forall l x, l ∈ sources -> is_Some (Index.statusCache r !! x) ->
        x ∉ submitted_ids l)
  /\ (forall later,
        (Index.processSources w targets r).1.2 = Index.Live ->
        let r1 := (Index.processSources w targets r).2 in
        (Index.processSources w (targets ++ later) r).1.1
        = sources ++ (Index.processSources w later r1).1.1
        /\ forall l x, l ∈ (Index.processSources w later r1).1.1 ->
             is_Some (Index.statusCache r1 !! x) -> x ∉ submitted_ids l)
  /\ (answers_every_id w -> NoDup (concat (submitted_ids <$> sources))).
Proof.
  split; [|split; [|split]].
  - intros l Hl. by apply (processSources_uncached w targets r l).
  - intros l x Hl. by apply (processSources_uncached w targets r l).
  - intros later Hlive r1. split.
    + rewrite processSources_app. subst r1.
      destruct (Index.processSources w targets r) as [[ls c] r']. simpl in *.
      by subst c.
    + intros l x Hl. by apply (processSources_uncached w later r1 l).
  - intros Hw. by apply processSources_once.
Qed.

(** Users 1 and 2 share the friend 42 and the verifier answers every id: 42
    is looked up for the first source only. *)
Lemma submitted_once_while_resolved_witness :
  let w := world_of 1 (fun _ => answering 0) in
  let targets := [Index.Friends "1" (mkStream [1; 42] Exhausted);
                  Index.Friends "2" (mkStream [2; 42] Exhausted)] in
  NoDup (concat (submitted_ids <$>
                   (Index.processSources w targets (Index.mkRun ∅ 0)).1.1))
  /\ Index.submitted <$> (Index.processSources w targets (Index.mkRun ∅ 0)).1.1
     = [[[1; 42]]; [[2]]].
Proof.
  intros w targets. split.
  - exact (proj2 (proj2 (proj2
      (submitted_once_while_resolved w targets (Index.mkRun ∅ 0))))
      (answering_answers_every_id 0 0)).
  - vm_compute. reflexivity.
Defined.

(* ===================================================================== *)
(** * Cache hits *)
(* ===================================================================== *)

Lemma flushLookup_writer_prefix w label r l :
  Index.rotectorWriter l `prefix_of`
  Index.rotectorWriter (locals_of (Index.flushLookup w label r l)).
Proof.
  destruct (decide (Index.pendingLookup l = [])) as [He|Hne].
  { by rewrite flushLookup_empty. }
  pose proof (flushLookup_spec w label r l Hne) as Hspec. simpl in Hspec.
  destruct (Rotector.checkLotsOfUsers _ _ _) as [results|e|]; [|done|];
    rewrite Hspec; simpl; [|done].
  destruct (record_results_frame label results (Index.pendingLookup l)
              (Index.add_newlyChecked (length (Index.pendingLookup l))
                 (Index.start_lookup (Index.pendingLookup l) l)))
    as (_ & _ & _ & _ & _ & _ & -> & _).
  by apply prefix_app_r.
Qed.

Lemma collect_writer_prefix w label r l x :
  Index.rotectorWriter l `prefix_of`
  Index.rotectorWriter (locals_of (Index.collect w label r l x)).
Proof.
  unfold Index.collect.
  destruct (decide (x ∈ Index.seenIds (Index.count_entry l))); [done|].
  destruct (Index.statusCache r !! x) as [cached|].
  { simpl. by apply prefix_app_r. }
  case_decide; [|done].
  apply (flushLookup_writer_prefix w label r
           (Index.push_pending x (Index.mark_seen x (Index.count_entry l)))).
Qed.

Lemma foldl_collect_writer_prefix {Entry} w label (extractUserId : Entry -> Z) entries :
  forall x,
  Index.rotectorWriter (locals_of x) `prefix_of`
  Index.rotectorWriter
    (locals_of (foldl (Index.collect_step w label extractUserId) x entries)).
Proof.
  induction entries as [|entry entries IH]; intros x; simpl; [done|].
  etrans; [|apply IH].
  destruct x as [[| |e] r l]; simpl; [|done|done]. apply collect_writer_prefix.
Qed.

Lemma flushLookup_seen w label r l :
  Index.seenIds (locals_of (Index.flushLookup w label r l)) = Index.seenIds l.
Proof.
  destruct (decide (Index.pendingLookup l = [])) as [He|Hne].
  { by rewrite flushLookup_empty. }
  pose proof (flushLookup_spec w label r l Hne) as Hspec. simpl in Hspec.
  destruct (Rotector.checkLotsOfUsers _ _ _) as [results|e|]; [|done|];
    rewrite Hspec; simpl; [|done].
  by destruct (record_results_frame label results (Index.pendingLookup l)
              (Index.add_newlyChecked (length (Index.pendingLookup l))
                 (Index.start_lookup (Index.pendingLookup l) l)))
    as (-> & _).
Qed.

Lemma collect_seen w label r l x :
  Index.seenIds (locals_of (Index.collect w label r l x)) ⊆ {[x]} ∪ Index.seenIds l.
Proof.
  unfold Index.collect.
  destruct (decide (x ∈ Index.seenIds (Index.count_entry l))).
  { simpl. apply union_subseteq_r. }
  destruct (Index.statusCache r !! x) as [cached|]; [done|].
  case_decide; [|done]. by rewrite flushLookup_seen.
Qed.

Lemma collect_seen_mono w label r l x :
  Index.seenIds l ⊆ Index.seenIds (locals_of (Index.collect w label r l x)).
Proof.
  unfold Index.collect.
  destruct (decide (x ∈ Index.seenIds (Index.count_entry l))); [done|].
  destruct (Index.statusCache r !! x) as [cached|].
  { simpl. apply union_subseteq_r. }
  case_decide; [rewrite flushLookup_seen|]; simpl; apply union_subseteq_r.
Qed.

Lemma foldl_collect_seen_mono {Entry} w label (extractUserId : Entry -> Z) entries :
  forall x,
  Index.seenIds (locals_of x)
  ⊆ Index.seenIds
      (locals_of (foldl (Index.collect_step w label extractUserId) x entries)).
Proof.
  induction entries as [|entry entries IH]; intros x; simpl; [done|].
  etrans; [|apply IH].
  destruct x as [[| |e] r l]; simpl; [|done|done]. apply collect_seen_mono.
Qed.

Lemma foldl_collect_seen {Entry} w label (extractUserId : Entry -> Z) entries :
  forall x y,
  y ∈ Index.seenIds
        (locals_of (foldl (Index.collect_step w label extractUserId) x entries)) ->
  y ∈ Index.seenIds (locals_of x) \/ y ∈ extractUserId <$> entries.
Proof.
  induction entries as [|entry entries IH]; intros x y; simpl; [by left|].
  intros [Hy|Hy]%IH; [|right; by right].
  destruct x as [[| |e] r l]; simpl in *; try by left.
  apply collect_seen in Hy. apply elem_of_union in Hy as [->%elem_of_singleton|Hy].
  - right. left.
  - by left.
Qed.

Lemma first_occurrence {A B} `{EqDecision B} (f : A -> B) (l : list A) x :
  x ∈ f <$> l ->
  exists pre e post, l = pre ++ e :: post /\ f e = x /\ x ∉ f <$> pre.
Proof.
  induction l as [|a l IH]; simpl; [by intros H%elem_of_nil|].
  destruct (decide (f a = x)) as [Ha|Ha].
  - intros _. exists [], a, l. split; [done|]. split; [done|].
    simpl. apply not_elem_of_nil.
  - intros [?|Hx]%elem_of_cons; [done|].
    destruct (IH Hx) as (pre & e & post & -> & He & Hpre).
    exists (a :: pre), e, post. split; [done|]. split; [done|].
    simpl. by intros [?|?]%elem_of_cons.
Qed.

(** The step of the claim: an entry whose id is cached. *)
Lemma collect_cached w label r l x cached :
  Index.statusCache r !! x = Some cached ->
  Index.collect w label r l x
  = Index.At Index.Live r
      (if decide (x ∈ Index.seenIds l) then Index.count_entry l
       else Index.writeStatus label cached (Index.mark_seen x (Index.count_entry l))).
Proof.
  intros Hc. unfold Index.collect. simpl.
  destruct (decide (x ∈ Index.seenIds l)); [done|]. by rewrite Hc.
Qed.

Lemma foldl_collect_live_prefix {Entry} w label (extractUserId : Entry -> Z)
    entries1 entries2 x r' l' :
  foldl (Index.collect_step w label extractUserId) x (entries1 ++ entries2)
  = Index.At Index.Live r' l' ->
  exists r1 l1,
    foldl (Index.collect_step w label extractUserId) x entries1
    = Index.At Index.Live r1 l1.
Proof.
  rewrite foldl_app.
  destruct (foldl (Index.collect_step w label extractUserId) x entries1)
    as [[| |e] r1 l1]; [by exists r1, l1|..]; by rewrite foldl_collect_stuck.
Qed.

(* ===================================================================== *)
(** * Failed batches *)
(* ===================================================================== *)

Lemma loop_body_transient f fetched :
  transient fetched = true ->
  Rotector.loop_body f fetched
  = if Rotector.MAX_HTTP_RETRIES <? f + 1 then Rotector.Throw (error_of fetched)
    else Rotector.SleepThenRetry (f + 1) (Rotector.retryDelayMs (f + 1)).
Proof.
  destruct fetched as [m|response]; simpl; [done|].
  intros [Hok H429]%andb_true_iff.
  apply negb_true_iff in Hok, H429. by rewrite Hok, H429.
Qed.

Lemma loop_unfold fuel net request f :
  Rotector.checkMultipleUsers_loop (S fuel) net request f
  = match Rotector.loop_body f (net request) with
    | Rotector.Return d => (Rotector.Fulfilled d, [])
    | Rotector.Throw e => (Rotector.Failed e, [])
    | Rotector.SleepThenRetry f' waitMs =>
        ((Rotector.checkMultipleUsers_loop fuel net (S request) f').1,
         Rotector.Slept waitMs
           :: (Rotector.checkMultipleUsers_loop fuel net (S request) f').2)
    | Rotector.HaltThenRetry f' waitMs =>
        ((Rotector.checkMultipleUsers_loop fuel net (S request) f').1,
         Rotector.Halted waitMs
           :: (Rotector.checkMultipleUsers_loop fuel net (S request) f').2)
    end.
Proof.
  simpl. destruct (Rotector.loop_body f (net request)) as [d|e|f' w|f' w]; try done;
    by destruct (Rotector.checkMultipleUsers_loop fuel net (S request) f').
Qed.

(** Failures in a row, from a counter [f], up to the one that exceeds the
    ceiling: the call fails there. *)
Lemma loop_exhausts_retries net (m : nat) : forall request f fuel,
  f = 5 - Z.of_nat m ->
  (forall k, (k <= m)%nat -> transient (net (request + k)%nat) = true) ->
  (Rotector.checkMultipleUsers_loop (S m + fuel) net request f).1
  = Rotector.Failed (error_of (net (request + m)%nat)).
Proof.
  induction m as [|m IH]; intros request f fuel Hf Hall;
    change (S ?n + fuel)%nat with (S (n + fuel)); rewrite loop_unfold;
    pose proof (Hall 0%nat ltac:(lia)) as H0; rewrite Nat.add_0_r in H0;
    rewrite (loop_body_transient _ _ H0).
  - subst f. by rewrite Nat.add_0_r.
  - destruct (Z.ltb_spec Rotector.MAX_HTTP_RETRIES (f + 1)) as [Hgt|_].
    { unfold Rotector.MAX_HTTP_RETRIES in Hgt. lia. }
    cbn [fst]. rewrite (IH (S request) (f + 1) fuel) by lia || (intros k Hk;
      replace (S request + k)%nat with (request + S k)%nat by lia; apply Hall; lia).
    by replace (request + S m)%nat with (S request + m)%nat by lia.
Qed.

Lemma loop_logical_failure net request f fuel :
  logical_failure (net request) = true ->
  exists message,
    Rotector.checkMultipleUsers_loop (S fuel) net request f
    = (Rotector.Failed (ServiceError message), []).
Proof.
  simpl. destruct (net request) as [m|response]; simpl; [done|].
  intros [Hok Hflag]%andb_true_iff. rewrite Hok.
  destruct (Rotector.json response) as [result|]; [|done].
  destruct (Rotector.success result), (Rotector.data result); simpl in *;
    try done; by eexists.
Qed.

Lemma completion_order_single env : Rotector.completion_order env 1 = [0%nat].
Proof. reflexivity. Qed.

(** A chunk of the pipeline is one batch: the lookup ends as its call of
    [checkMultipleUsers] does, a failure giving the empty record. *)
Lemma checkLotsOfUsers_single fuel env chunk :
  (0 < length chunk <= 50)%nat ->
  Rotector.checkLotsOfUsers fuel env chunk
  = match (Rotector.checkMultipleUsers fuel (Rotector.server env 0) chunk).1 with
    | Rotector.Fulfilled d => Resolved d
    | Rotector.Failed _ => Resolved ∅
    | Rotector.Looping _ => NeverSettles
    end.
Proof.
  intros Hlen.
  assert (batch_outcomes fuel env chunk
          = [(Rotector.checkMultipleUsers fuel (Rotector.server env 0) chunk).1]) as Ho.
  { unfold batch_outcomes. by rewrite batches_single. }
  destruct (Rotector.checkMultipleUsers fuel (Rotector.server env 0) chunk).1
    as [d|e|f] eqn:Hcall.
  - rewrite checkLotsOfUsers_resolves; rewrite Ho; [|by repeat constructor].
    cbn [length]. rewrite completion_order_single. simpl.
    unfold Rotector.Object_assign. by rewrite (right_id_L ∅ (∪)).
  - rewrite checkLotsOfUsers_resolves; rewrite Ho; [|by repeat constructor].
    cbn [length]. by rewrite completion_order_single.
  - apply (checkLotsOfUsers_hangs fuel env chunk f). rewrite Ho. left.
Qed.

Lemma lines_for_empty label chunk : lines_for label ∅ chunk = [].
Proof.
  induction chunk as [|x chunk IH]; [done|].
  unfold lines_for in *. simpl. by rewrite lookup_empty.
Qed.

Lemma missing_from_empty chunk : missing_from ∅ chunk = chunk.
Proof.
  induction chunk as [|x chunk IH]; [done|].
  unfold missing_from in *. simpl. rewrite lookup_empty. simpl. by f_equal.
Qed.

(** A success status whose envelope carries the error flag fails the batch
    at once, with the message of the service. *)
Lemma flagged_failure_fails :
  logical_failure (flagged_failure [1; 42] 0%nat) = true
  /\ Rotector.checkMultipleUsers 1 flagged_failure [1; 42]
     = (Rotector.Failed (ServiceError "internal error"), []).
Proof. split; reflexivity. Qed.

(** C5, as stated, fails.  Users 1 and 2 share the friend 42; the batch of
    the first source exhausts its retries against an unreachable service,
    the lookup of the second source is answered: the members of the failed
    batch are warned about and left out of the first source's sink, but 42
    is submitted again by the second source and ends the run in the run
    cache and in that source's sink. *)
Lemma failed_batch_member_resolved_later :
  let w := world_of 6 (down_at_first 5) in
  let outcome :=
    Index.main w
      [("1", mkStream [1; 42] Exhausted); ("2", mkStream [2; 42] Exhausted)] [] in
  (Rotector.checkMultipleUsers 6 unreachable [1; 42]).1
  = Rotector.Failed (NetworkError "ECONNREFUSED")
  /\ outcome.1.2 = Index.Live
  /\ Index.submitted <$> outcome.1.1 = [[[1; 42]]; [[2; 42]]]
  /\ Index.warnings <$> outcome.1.1 = [[1; 42]; []]
  /\ (fun l => Index.user_id <$> Index.rotectorWriter l) <$> outcome.1.1
     = [[]; [2; 42]]
  /\ Index.statusCache outcome.2 !! 42 = Some (answer 5 42).
Proof. repeat split; vm_compute; reflexivity. Qed.

(** C5, amended: when the batch of a flush fails (after a sixth failure in a
    row, or on a success envelope with the error flag), [flushLookup] does
    not throw: the call goes on, the run cache and the source's sink are as
    before, one warning is logged per member, and the members, being seen,
    are dropped if the stream delivers them again; a later flush whose lookup
    is answered is cached and written as usual.  (A later source that
    contains a member can submit it again.) *)
Theorem failed_batch_is_contained w label r l e
    (Hne : Index.pendingLookup l <> [])
    (Hlen : (length (Index.pendingLookup l) <= 50)%nat)
    (Hfail : (Rotector.checkMultipleUsers (Index.fuel w)
                (Rotector.server (Index.rotector w (Index.calls r)) 0)
                (Index.pendingLookup l)).1 = Rotector.Failed e) :
  let chunk := Index.pendingLookup l in
  let after := Index.flushLookup w label r l in
  (control_of after = Index.Live
   /\ run_of after = Index.mkRun (Index.statusCache r) (S (Index.calls r))
   /\ Index.rotectorWriter (locals_of after) = Index.rotectorWriter l
   /\ Index.warnings (locals_of after) = Index.warnings l ++ chunk
   /\ Index.pendingLookup (locals_of after) = []
   /\ Index.seenIds (locals_of after) = Index.seenIds l
   /\ Index.submitted (locals_of after) = Index.submitted l ++ [chunk]
   /\ Index.newlyChecked (locals_of after)
      = (Index.newlyChecked l + length chunk)%nat)
  /\ (forall x r2 l2, x ∈ Index.seenIds l2 ->
        Index.collect w label r2 l2 x = Index.At Index.Live r2 (Index.count_entry l2))
  /\ (forall r2 l2 results,
        Index.pendingLookup l2 <> [] ->
        Rotector.checkLotsOfUsers (Index.fuel w) (Index.rotector w (Index.calls r2))
          (Index.pendingLookup l2) = Resolved results ->
        let later := Index.flushLookup w label r2 l2 in
        control_of later = Index.Live
        /\ Index.statusCache (run_of later) = results ∪ Index.statusCache r2
        /\ Index.rotectorWriter (locals_of later)
           = Index.rotectorWriter l2 ++ lines_for label results (Index.pendingLookup l2))
  /\ (forall net fuel,
        (forall k, (k <= 5)%nat -> transient (net k) = true) ->
        (Rotector.checkMultipleUsers_loop (6 + fuel) net 0 0).1
        = Rotector.Failed (error_of (net 5%nat)))
  /\ (forall net fuel,
        logical_failure (net 0%nat) = true ->
        exists message,
          (Rotector.checkMultipleUsers_loop (S fuel) net 0 0).1
          = Rotector.Failed (ServiceError message)).
Proof.
  intros chunk after. split; [|split; [|split; [|split]]].
  - pose proof (flushLookup_spec w label r l Hne) as Hspec. simpl in Hspec.
    rewrite checkLotsOfUsers_single in Hspec
      by (split; [destruct (Index.pendingLookup l); [done|simpl; lia]|done]).
    rewrite Hfail in Hspec. subst after. rewrite Hspec. simpl.
    destruct (record_results_frame label ∅ (Index.pendingLookup l)
                (Index.add_newlyChecked (length (Index.pendingLookup l))
                   (Index.start_lookup (Index.pendingLookup l) l)))
      as (-> & -> & -> & _ & _ & -> & -> & ->).
    rewrite lines_for_empty, missing_from_empty, app_nil_r. simpl.
    rewrite batches_single
      by (split; [destruct (Index.pendingLookup l); [done|simpl; lia]|done]).
    rewrite (left_id_L ∅ (∪)). by destruct r.
  - intros x r2 l2 Hx. unfold Index.collect. simpl. by rewrite decide_True.
  - intros r2 l2 results Hne2 Hlookup later.
    pose proof (flushLookup_spec w label r2 l2 Hne2) as Hspec. simpl in Hspec.
    rewrite Hlookup in Hspec. subst later. rewrite Hspec. simpl.
    by destruct (record_results_frame label results (Index.pendingLookup l2)
                (Index.add_newlyChecked (length (Index.pendingLookup l2))
                   (Index.start_lookup (Index.pendingLookup l2) l2)))
      as (_ & _ & _ & _ & _ & _ & -> & _).
  - intros net fuel Hall. apply (loop_exhausts_retries net 5 0%nat 0 fuel); [done|].
    intros k Hk. by apply Hall.
  - intros net fuel Hlf.
    destruct (loop_logical_failure net 0%nat 0 fuel Hlf) as [message Hm].
    exists message. by rewrite Hm.
Qed.

(** The first source of the run above: the flush of [1; 42] against the
    unreachable service. *)
Lemma failed_batch_is_contained_witness :
  let w := world_of 6 (down_at_first 5) in
  let r := Index.mkRun ∅ 0 in
  let l := Index.push_pending 42 (Index.mark_seen 42 (Index.count_entry
             (Index.push_pending 1 (Index.mark_seen 1 (Index.count_entry Index.fresh))))) in
  control_of (Index.flushLookup w "friends:1" r l) = Index.Live
  /\ Index.rotectorWriter (locals_of (Index.flushLookup w "friends:1" r l)) = []
  /\ Index.warnings (locals_of (Index.flushLookup w "friends:1" r l)) = [1; 42].
Proof.
  intros w r l.
  assert (Index.pendingLookup l <> []) as Hne by done.
  assert (length (Index.pendingLookup l) <= 50)%nat as Hlen by (simpl; lia).
  assert ((Rotector.checkMultipleUsers (Index.fuel w)
             (Rotector.server (Index.rotector w (Index.calls r)) 0)
             (Index.pendingLookup l)).1
          = Rotector.Failed (NetworkError "ECONNREFUSED")) as Hfail
    by (vm_compute; reflexivity).
  destruct (failed_batch_is_contained w "friends:1" r l _ Hne Hlen Hfail)
    as ((H1 & _ & H3 & H4 & _) & _).
  split; [exact H1|]. split; [exact H3|exact H4].
Defined.

(* ===================================================================== *)
(** * Batch sizes in the pipeline *)
(* ===================================================================== *)

(** A full batch in front is the first batch. *)
Lemma batches_app_full (b rest : list Z) :
  length b = 50%nat -> Rotector.batches (b ++ rest) = b :: Rotector.batches rest.
Proof.
  intros Hb. apply list_eq. intros [|k].
  - rewrite batches_lookup, length_app. case_decide; [|lia].
    simpl. unfold Rotector.slice. rewrite drop_0. f_equal.
    replace (50 - 0)%nat with (length b) by lia. by rewrite take_app_length.
  - rewrite lookup_cons, !batches_lookup, length_app.
    repeat case_decide; try lia; [|done]. f_equal. unfold Rotector.slice.
    replace (S k * 50 + 50 - S k * 50)%nat with 50%nat by lia.
    replace (k * 50 + 50 - k * 50)%nat with 50%nat by lia.
    replace (S k * 50)%nat with (length b + k * 50)%nat by lia.
    by rewrite drop_app_add.
Qed.

(** Full batches followed by a last, shorter one are the batches of their
    concatenation. *)
Lemma batches_of_concat (bs : list (list Z)) (last : list Z) :
  Forall (fun b => length b = 50%nat) bs ->
  (length last <= 50)%nat ->
  Rotector.batches (concat bs ++ last)
  = bs ++ match last with [] => [] | _ => [last] end.
Proof.
  intros Hbs Hlast. induction Hbs as [|b bs Hb _ IH]; simpl.
  - destruct last as [|x last]; [done|]. apply batches_single. simpl in *. lia.
  - by rewrite <- app_assoc, batches_app_full, IH.
Qed.


Lemma streaming_fresh r : streaming r Index.fresh.
Proof. split; [constructor|]. split; [simpl; lia|done]. Qed.

Lemma collect_streaming w label r l x r' l' :
  streaming r l ->
  Index.collect w label r l x = Index.At Index.Live r' l' ->
  streaming r' l'.
Proof.
  intros (Hfull & Hshort & Hcount) Hc. apply collect_live in Hc.
  destruct Hc as [(_ & -> & ->)|[(_ & cached & _ & -> & ->)|
                 [(_ & _ & Hlen & -> & ->)|(_ & _ & Hlen & results & _ & -> & ->)]]];
    try done.
  assert (length (Index.pendingLookup l ++ [x]) = 50%nat) as H50.
  { unfold Index.LOOKUP_BATCH_SIZE in Hlen. rewrite length_app in *. simpl in *. lia. }
  destruct (record_results_frame label results (Index.pendingLookup l ++ [x])
              (Index.add_newlyChecked (length (Index.pendingLookup l ++ [x]))
                 (Index.start_lookup (Index.pendingLookup l ++ [x])
                    (Index.push_pending x (Index.mark_seen x (Index.count_entry l))))))
    as (_ & Hp & Hs & _ & _ & Hn & _).
  unfold streaming, submitted_ids. rewrite Hp, Hs, Hn. simpl.
  rewrite batches_single by lia. split; [|split; [lia|]].
  - apply Forall_app. split; [done|]. by repeat constructor.
  - rewrite concat_app, !length_app. simpl. rewrite app_nil_r, !length_app.
    unfold submitted_ids in Hcount. simpl. lia.
Qed.

(** A call that returns has submitted the batches of the ids it submitted,
    and counts them in [newlyChecked]. *)
Lemma processEntries_batches {Entry} w label (extractUserId : Entry -> Z) entryStream r r' l' :
  Index.processEntries w label extractUserId entryStream r = Index.At Index.Live r' l' ->
  Index.submitted l' = Rotector.batches (submitted_ids l')
  /\ Index.newlyChecked l' = length (submitted_ids l').
Proof.
  intros (r1 & l1 & Hfold & _ & Hflush)%processEntries_live.
  assert (streaming r1 l1) as (Hfull & Hshort & Hcount).
  { refine (foldl_collect_live_ind w label extractUserId streaming
              (yields entryStream) _ r Index.fresh r1 l1 (streaming_fresh r) Hfold).
    intros r2 l2 x r3 l3. apply collect_streaming. }
  apply flushLookup_live in Hflush as [(He & -> & ->)|(Hne & results & _ & -> & ->)].
  - split; [|done]. unfold submitted_ids.
    rewrite <- (app_nil_r (concat (Index.submitted l1))).
    rewrite batches_of_concat by (done || simpl; lia). by rewrite app_nil_r.
  - destruct (record_results_frame label results (Index.pendingLookup l1)
                (Index.add_newlyChecked (length (Index.pendingLookup l1))
                   (Index.start_lookup (Index.pendingLookup l1) l1)))
      as (_ & _ & Hs & _ & _ & Hn & _).
    unfold submitted_ids. rewrite Hs, Hn. simpl.
    assert (Rotector.batches (Index.pendingLookup l1) = [Index.pendingLookup l1]) as Hb.
    { apply batches_single. destruct (Index.pendingLookup l1); [done|simpl in *; lia]. }
    rewrite Hb, concat_app. simpl. rewrite app_nil_r. split.
    + rewrite batches_of_concat by (done || lia).
      by destruct (Index.pendingLookup l1).
    + rewrite length_app. unfold submitted_ids in Hcount. lia.
Qed.

(** A stream of ids that are new to the call and to the cache, against a
    verifier that answers only what it is asked: every id enters the buffer,
    in stream order. *)
Lemma foldl_collect_unseen {Entry} w (Hw : answers_only_asked w) label
    (extractUserId : Entry -> Z) entries : forall r l r' l',
  NoDup (extractUserId <$> entries) ->
  (forall x, x ∈ extractUserId <$> entries ->
     (x ∉ Index.seenIds l) /\ Index.statusCache r !! x = None) ->
  (forall y, y ∈ Index.pendingLookup l -> y ∈ Index.seenIds l) ->
  foldl (Index.collect_step w label extractUserId) (Index.At Index.Live r l) entries
  = Index.At Index.Live r' l' ->
  submitted_ids l' ++ Index.pendingLookup l'
  = (submitted_ids l ++ Index.pendingLookup l) ++ (extractUserId <$> entries).
Proof.
  induction entries as [|entry entries IH]; intros r l r' l' Hnd Hnew Hpend; simpl.
  { intros [= <- <-]. by rewrite app_nil_r. }
  apply NoDup_cons in Hnd as [Hx Hnd].
  destruct (Hnew (extractUserId entry) ltac:(left)) as [Hunseen Huncached].
  destruct (Index.collect w label r l (extractUserId entry)) as [c r1 l1] eqn:Hc.
  destruct c; [|by rewrite foldl_collect_stuck..].
  intros Hrest.
  apply collect_live in Hc.
  destruct Hc as [(Hseen & _)|[(_ & cached & Hcached & _)|
                 [(_ & _ & _ & -> & ->)|(_ & _ & _ & results & Hlookup & -> & ->)]]].
  - done.
  - by rewrite Huncached in Hcached.
  - rewrite (IH _ _ _ _ Hnd) with (3 := Hrest); simpl.
    + by rewrite <- !app_assoc.
    + intros y Hy. destruct (Hnew y ltac:(by right)) as [Hy1 Hy2]. split; [|done].
      intros [->%elem_of_singleton|?]%elem_of_union; done.
    + intros y [Hy| ->%list_elem_of_singleton]%elem_of_app.
      * apply elem_of_union_r. by apply Hpend.
      * apply elem_of_union_l. by apply elem_of_singleton.
  - set (chunk := Index.pendingLookup l ++ [extractUserId entry]) in *.
    set (pushed := Index.push_pending (extractUserId entry)
                     (Index.mark_seen (extractUserId entry) (Index.count_entry l))) in *.
    destruct (record_results_frame label results chunk
                (Index.add_newlyChecked (length chunk) (Index.start_lookup chunk pushed)))
      as (Hs & Hp & Hsub & _).
    rewrite (IH _ _ _ _ Hnd) with (3 := Hrest).
    + unfold submitted_ids. rewrite Hp, Hsub. simpl.
      rewrite concat_app, batches_concat. unfold chunk.
      by rewrite app_nil_r, <- !app_assoc.
    + intros y Hy. destruct (Hnew y ltac:(by right)) as [Hy1 Hy2].
      rewrite Hs. simpl. split.
      * intros [->%elem_of_singleton|?]%elem_of_union; done.
      * apply lookup_union_None. split; [|done].
        apply eq_None_not_Some. intros Hsome.
        apply (Hw _ _ _ Hlookup) in Hsome. unfold chunk in Hsome.
        apply elem_of_app in Hsome as [Hin| ->%list_elem_of_singleton]; [|done].
        by apply Hy1, Hpend.
    + rewrite Hp. simpl. by intros y Hy%elem_of_nil.
Qed.

Lemma processEntries_unseen {Entry} w (Hw : answers_only_asked w) label
    (extractUserId : Entry -> Z) entryStream r r' l' :
  NoDup (extractUserId <$> yields entryStream) ->
  (forall x, x ∈ extractUserId <$> yields entryStream ->
     Index.statusCache r !! x = None) ->
  Index.processEntries w label extractUserId entryStream r = Index.At Index.Live r' l' ->
  submitted_ids l' = extractUserId <$> yields entryStream.
Proof.
  intros Hnd Hnew (r1 & l1 & Hfold & _ & Hflush)%processEntries_live.
  assert (submitted_ids l1 ++ Index.pendingLookup l1
          = extractUserId <$> yields entryStream) as <-.
  { apply (foldl_collect_unseen w Hw label extractUserId (yields entryStream)
             r Index.fresh r1 l1 Hnd); [|by intros y Hy%elem_of_nil|done].
    intros x Hx. split; [apply not_elem_of_empty|by apply Hnew]. }
  apply flushLookup_live in Hflush as [(He & -> & ->)|(Hne & results & _ & -> & ->)].
  - by rewrite He, app_nil_r.
  - rewrite record_results_submitted. unfold submitted_ids. simpl.
    by rewrite concat_app, batches_concat.
Qed.

Lemma ids_from_NoDup first n : NoDup (ids_from first n).
Proof.
  unfold ids_from. apply NoDup_fmap_2; [|apply NoDup_seq].
  intros i j H. lia.
Qed.

(* ===================================================================== *)
(** * The friends stream *)
(* ===================================================================== *)

Lemma Number_example : UsersScraper.Number "7345807477" = 7345807477.
Proof. reflexivity. Qed.

(** Up to [2^53] [Number] is exact on decimal strings; the first integer
    that is not a double is rounded to its even neighbour. *)
Lemma nearest_double_exact n : n <= 2 ^ 53 -> UsersScraper.nearest_double n = n.
Proof.
  intros Hn. unfold UsersScraper.nearest_double.
  destruct (n <? 2 ^ 53) eqn:Hlt; [done|].
  apply Z.ltb_ge in Hlt. by replace n with (2 ^ 53) by lia.
Qed.

Lemma Number_rounds :
  UsersScraper.Number "9007199254740993" = 9007199254740992
  /\ UsersScraper.Number "9007199254740995" = 9007199254740996.
Proof. split; reflexivity. Qed.

Lemma streamFriends_events_head pagesLeft fuel pages userid :
  exists evs,
    (UsersScraper.streamFriends_events pagesLeft fuel pages userid).1
    = UsersScraper.Yield (UsersScraper.Number userid) :: evs
    /\ yields (UsersScraper.streamFriends pagesLeft fuel pages userid)
       = UsersScraper.Number userid :: UsersScraper.yielded evs.
Proof.
  unfold UsersScraper.streamFriends, UsersScraper.streamFriends_events.
  destruct (UsersScraper.streamFriends_loop pagesLeft fuel pages None) as [evs e].
  by exists evs.
Qed.

Lemma head_app_Some {A} (l k : list A) a :
  head l = Some a -> head (l ++ k) = Some a.
Proof. by destruct l. Qed.

(** A flush moves the buffer to the submissions; the queue is as before. *)
Lemma flushLookup_queue w label r l :
  queue (locals_of (Index.flushLookup w label r l)) = queue l.
Proof.
  destruct (decide (Index.pendingLookup l = [])) as [He|Hne].
  { by rewrite flushLookup_empty. }
  pose proof (flushLookup_spec w label r l Hne) as Hspec. simpl in Hspec.
  assert (queue (Index.start_lookup (Index.pendingLookup l) l) = queue l) as Hstart.
  { unfold queue, submitted_ids. simpl.
    by rewrite concat_app, batches_concat, app_nil_r. }
  destruct (Rotector.checkLotsOfUsers _ _ _) as [results|e|]; [|done|];
    rewrite Hspec; simpl; [|done].
  unfold queue in *. rewrite record_results_submitted.
  by destruct (record_results_frame label results (Index.pendingLookup l)
              (Index.add_newlyChecked (length (Index.pendingLookup l))
                 (Index.start_lookup (Index.pendingLookup l) l)))
    as (_ & -> & _).
Qed.

(** An entry adds its id at the end of the queue, or nothing. *)
Lemma collect_queue w label r l x :
  exists extra, queue (locals_of (Index.collect w label r l x)) = queue l ++ extra.
Proof.
  unfold Index.collect.
  destruct (decide (x ∈ Index.seenIds (Index.count_entry l))).
  { exists []. by rewrite app_nil_r. }
  destruct (Index.statusCache r !! x) as [cached|].
  { exists []. by rewrite app_nil_r. }
  exists [x]. case_decide; [rewrite flushLookup_queue|];
    unfold queue; simpl; by rewrite app_assoc.
Qed.

Lemma foldl_collect_queue {Entry} w label (extractUserId : Entry -> Z) entries :
  forall x,
  exists extra,
    queue (locals_of (foldl (Index.collect_step w label extractUserId) x entries))
    = queue (locals_of x) ++ extra.
Proof.
  induction entries as [|entry entries IH]; intros x; simpl.
  { exists []. by rewrite app_nil_r. }
  destruct (IH (Index.collect_step w label extractUserId x entry)) as [extra ->].
  destruct x as [[| |e] r l]; simpl; try by exists extra.
  destruct (collect_queue w label r l (extractUserId entry)) as [extra' ->].
  exists (extra' ++ extra). by rewrite app_assoc.
Qed.

(** The locals [processEntries] ends with: those after the last entry, or
    those after the flush that follows it. *)
Lemma processEntries_locals {Entry} w label (extractUserId : Entry -> Z) entryStream r :
  let streamed := foldl (Index.collect_step w label extractUserId)
                    (Index.At Index.Live r Index.fresh) (yields entryStream) in
  let after := Index.processEntries w label extractUserId entryStream r in
  locals_of after = locals_of streamed
  \/ exists r1, after = Index.flushLookup w label r1 (locals_of streamed).
Proof.
  unfold Index.processEntries.
  destruct (foldl _ _ _) as [[| |e] r1 l1]; simpl; try by left.
  destruct (ending entryStream); simpl; try by left.
  right. by exists r1.
Qed.

Lemma collect_marks_seen w label r l x :
  x ∈ Index.seenIds (locals_of (Index.collect w label r l x)).
Proof.
  unfold Index.collect.
  destruct (decide (x ∈ Index.seenIds (Index.count_entry l))) as [Hs|Hs]; [done|].
  destruct (Index.statusCache r !! x) as [cached|].
  { simpl. apply elem_of_union_l. by apply elem_of_singleton. }
  case_decide; [rewrite flushLookup_seen|]; simpl;
    apply elem_of_union_l; by apply elem_of_singleton.
Qed.

(* ===================================================================== *)
(** * The global 429 gate *)
(* ===================================================================== *)

Lemma gate_log_snoc l e :
  Rotector.gate_log (l ++ [e]) = Rotector.read_log (Rotector.gate_log l) e.
Proof. unfold Rotector.gate_log. by rewrite foldl_snoc. Qed.

Lemma request_respected i f s :
  halted s = false -> gate_respected s ->
  gate_respected (Rotector.request i f s) /\ halted (Rotector.request i f s) = false.
Proof.
  unfold gate_respected, halted. simpl. intros Hopen Hs.
  rewrite gate_log_snoc, Hs, Hopen. by destruct (Rotector.global429Lock s).
Qed.

Lemma await_lock_respected i t lk s :
  Rotector.global429Lock s = Some lk -> gate_respected s ->
  gate_respected (Rotector.await_lock i t lk s).
Proof. unfold gate_respected, halted. simpl. by intros ->. Qed.

Lemma waitForGlobal429_respected i f s :
  gate_respected s -> gate_respected (Rotector.waitForGlobal429_then_fetch i f s).
Proof.
  intros Hs. unfold Rotector.waitForGlobal429_then_fetch.
  destruct (Rotector.global429Lock s) as [lk|] eqn:Hlock.
  - by apply await_lock_respected.
  - apply request_respected; [|done]. unfold halted. by rewrite Hlock.
Qed.

Lemma activateGlobal429_respected i f waitMs s :
  gate_respected s -> gate_respected (Rotector.activateGlobal429 i f waitMs s).
Proof.
  intros Hs. unfold Rotector.activateGlobal429.
  destruct (Rotector.global429Lock s) as [lk|] eqn:Hlock.
  - by apply await_lock_respected.
  - unfold gate_respected, halted in *. simpl. rewrite Hlock in Hs.
    by rewrite gate_log_snoc, Hs.
Qed.

Lemma resume_respected s i :
  halted s = false -> gate_respected s ->
  gate_respected (Rotector.resume s i) /\ halted (Rotector.resume s i) = false.
Proof.
  intros Hopen Hs. unfold Rotector.resume.
  destruct (Rotector.tasks s !! i) as [[|f|f d|f|f|p]|]; try done.
  - by apply request_respected.
  - unfold Rotector.waitForGlobal429_then_fetch.
    unfold halted in Hopen. destruct (Rotector.global429Lock s) eqn:Hlock; [done|].
    apply request_respected; [|done]. unfold halted. by rewrite Hlock.
Qed.

Lemma foldl_resume_respected waiters : forall s,
  halted s = false -> gate_respected s ->
  gate_respected (foldl Rotector.resume s waiters)
  /\ halted (foldl Rotector.resume s waiters) = false.
Proof.
  induction waiters as [|i waiters IH]; intros s Hopen Hs; simpl; [done|].
  destruct (resume_respected s i Hopen Hs) as [H1 H2]. by apply IH.
Qed.

Lemma clear_lock_respected lk s :
  Rotector.global429Lock s = Some lk -> gate_respected s ->
  gate_respected (Rotector.clear_lock lk s)
  /\ halted (Rotector.clear_lock lk s) = false.
Proof.
  intros Hlock Hs. unfold Rotector.clear_lock.
  apply foldl_resume_respected; [done|].
  unfold gate_respected, halted in *. simpl. rewrite Hlock in Hs.
  by rewrite gate_log_snoc, Hs.
Qed.

Lemma step_respected t e s s' :
  gate_respected s -> Rotector.step t e s = Some s' -> gate_respected s'.
Proof.
  intros Hs. unfold Rotector.step. case_decide; [done|].
  assert (gate_respected (Rotector.at_time t s)) as Ht by done.
  destruct e as [i|i fetched|i|].
  - destruct (Rotector.tasks (Rotector.at_time t s) !! i) as [[|f|f d|f|f|p]|];
      try done.
    intros [= <-]. by apply waitForGlobal429_respected.
  - destruct (Rotector.tasks (Rotector.at_time t s) !! i) as [[|f|f d|f|f|p]|];
      try done.
    intros [= <-].
    destruct (Rotector.loop_body f fetched) as [d|e|f' w|f' w]; try done.
    by apply activateGlobal429_respected.
  - destruct (Rotector.tasks (Rotector.at_time t s) !! i) as [[|f|f d|f|f|p]|];
      try done.
    case_decide; [|done]. intros [= <-]. by apply waitForGlobal429_respected.
  - destruct (Rotector.global429Lock (Rotector.at_time t s)) as [lk|] eqn:Hlock;
      [|done].
    case_decide; [|done]. intros [= <-]. by apply clear_lock_respected.
Qed.

Lemma run_respected events : forall s s',
  gate_respected s -> Rotector.run events s = Some s' -> gate_respected s'.
Proof.
  induction events as [|[t e] events IH]; intros s s' Hs; simpl.
  { by intros [= <-]. }
  destruct (Rotector.step t e s) as [s1|] eqn:Hstep; [|done].
  apply IH. by eapply step_respected.
Qed.

Lemma boot_respected n : gate_respected (Rotector.boot n).
Proof. reflexivity. Qed.

Lemma read_log_None l : foldl Rotector.read_log None l = None.
Proof. induction l as [|e l IH]; [done|]. by destruct e. Qed.

(** Every request in an orderly log was made with the gate open, and every
    halt was started with the gate open. *)
Lemma gate_log_request before i after h :
  Rotector.gate_log (before ++ Rotector.Requested i :: after) = Some h ->
  Rotector.gate_log before = Some false.
Proof.
  unfold Rotector.gate_log. rewrite foldl_app. simpl.
  destruct (foldl Rotector.read_log (Some false) before) as [[|]|]; simpl;
    try done; by rewrite read_log_None.
Qed.

Lemma gate_log_halt before waitMs after h :
  Rotector.gate_log (before ++ Rotector.HaltStarted waitMs :: after) = Some h ->
  Rotector.gate_log before = Some false.
Proof.
  unfold Rotector.gate_log. rewrite foldl_app. simpl.
  destruct (foldl Rotector.read_log (Some false) before) as [[|]|]; simpl;
    try done; by rewrite read_log_None.
Qed.

Lemma loop_body_429 f response :
  Rotector.status response = 429 ->
  Rotector.loop_body f (Rotector.FetchResolves response)
  = Rotector.HaltThenRetry 0 (Rotector.retryAfter response * 1000 + 2500).
Proof.
  intros H. apply (loop_body_rate_limited f (Rotector.FetchResolves response)).
  simpl. by apply Z.eqb_eq.
Qed.

(** A 429 arrives while the gate is open: the observer starts the halt. *)
Lemma observe_open t i response s s' :
  Rotector.global429Lock s = None ->
  Rotector.status response = 429 ->
  Rotector.step t (Rotector.Settles i (Rotector.FetchResolves response)) s = Some s' ->
  let waitMs := Rotector.retryAfter response * 1000 + 2500 in
  (exists f, Rotector.tasks s !! i = Some (Rotector.Fetching f))
  /\ s' = Rotector.mkSystem t (Some (Rotector.mkLock (t + waitMs) [i]))
            (<[i := Rotector.AtGate_activate 0]> (Rotector.tasks s))
            (Rotector.log s ++ [Rotector.HaltStarted waitMs]).
Proof.
  intros Hlock H429. unfold Rotector.step. case_decide; [done|].
  cbn [Rotector.at_time Rotector.tasks].
  destruct (Rotector.tasks s !! i) as [[|f|f d|f|f|p]|] eqn:Hi; try done.
  rewrite (loop_body_429 f response H429). intros [= <-].
  split; [by exists f|]. unfold Rotector.activateGlobal429. simpl.
  by rewrite Hlock.
Qed.

(** A 429 arrives while the gate is halted: the observer joins the halt. *)
Lemma observe_halted t i response s s' lk :
  Rotector.global429Lock s = Some lk ->
  Rotector.status response = 429 ->
  Rotector.step t (Rotector.Settles i (Rotector.FetchResolves response)) s = Some s' ->
  (exists f, Rotector.tasks s !! i = Some (Rotector.Fetching f))
  /\ s' = Rotector.mkSystem t
            (Some (Rotector.mkLock (Rotector.lock_due lk) (Rotector.lock_waiters lk ++ [i])))
            (<[i := Rotector.AtGate_activate 0]> (Rotector.tasks s))
            (Rotector.log s).
Proof.
  intros Hlock H429. unfold Rotector.step. case_decide; [done|].
  cbn [Rotector.at_time Rotector.tasks].
  destruct (Rotector.tasks s !! i) as [[|f|f d|f|f|p]|] eqn:Hi; try done.
  rewrite (loop_body_429 f response H429). intros [= <-].
  split; [by exists f|]. unfold Rotector.activateGlobal429. simpl.
  by rewrite Hlock.
Qed.

Lemma run_observed_halted (rest : list Observation) : forall s s' lk,
  Rotector.global429Lock s = Some lk ->
  (forall o, o ∈ rest -> Rotector.status o.2 = 429) ->
  Rotector.run (observed <$> rest) s = Some s' ->
  Rotector.global429Lock s'
  = Some (Rotector.mkLock (Rotector.lock_due lk)
            (Rotector.lock_waiters lk ++ (observer <$> rest)))
  /\ Rotector.log s' = Rotector.log s
  /\ NoDup (observer <$> rest)
  /\ (forall j, j ∈ observer <$> rest ->
        Rotector.tasks s' !! j = Some (Rotector.AtGate_activate 0)
        /\ exists f, Rotector.tasks s !! j = Some (Rotector.Fetching f))
  /\ (forall j, j ∉ observer <$> rest ->
        Rotector.tasks s' !! j = Rotector.tasks s !! j).
Proof.
  induction rest as [|[[i t] response] rest IH]; intros s s' lk Hlock H429; simpl.
  { intros [= <-]. rewrite app_nil_r. destruct lk.
    split; [done|]. split; [done|]. split; [apply NoDup_nil_2|].
    split; [|done]. by intros j Hj%elem_of_nil. }
  destruct (Rotector.step t _ s) as [s1|] eqn:Hstep; [|done].
  apply (observe_halted t i response s s1 lk Hlock) in Hstep
    as [[f Hf] ->]; [|by apply (H429 (i, t, response)); left].
  intros Hrun.
  eapply IH in Hrun as (Hl & Hlog & Hnd & Hin & Hout);
    [|reflexivity|intros o Ho; apply H429; by right].
  simpl in *.
  assert (i ∉ observer <$> rest) as Hi.
  { intros [_ [f' Hf']]%Hin.
    rewrite list_lookup_insert_eq in Hf' by (by eapply lookup_lt_Some). done. }
  change (observer (i, t, response)) with i.
  split; [by rewrite Hl, <- app_assoc|]. split; [done|].
  split; [by apply NoDup_cons|]. split.
  - intros j [->|Hj]%elem_of_cons.
    + rewrite (Hout i Hi).
      rewrite list_lookup_insert_eq by (by eapply lookup_lt_Some).
      split; [done|by exists f].
    + destruct (Hin j Hj) as [Hj1 [f' Hj2]]. split; [done|].
      exists f'. rewrite list_lookup_insert_ne in Hj2; [done|].
      intros ->. done.
  - intros j Hj. apply not_elem_of_cons in Hj as [Hji Hj].
    rewrite (Hout j Hj). by rewrite list_lookup_insert_ne.
Qed.

(** The waiters of a cleared lock resume one after the other, each with its
    request. *)
Lemma foldl_resume_waiters waiters : forall s,
  Rotector.global429Lock s = None ->
  NoDup waiters ->
  (forall j, j ∈ waiters ->
     Rotector.tasks s !! j = Some (Rotector.AtGate_activate 0)) ->
  let s' := foldl Rotector.resume s waiters in
  Rotector.global429Lock s' = None
  /\ Rotector.now s' = Rotector.now s
  /\ Rotector.log s' = Rotector.log s ++ (Rotector.Requested <$> waiters)
  /\ (forall j, j ∈ waiters -> Rotector.tasks s' !! j = Some (Rotector.Fetching 0))
  /\ (forall j, j ∉ waiters -> Rotector.tasks s' !! j = Rotector.tasks s !! j).
Proof.
  induction waiters as [|i waiters IH]; intros s Hlock Hnd Hall; simpl.
  { rewrite app_nil_r. do 3 (split; [done|]). split; [|done].
    by intros j Hj%elem_of_nil. }
  apply NoDup_cons in Hnd as [Hi Hnd].
  pose proof (Hall i ltac:(left)) as Hti.
  assert (Rotector.resume s i = Rotector.request i 0 s) as ->.
  { unfold Rotector.resume, Rotector.waitForGlobal429_then_fetch.
    by rewrite Hti, Hlock. }
  destruct (IH (Rotector.request i 0 s)) as (H1 & H2 & H3 & H4 & H5); try done.
  { intros j Hj. simpl. rewrite list_lookup_insert_ne; [|by intros ->].
    apply Hall. by right. }
  split; [done|]. split; [done|]. split; [by rewrite H3; simpl; rewrite <- app_assoc|].
  split.
  - intros j [->|Hj]%elem_of_cons; [|by apply H4].
    rewrite (H5 i Hi). simpl.
    apply list_lookup_insert_eq. by eapply lookup_lt_Some.
  - intros j Hj. apply not_elem_of_cons in Hj as [Hji Hj].
    rewrite (H5 j Hj). simpl. by rewrite list_lookup_insert_ne.
Qed.

Lemma halts_snoc_start l waitMs :
  Rotector.halts (l ++ [Rotector.HaltStarted waitMs]) = S (Rotector.halts l).
Proof.
  unfold Rotector.halts. rewrite List.filter_app, length_app. simpl. lia.
Qed.

Lemma halts_cleared l waiters :
  Rotector.halts (l ++ Rotector.HaltCleared :: (Rotector.Requested <$> waiters))
  = Rotector.halts l.
Proof.
  unfold Rotector.halts. rewrite List.filter_app, length_app. simpl.
  assert (List.filter Rotector.is_halt_start (Rotector.Requested <$> waiters) = [])
    as -> by (by induction waiters).
  simpl. lia.
Qed.

(** While the gate is halted, whatever else happens short of the clearing,
    nothing is logged (no request, no further sleep) and the deadline stays;
    calls only join the waiters. *)
Lemma step_while_halted t e s s' lk :
  Rotector.global429Lock s = Some lk ->
  e <> Rotector.LockExpires ->
  Rotector.step t e s = Some s' ->
  Rotector.log s' = Rotector.log s
  /\ exists joined,
       Rotector.global429Lock s'
       = Some (Rotector.mkLock (Rotector.lock_due lk) (Rotector.lock_waiters lk ++ joined)).
Proof.
  intros Hlock He. unfold Rotector.step. case_decide; [done|].
  assert (forall i f,
            Rotector.waitForGlobal429_then_fetch i f (Rotector.at_time t s)
            = Rotector.await_lock i (Rotector.AtGate_wait f) lk (Rotector.at_time t s))
    as Hwait.
  { intros i f. unfold Rotector.waitForGlobal429_then_fetch. simpl. by rewrite Hlock. }
  assert (exists joined, Some lk
            = Some (Rotector.mkLock (Rotector.lock_due lk)
                      (Rotector.lock_waiters lk ++ joined))) as Hsame.
  { exists []. rewrite app_nil_r. by destruct lk. }
  destruct e as [i|i fetched|i|]; [| | |done];
    cbn [Rotector.at_time Rotector.tasks];
    destruct (Rotector.tasks s !! i) as [[|f|f d|f|f|p]|]; try done.
  - rewrite Hwait. intros [= <-]. split; [done|]. by exists [i].
  - intros [= <-].
    destruct (Rotector.loop_body f fetched) as [d|e|f' w|f' w]; simpl;
      rewrite ?Hlock; try done.
    unfold Rotector.activateGlobal429. simpl. rewrite Hlock.
    split; [done|]. by exists [i].
  - case_decide; [|done]. rewrite Hwait. intros [= <-]. split; [done|]. by exists [i].
Qed.

Lemma run_while_halted events : forall s s' lk,
  Rotector.global429Lock s = Some lk ->
  (forall t, (t, Rotector.LockExpires) ∉ events) ->
  Rotector.run events s = Some s' ->
  Rotector.log s' = Rotector.log s
  /\ exists joined,
       Rotector.global429Lock s'
       = Some (Rotector.mkLock (Rotector.lock_due lk) (Rotector.lock_waiters lk ++ joined)).
Proof.
  induction events as [|[t e] events IH]; intros s s' lk Hlock Hno; simpl.
  { intros [= <-]. split; [done|]. exists []. rewrite app_nil_r. by destruct lk. }
  destruct (Rotector.step t e s) as [s1|] eqn:Hstep; [|done].
  apply (step_while_halted t e s s1 lk Hlock) in Hstep as [Hlog [joined Hl]].
  - intros Hrun. eapply IH in Hrun as [Hlog' [joined' Hl']]; [|exact Hl|].
    + split; [by rewrite Hlog', Hlog|]. exists (joined ++ joined').
      simpl in Hl'. by rewrite Hl', app_assoc.
    + intros t' Hin. apply (Hno t'). by right.
  - intros ->. apply (Hno t). left.
Qed.

(** C3: a trip of the halted gate changes neither its deadline nor the log,
    the caller only joins the waiters; in every run of the calls no request
    is made, and no second sleep is started, while the gate is halted (from
    a halted gate, whatever happens before the clearing logs nothing and
    leaves the deadline); and when K calls observe a 429 one after the other
    with no clearing in between, the first starts the one cooldown of its own
    [waitMs], the deadline stays where the first put it, all K wait on that
    lock, the lock is not cleared before the deadline, and when it is cleared
    the K calls issue their next requests. *)
Theorem one_cooldown_for_all_observers :
  (forall i f waitMs s lk,
     Rotector.global429Lock s = Some lk ->
     let s' := Rotector.activateGlobal429 i f waitMs s in
     Rotector.global429Lock s'
     = Some (Rotector.mkLock (Rotector.lock_due lk) (Rotector.lock_waiters lk ++ [i]))
     /\ Rotector.log s' = Rotector.log s
     /\ Rotector.now s' = Rotector.now s)
  /\ (forall n events s,
        Rotector.run events (Rotector.boot n) = Some s ->
        gate_respected s
        /\ (forall before i after,
              Rotector.log s = before ++ Rotector.Requested i :: after ->
              Rotector.gate_log before = Some false)
        /\ (forall before waitMs after,
              Rotector.log s = before ++ Rotector.HaltStarted waitMs :: after ->
              Rotector.gate_log before = Some false))
  /\ (forall events s s' lk,
        Rotector.global429Lock s = Some lk ->
        (forall t, (t, Rotector.LockExpires) ∉ events) ->
        Rotector.run events s = Some s' ->
        Rotector.log s' = Rotector.log s
        /\ exists joined,
             Rotector.global429Lock s'
             = Some (Rotector.mkLock (Rotector.lock_due lk)
                       (Rotector.lock_waiters lk ++ joined)))
  /\ (forall s s' (first : Observation) rest,
        Rotector.global429Lock s = None ->
        (forall o, o ∈ first :: rest -> Rotector.status o.2 = 429) ->
        Rotector.run (observed <$> first :: rest) s = Some s' ->
        let waitMs := Rotector.retryAfter first.2 * 1000 + 2500 in
        let due := first.1.2 + waitMs in
        let observers := observer <$> first :: rest in
        Rotector.global429Lock s' = Some (Rotector.mkLock due observers)
        /\ Rotector.log s' = Rotector.log s ++ [Rotector.HaltStarted waitMs]
        /\ Rotector.halts (Rotector.log s') = S (Rotector.halts (Rotector.log s))
        /\ NoDup observers
        /\ (forall j, j ∈ observers ->
              Rotector.tasks s' !! j = Some (Rotector.AtGate_activate 0))
        /\ (forall t, t < due -> Rotector.step t Rotector.LockExpires s' = None)
        /\ (forall t, Rotector.now s' <= t -> due <= t ->
              exists s'',
                Rotector.step t Rotector.LockExpires s' = Some s''
                /\ Rotector.global429Lock s'' = None
                /\ Rotector.log s''
                   = Rotector.log s'
                     ++ Rotector.HaltCleared :: (Rotector.Requested <$> observers)
                /\ Rotector.halts (Rotector.log s'') = S (Rotector.halts (Rotector.log s))
                /\ forall j, j ∈ observers ->
                     Rotector.tasks s'' !! j = Some (Rotector.Fetching 0))).
Proof.
  split; [|split; [|split]].
  - intros i f waitMs s lk Hlock. unfold Rotector.activateGlobal429.
    by rewrite Hlock.
  - intros n events s Hrun.
    pose proof (run_respected events _ _ (boot_respected n) Hrun) as Hs.
    split; [done|]. unfold gate_respected in Hs. split.
    + intros before i after Hlog. rewrite Hlog in Hs. by eapply gate_log_request.
    + intros before waitMs after Hlog. rewrite Hlog in Hs. by eapply gate_log_halt.
  - apply run_while_halted.
  - intros s s' [[i0 t0] response0] rest Hopen H429 Hrun waitMs due observers.
    simpl in Hrun.
    destruct (Rotector.step t0 _ s) as [s1|] eqn:Hstep; [|done].
    apply (observe_open t0 i0 response0 s s1 Hopen) in Hstep
      as [[f0 Hf0] Hs1]; [|by apply (H429 (i0, t0, response0)); left].
    fold waitMs in Hs1. subst s1.
    eapply run_observed_halted in Hrun as (Hl & Hlog & Hnd & Hin & Hout);
      [|reflexivity|intros o Ho; apply H429; by right].
    simpl in Hl, Hlog, Hin, Hout.
    assert (i0 ∉ observer <$> rest) as Hi0.
    { intros [_ [f' Hf']]%Hin.
      rewrite list_lookup_insert_eq in Hf' by (by eapply lookup_lt_Some). done. }
    assert (NoDup observers) as Hndall by (by apply NoDup_cons).
    assert (forall j, j ∈ observers ->
              Rotector.tasks s' !! j = Some (Rotector.AtGate_activate 0)) as Hall.
    { intros j [->|Hj]%elem_of_cons; [|by apply Hin].
      change (observer (i0, t0, response0)) with i0.
      rewrite (Hout i0 Hi0). apply list_lookup_insert_eq. by eapply lookup_lt_Some. }
    split; [done|]. split; [done|]. split; [by rewrite Hlog, halts_snoc_start|].
    split; [done|]. split; [done|]. split.
    + intros t Ht. unfold Rotector.step. case_decide; [done|]. simpl.
      rewrite Hl. simpl. unfold due, waitMs in Ht. simpl in Ht.
      by rewrite decide_False by lia.
    + intros t Hnow Hdue.
      exists (foldl Rotector.resume
                (Rotector.mkSystem t None (Rotector.tasks s')
                   (Rotector.log s' ++ [Rotector.HaltCleared])) observers).
      destruct (foldl_resume_waiters observers
                  (Rotector.mkSystem t None (Rotector.tasks s')
                     (Rotector.log s' ++ [Rotector.HaltCleared])))
        as (H1 & _ & H3 & H4 & _); try done.
      split; [|split; [done|split; [|split; [|done]]]].
      * unfold Rotector.step. rewrite decide_False by lia. simpl. rewrite Hl. simpl.
        unfold due, waitMs in Hdue. simpl in Hdue. by rewrite decide_True by done.
      * rewrite H3. cbn [Rotector.log]. by rewrite <- app_assoc.
      * rewrite H3. cbn [Rotector.log]. rewrite <- app_assoc. cbn [app].
        rewrite halts_cleared, Hlog. apply halts_snoc_start.
Qed.

(** Three calls are in flight; the answers to calls 1, 0 and 2 are 429s with
    the hints 3 s, none and 60 s, arriving at 100, 120 and 5000 ms: one halt
    of 5500 ms, due at 5600 ms, on which all three wait. *)
Lemma one_cooldown_for_all_observers_witness :
  let started := Rotector.mkSystem 0 None (replicate 3 (Rotector.Fetching 0))
                   (Rotector.Requested <$> [0; 1; 2]%nat) in
  let observations : list Observation :=
    [(1%nat, 100, Rotector.mkResponse 429 (Some 3) None);
     (0%nat, 120, Rotector.mkResponse 429 None None);
     (2%nat, 5000, Rotector.mkResponse 429 (Some 60) None)] in
  Rotector.run [(0, Rotector.Starts 0); (0, Rotector.Starts 1); (0, Rotector.Starts 2)]
    (Rotector.boot 3) = Some started
  /\ exists s',
       Rotector.run (observed <$> observations) started = Some s'
       /\ Rotector.global429Lock s' = Some (Rotector.mkLock 5600 [1; 0; 2]%nat)
       /\ Rotector.halts (Rotector.log s') = 1%nat.
Proof.
  intros started observations. split; [reflexivity|].
  eexists. split; [reflexivity|].
  match goal with
  | |- Rotector.global429Lock ?s' = _ /\ _ =>
      destruct (proj2 (proj2 (proj2 one_cooldown_for_all_observers)) started s'
                  (1%nat, 100, Rotector.mkResponse 429 (Some 3) None)
                  [(0%nat, 120, Rotector.mkResponse 429 None None);
                   (2%nat, 5000, Rotector.mkResponse 429 (Some 60) None)])
        as (H1 & _ & H3 & _)
  end.
  - reflexivity.
  - intros o Ho. repeat (apply elem_of_cons in Ho as [->|Ho]; [reflexivity|]).
    by apply elem_of_nil in Ho.
  - reflexivity.
  - split; [exact H1|exact H3].
Defined.

(* ===================================================================== *)
(** * Counters, status line and reports *)
(* ===================================================================== *)

Lemma getMatchedUsers_add (m : gmap string nat) k c :
  Index.getMatchedUsers (<[k := (default 0 (m !! k) + c)%nat]> m)
  = (Index.getMatchedUsers m + c)%nat.
Proof.
  unfold Index.getMatchedUsers.
  destruct (m !! k) as [v|] eqn:Hk; simpl.
  - rewrite <- (insert_delete_eq m).
    rewrite map_fold_insert_L; [|intros; lia|apply lookup_delete_eq].
    rewrite (map_fold_delete_L _ _ k v m); [lia|intros; lia|done].
  - rewrite map_fold_insert_L; [lia|intros; lia|done].
Qed.

Lemma getMatchedUsers_empty : Index.getMatchedUsers ∅ = 0%nat.
Proof. unfold Index.getMatchedUsers. by rewrite map_fold_empty. Qed.


(** [writeStatus] adds one line, one to the breakdown, and one to the unsafe
    matches when the flag is not 0. *)
Lemma writeStatus_tallied label status l :
  Index.getMatchedUsers (Index.flagBreakdown l) = length (Index.rotectorWriter l) ->
  Index.unsafeMatches l
  = length (filter (fun line => Index.user_flagType line <> 0) (Index.rotectorWriter l)) ->
  let l' := Index.writeStatus label status l in
  Index.getMatchedUsers (Index.flagBreakdown l') = length (Index.rotectorWriter l')
  /\ Index.unsafeMatches l'
     = length (filter (fun line => Index.user_flagType line <> 0)
                 (Index.rotectorWriter l')).
Proof.
  intros Hm Hu. simpl. split.
  - replace (S (default 0%nat (Index.flagBreakdown l
               !! Rotector.flagTypeToString (Rotector.flagType status))))
      with (default 0%nat (Index.flagBreakdown l
               !! Rotector.flagTypeToString (Rotector.flagType status)) + 1)%nat by lia.
    rewrite getMatchedUsers_add, length_app, Hm. simpl. lia.
  - rewrite filter_app, length_app, <- Hu.
    rewrite filter_cons, filter_nil. simpl.
    destruct (decide (Rotector.flagType status = 0)) as [H0|H0].
    + rewrite decide_False by (intros H; by apply H). simpl. lia.
    + rewrite decide_True by done. simpl. lia.
Qed.

Lemma record_results_tallied label results chunk : forall l,
  Index.getMatchedUsers (Index.flagBreakdown l) = length (Index.rotectorWriter l) ->
  Index.unsafeMatches l
  = length (filter (fun line => Index.user_flagType line <> 0) (Index.rotectorWriter l)) ->
  let l' := Index.record_results label results chunk l in
  Index.getMatchedUsers (Index.flagBreakdown l') = length (Index.rotectorWriter l')
  /\ Index.unsafeMatches l'
     = length (filter (fun line => Index.user_flagType line <> 0)
                 (Index.rotectorWriter l')).
Proof.
  unfold Index.record_results.
  induction chunk as [|x chunk IH]; intros l Hm Hu; simpl; [done|].
  destruct (results !! x) as [status|].
  - destruct (writeStatus_tallied label status l Hm Hu) as [Hm' Hu'].
    by apply IH.
  - by apply IH.
Qed.

(** Every id of a chunk gets a line or a warning. *)
Lemma lines_and_missing label results chunk :
  (length (lines_for label results chunk) + length (missing_from results chunk))%nat
  = length chunk.
Proof.
  unfold lines_for, missing_from.
  induction chunk as [|x chunk IH]; simpl; [done|].
  change (list_omap _ _ ?f chunk) with (omap f chunk) in *.
  destruct (results !! x); simpl; lia.
Qed.

Lemma accounted_fresh : accounted Index.fresh.
Proof. by split. Qed.

Lemma flushLookup_accounted w label r l r' l' :
  accounted l ->
  Index.flushLookup w label r l = Index.At Index.Live r' l' ->
  accounted l'.
Proof.
  intros [Hq Hs Hm Hu Hc] Hflush.
  apply flushLookup_live in Hflush
    as [(_ & _ & ->)|(_ & results & _ & _ & ->)]; [done|].
  set (started := Index.add_newlyChecked (length (Index.pendingLookup l))
                    (Index.start_lookup (Index.pendingLookup l) l)).
  pose proof (record_results_frame label results (Index.pendingLookup l) started)
    as Hframe.
  cbv zeta in Hframe.
  destruct Hframe as (Hseen & Hpend & _ & Htot & Huniq & _ & Hrw & Hwarn).
  destruct (record_results_tallied label results (Index.pendingLookup l) started Hm Hu)
    as [Hm' Hu'].
  pose proof (lines_and_missing label results (Index.pendingLookup l)) as Hlen.
  split.
  - by rewrite Huniq, Hseen.
  - rewrite Huniq, Hrw, Hwarn, Hpend, !length_app. simpl. lia.
  - exact Hm'.
  - exact Hu'.
  - by rewrite Huniq, Htot.
Qed.

Lemma collect_accounted w label r l x r' l' :
  accounted l ->
  Index.collect w label r l x = Index.At Index.Live r' l' ->
  accounted l'.
Proof.
  intros [Hq Hs Hm Hu Hc]. unfold Index.collect.
  destruct (decide (x ∈ Index.seenIds (Index.count_entry l))) as [Hseen|Hseen].
  { intros [= <- <-]. split; simpl; try done. lia. }
  simpl in Hseen.
  assert (size ({[x]} ∪ Index.seenIds l) = S (size (Index.seenIds l))) as Hsize.
  { rewrite size_union by set_solver. by rewrite size_singleton. }
  destruct (Index.statusCache r !! x) as [cached|].
  - intros [= <- <-].
    destruct (writeStatus_tallied label cached
                (Index.mark_seen x (Index.count_entry l)) Hm Hu) as [Hm' Hu'].
    split; [| |exact Hm'|exact Hu'|]; simpl.
    + by rewrite Hsize, Hq.
    + rewrite length_app. simpl. lia.
    + lia.
  - assert (accounted (Index.push_pending x (Index.mark_seen x (Index.count_entry l))))
      as Hpushed.
    { split; simpl; try done.
      - by rewrite Hsize, Hq.
      - rewrite length_app. simpl. lia.
      - lia. }
    case_decide.
    + by apply flushLookup_accounted.
    + by intros [= <- <-].
Qed.

Lemma foldl_collect_accounted {Entry} w label (extractUserId : Entry -> Z) entries :
  forall r l r' l',
  accounted l ->
  foldl (Index.collect_step w label extractUserId) (Index.At Index.Live r l) entries
  = Index.At Index.Live r' l' ->
  accounted l'.
Proof.
  apply (foldl_collect_live_ind w label extractUserId (fun _ l => accounted l)).
  intros r l x r' l'. apply collect_accounted.
Qed.

Lemma flushLookup_total w label r l :
  Index.totalCollected (locals_of (Index.flushLookup w label r l))
  = Index.totalCollected l.
Proof.
  destruct (decide (Index.pendingLookup l = [])) as [He|Hne].
  { by rewrite flushLookup_empty. }
  pose proof (flushLookup_spec w label r l Hne) as Hspec. simpl in Hspec.
  destruct (Rotector.checkLotsOfUsers _ _ _) as [results|e|]; [|done|];
    rewrite Hspec; simpl; [|done].
  pose proof (record_results_frame label results (Index.pendingLookup l)
                (Index.add_newlyChecked (length (Index.pendingLookup l))
                   (Index.start_lookup (Index.pendingLookup l) l))) as Hframe.
  cbv zeta in Hframe. by destruct Hframe as (_ & _ & _ & -> & _).
Qed.

Lemma collect_total w label r l x :
  Index.totalCollected (locals_of (Index.collect w label r l x))
  = S (Index.totalCollected l).
Proof.
  unfold Index.collect.
  destruct (decide (x ∈ Index.seenIds (Index.count_entry l))); [done|].
  destruct (Index.statusCache r !! x); [done|].
  case_decide; [by rewrite flushLookup_total|done].
Qed.

Lemma foldl_collect_total {Entry} w label (extractUserId : Entry -> Z) entries :
  forall r l r' l',
  foldl (Index.collect_step w label extractUserId) (Index.At Index.Live r l) entries
  = Index.At Index.Live r' l' ->
  Index.totalCollected l' = (Index.totalCollected l + length entries)%nat.
Proof.
  induction entries as [|entry entries IH]; intros r l r' l'; simpl.
  { intros [= <- <-]. lia. }
  pose proof (collect_total w label r l (extractUserId entry)) as Ht.
  destruct (Index.collect w label r l (extractUserId entry)) as [[| |e] r1 l1];
    [|by rewrite foldl_collect_stuck..].
  intros Hfold%IH. simpl in Ht. lia.
Qed.

(** Every entry of a stream that was read to its end is marked seen. *)
Lemma foldl_collect_seen_all {Entry} w label (extractUserId : Entry -> Z) entries :
  forall r l r' l',
  foldl (Index.collect_step w label extractUserId) (Index.At Index.Live r l) entries
  = Index.At Index.Live r' l' ->
  forall entry, entry ∈ entries -> extractUserId entry ∈ Index.seenIds l'.
Proof.
  induction entries as [|first entries IH]; intros r l r' l' Hfold entry.
  { by intros ?%elem_of_nil. }
  simpl in Hfold.
  pose proof (collect_marks_seen w label r l (extractUserId first)) as Hfirst.
  destruct (Index.collect w label r l (extractUserId first)) as [[| |e] r1 l1] eqn:Hc;
    [|by rewrite foldl_collect_stuck in Hfold..].
  intros [->|Hin]%elem_of_cons; [|by eapply IH].
  pose proof (foldl_collect_seen_mono w label extractUserId entries
                (Index.At Index.Live r1 l1)) as Hmono.
  rewrite Hfold in Hmono. by apply Hmono.
Qed.

Lemma flushLookup_live_empty w label r l r' l' :
  Index.flushLookup w label r l = Index.At Index.Live r' l' ->
  Index.pendingLookup l' = [].
Proof.
  intros [(He & _ & ->)|(_ & results & _ & _ & ->)]%flushLookup_live; [done|].
  pose proof (record_results_frame label results (Index.pendingLookup l)
                (Index.add_newlyChecked (length (Index.pendingLookup l))
                   (Index.start_lookup (Index.pendingLookup l) l))) as Hframe.
  cbv zeta in Hframe. destruct Hframe as (_ & Hpending & _). exact Hpending.
Qed.



(** X2: The snapshot [emitStatus] reports between two entries of a stream:
    [matchedUsers] is the number of lines written so far, the queue holds
    fewer than 50 ids, and the [pending] figure of the status line is the
    queue plus the ids the verifier returned nothing for; [uniqueUsers] is
    never below [matchedUsers], so the clamp at 0 does not apply. *)
Theorem status_line_pending {Entry} w label (extractUserId : Entry -> Z)
    entries r r' l'
    (Hlive : foldl (Index.collect_step w label extractUserId)
               (Index.At Index.Live r Index.fresh) entries
             = Index.At Index.Live r' l') :
  let snapshot := Index.emitStatus l' in
  Index.matchedUsers snapshot = length (Index.rotectorWriter l')
  /\ (Index.matchedUsers snapshot <= Index.snapshot_uniqueUsers snapshot)%nat
  /\ (Index.snapshot_uniqueUsers snapshot <= Index.snapshot_totalCollected snapshot)%nat
  /\ Index.snapshot_totalCollected snapshot = length entries
  /\ (Index.queueSize snapshot < 50)%nat
  /\ Index.pendingMatches snapshot
     = Z.of_nat (Index.queueSize snapshot + length (Index.warnings l')).
Proof.
  pose proof (foldl_collect_accounted w label extractUserId _ _ _ _ _
                accounted_fresh Hlive) as [Hq Hs Hm Hu Hc].
  assert (streaming r' l') as (_ & Hshort & _).
  { refine (foldl_collect_live_ind w label extractUserId streaming
              entries _ r Index.fresh r' l' (streaming_fresh r) Hlive).
    intros r2 l2 x r3 l3. apply collect_streaming. }
  pose proof (foldl_collect_total w label extractUserId _ _ _ _ _ Hlive) as Ht.
  unfold Index.pendingMatches. simpl in *.
  split; [exact Hm|]. split; [lia|]. split; [exact Hc|]. split; [exact Ht|].
  split; [exact Hshort|]. lia.
Qed.

(** After the third of three new friends the status line reads 3 unique, 0
    matched, queue 3, pending 3. *)
Lemma status_line_pending_witness :
  let l' := Index.push_pending 43 (Index.mark_seen 43 (Index.count_entry
              (Index.push_pending 42 (Index.mark_seen 42 (Index.count_entry
                 (Index.push_pending 7 (Index.mark_seen 7
                    (Index.count_entry Index.fresh)))))))) in
  Index.pendingMatches (Index.emitStatus l') = 3
  /\ Index.formatStatusLine "friends:7" (Index.emitStatus l')
     = "friends:7 :: total 3 | unique 3 | matched 0 (unsafe 0) | queue 3 | pending 3".
Proof.
  intros l'. split; [|vm_compute; reflexivity].
  refine (proj2 (proj2 (proj2 (proj2 (proj2
    (status_line_pending (world_of 1 (fun _ => answering 0)) "friends:7"
       (fun i : Z => i) [7; 42; 43] (Index.mkRun ∅ 0) (Index.mkRun ∅ 0) l' _)))))).
  vm_compute. reflexivity.
Defined.

Lemma processEntries_returns {Entry} w label (extractUserId : Entry -> Z)
    entryStream r r' l' :
  Index.processEntries w label extractUserId entryStream r = Index.At Index.Live r' l' ->
  accounted l'
  /\ Index.totalCollected l' = length (yields entryStream)
  /\ Index.pendingLookup l' = [].
Proof.
  intros (r1 & l1 & Hfold & _ & Hflush)%processEntries_live.
  pose proof (foldl_collect_accounted w label extractUserId _ _ _ _ _
                accounted_fresh Hfold) as Hacc1.
  split; [by eapply flushLookup_accounted|].
  split; [|by eapply flushLookup_live_empty].
  pose proof (flushLookup_total w label r1 l1) as Ht.
  rewrite Hflush in Ht. simpl in Ht. rewrite Ht.
  by rewrite (foldl_collect_total w label extractUserId _ _ _ _ _ Hfold).
Qed.

Lemma processSource_returns w t r r' l' :
  Index.processSource w t r = Index.At Index.Live r' l' ->
  accounted l'
  /\ Index.totalCollected l' = length (ids_of t)
  /\ Index.pendingLookup l' = [].
Proof.
  destruct t as [friendId entryStream|groupId entryStream]; simpl;
    intros H%processEntries_returns; [done|].
  by rewrite length_fmap.
Qed.

(** A run whose sources all return has one set of locals for each target. *)
Lemma processSources_returns w targets : forall r ls r',
  Index.processSources w targets r = (ls, Index.Live, r') ->
  Forall2 (fun t l => exists r0 r1, Index.processSource w t r0 = Index.At Index.Live r1 l)
    targets ls.
Proof.
  induction targets as [|t targets IH]; intros r ls r'; simpl.
  { intros [= <- <-]. constructor. }
  destruct (Index.processSource w t r) as [[| |e] r1 l] eqn:Ht; [|done..].
  destruct (Index.processSources w targets r1) as [[ls1 c] r2] eqn:Hrest.
  intros [= <- -> <-]. constructor; [by exists r, r1|by eapply IH].
Qed.

Lemma getMatchedUsers_add_breakdown (aggregate flagBreakdown : gmap string nat) :
  Index.getMatchedUsers (Index.add_breakdown aggregate flagBreakdown)
  = (Index.getMatchedUsers aggregate + Index.getMatchedUsers flagBreakdown)%nat.
Proof.
  unfold Index.add_breakdown.
  apply (map_fold_weak_ind
           (fun acc m => Index.getMatchedUsers acc
                         = (Index.getMatchedUsers aggregate + Index.getMatchedUsers m)%nat)).
  - rewrite getMatchedUsers_empty. lia.
  - intros label count m acc Hnone IH.
    rewrite getMatchedUsers_add, IH.
    unfold Index.getMatchedUsers at 4.
    rewrite map_fold_insert_L; [|intros; lia|done].
    fold (Index.getMatchedUsers m). lia.
Qed.

Lemma summaries_sum w targets ls :
  Forall2 (fun t l => exists r0 r1, Index.processSource w t r0 = Index.At Index.Live r1 l)
    targets ls ->
  forall total aggregate,
  let summaries := zip_with (fun t l => Index.summarize t (Index.result l)) targets ls in
  length summaries = length targets
  /\ foldl (fun acc s => (acc + Index.totalUsers s)%nat) total summaries
     = (total + sum_list ((fun t => length (ids_of t)) <$> targets))%nat
  /\ Index.getMatchedUsers
       (foldl (fun aggregate summary =>
                 Index.add_breakdown aggregate (Index.summary_flagBreakdown summary))
              aggregate summaries)
     = (Index.getMatchedUsers aggregate
        + sum_list ((fun l => length (Index.rotectorWriter l)) <$> ls))%nat.
Proof.
  induction 1 as [|t l targets ls (r0 & r1 & Ht) _ IH]; intros total aggregate; simpl.
  { split; [done|]. split; lia. }
  apply processSource_returns in Ht as ([_ _ Hm _ _] & Htotal & _).
  destruct (IH (total + Index.totalCollected l)%nat
               (Index.add_breakdown aggregate (Index.flagBreakdown l)))
    as (Hlen & Hsum & Hagg).
  change (list_fmap _ _ ?f ?k) with (f <$> k).
  split; [by rewrite Hlen|]. split.
  - rewrite Hsum, Htotal. lia.
  - rewrite Hagg, getMatchedUsers_add_breakdown, Hm. lia.
Qed.

(** X3: [summary.json] of a run whose sources all return: it counts one source
    for each target, [totalIdsCollected] is the number of entries of all the
    streams, the aggregated flag breakdown sums to the number of lines in
    all the [rotector] files of the run, and [uniqueUsersMatched] is the size
    of the run cache. *)
Theorem summary_counts_lines w targets r
    (Hlive : (Index.processSources w targets r).1.2 = Index.Live) :
  let outcome := Index.processSources w targets r in
  exists summary,
    Index.summary_of_run targets outcome = Some summary
    /\ Index.sourcesAnalyzed summary = length targets
    /\ Index.totalIdsCollected summary
       = sum_list ((fun t => length (ids_of t)) <$> targets)
    /\ Index.getMatchedUsers (Index.summary_aggregate summary)
       = sum_list ((fun l => length (Index.rotectorWriter l)) <$> outcome.1.1)
    /\ Index.uniqueUsersMatched summary = size (Index.statusCache outcome.2).
Proof.
  intros outcome. subst outcome.
  destruct (Index.processSources w targets r) as [[ls c] r'] eqn:Hrun.
  simpl in Hlive. subst c.
  apply processSources_returns in Hrun.
  destruct (summaries_sum w targets ls Hrun 0%nat ∅) as (Hlen & Hsum & Hagg).
  eexists. split; [reflexivity|]. simpl.
  split; [exact Hlen|]. split; [exact Hsum|]. split; [|done].
  unfold Index.aggregateBreakdown. rewrite Hagg, getMatchedUsers_empty. lia.
Qed.

(** Users 1 and 2 have user 42 as a friend; the verifier flags everyone as
    unsafe: six entries, five lines (42 is looked up once and written for
    both sources), all five under UNSAFE. *)
Lemma summary_counts_lines_witness :
  let targets := [Index.Friends "1" (mkStream [1; 42; 43] Exhausted);
                  Index.Friends "2" (mkStream [2; 42; 42] Exhausted)] in
  let outcome := Index.processSources (world_of 1 (fun _ => answering 2)) targets
                   (Index.mkRun ∅ 0) in
  exists summary,
    Index.summary_of_run targets outcome = Some summary
    /\ Index.totalIdsCollected summary = 6%nat
    /\ Index.getMatchedUsers (Index.summary_aggregate summary) = 5%nat
    /\ Index.summary_aggregate summary !! "UNSAFE" = Some 5%nat.
Proof.
  intros targets outcome.
  destruct (summary_counts_lines (world_of 1 (fun _ => answering 2)) targets
              (Index.mkRun ∅ 0)) as (summary & Hsome & _ & Htotal & Hagg & _).
  { vm_compute. reflexivity. }
  exists summary. split; [exact Hsome|]. split; [exact Htotal|].
  split; [rewrite Hagg; vm_compute; reflexivity|].
  vm_compute in Hsome. injection Hsome as <-. vm_compute. reflexivity.
Defined.

(* ===================================================================== *)
(** * The run cache over a run *)
(* ===================================================================== *)

(** A flush whose chunk holds no cached id, against a verifier that answers
    only what it is asked, leaves every entry of the cache as it is. *)
Lemma flushLookup_cache_kept w (Hw : answers_only_asked w) label r l :
  (forall x, x ∈ Index.pendingLookup l -> Index.statusCache r !! x = None) ->
  Index.statusCache r ⊆ Index.statusCache (run_of (Index.flushLookup w label r l)).
Proof.
  intros Hun.
  destruct (decide (Index.pendingLookup l = [])) as [He|Hne].
  { by rewrite flushLookup_empty. }
  pose proof (flushLookup_spec w label r l Hne) as Hspec. simpl in Hspec.
  destruct (Rotector.checkLotsOfUsers _ _ _) as [results|e|] eqn:Hcall; [|done|];
    rewrite Hspec; simpl; [|done].
  apply map_union_subseteq_r, map_disjoint_spec.
  intros x v1 v2 Hres Hcached.
  rewrite (Hun x) in Hcached; [done|].
  by apply (Hw _ _ _ Hcall).
Qed.

Lemma collect_cache_kept w (Hw : answers_only_asked w) label r0 r l x :
  consistent r0 r l ->
  Index.statusCache r ⊆ Index.statusCache (run_of (Index.collect w label r l x)).
Proof.
  intros Hc. unfold Index.collect.
  destruct (decide (x ∈ Index.seenIds (Index.count_entry l))); [done|].
  destruct (Index.statusCache r !! x) as [cached|] eqn:Hx; [done|].
  case_decide; [|done].
  apply (flushLookup_cache_kept w Hw). simpl.
  intros y [Hy| ->%list_elem_of_singleton]%elem_of_app; [|done].
  by apply (c_pending_uncached _ _ _ Hc).
Qed.

Lemma foldl_collect_cache_kept {Entry} w (Hw : answers_only_asked w) label
    (extractUserId : Entry -> Z) r entries :
  Index.statusCache r
  ⊆ Index.statusCache
      (run_of (foldl (Index.collect_step w label extractUserId)
                 (Index.At Index.Live r Index.fresh) entries)).
Proof.
  induction entries as [|entry entries IH] using rev_ind; [done|].
  rewrite foldl_snoc.
  pose proof (foldl_collect_consistent w label extractUserId r entries
                (Index.At Index.Live r Index.fresh) (consistent_fresh r)) as Hc.
  destruct (foldl _ _ entries) as [[| |e] r1 l1]; simpl in *; try done.
  etrans; [exact IH|]. by eapply collect_cache_kept.
Qed.

Lemma processSource_cache_kept w (Hw : answers_only_asked w) t r :
  Index.statusCache r ⊆ Index.statusCache (run_of (Index.processSource w t r)).
Proof.
  assert (forall Entry label (extractUserId : Entry -> Z) entryStream,
            Index.statusCache r
            ⊆ Index.statusCache
                (run_of (Index.processEntries w label extractUserId entryStream r)))
    as Hall.
  { intros Entry label extractUserId entryStream. unfold Index.processEntries.
    pose proof (foldl_collect_cache_kept w Hw label extractUserId r
                  (yields entryStream)) as Hk.
    pose proof (foldl_collect_consistent w label extractUserId r (yields entryStream)
                  (Index.At Index.Live r Index.fresh) (consistent_fresh r)) as Hc.
    destruct (foldl _ _ _) as [[| |e] r1 l1]; simpl in *; try done.
    destruct (ending entryStream); simpl; try done.
    etrans; [exact Hk|].
    apply (flushLookup_cache_kept w Hw). apply (c_pending_uncached _ _ _ Hc). }
  destruct t; apply Hall.
Qed.

(** X4: The run cache over a run: an id that has an entry keeps one to the end
    of the run, whatever the verifier answers and however the run ends; and
    against a verifier that returns statuses only for the ids it is asked
    about, the entry itself is never replaced. *)
Theorem statusCache_only_grows w targets r :
  let r' := (Index.processSources w targets r).2 in
  dom (Index.statusCache r) ⊆ dom (Index.statusCache r')
  /\ (answers_only_asked w -> Index.statusCache r ⊆ Index.statusCache r').
Proof.
  revert r. induction targets as [|t targets IH]; intros r; [done|].
  cbv zeta. rewrite processSources_cons.
  pose proof (processSource_consistent w t r) as Hc.
  pose proof (processSource_cache_kept w) as Hk.
  destruct (Index.processSource w t r) as [c r1 l1] eqn:Ht. simpl in Hc.
  assert (dom (Index.statusCache r) ⊆ dom (Index.statusCache r1)) as Hdom.
  { intros x Hx%elem_of_dom. by apply elem_of_dom, (c_cache_grows _ _ _ Hc). }
  assert (answers_only_asked w -> Index.statusCache r ⊆ Index.statusCache r1) as Hsub.
  { intros Hw. specialize (Hk Hw t r). by rewrite Ht in Hk. }
  destruct c; simpl; [|done..].
  destruct (IH r1) as [Hdom' Hsub'].
  destruct (Index.processSources w targets r1) as [[ls c'] r2]; simpl in *.
  split; [by etrans|]. intros Hw. etrans; [by apply Hsub|by apply Hsub'].
Qed.

(* ===================================================================== *)
(** * A stream that fails *)
(* ===================================================================== *)

Lemma flushLookup_not_crashed w label r l e :
  control_of (Index.flushLookup w label r l) <> Index.Crashed e.
Proof.
  destruct (decide (Index.pendingLookup l = [])) as [He|Hne].
  { by rewrite flushLookup_empty. }
  pose proof (flushLookup_spec w label r l Hne) as Hspec. simpl in Hspec.
  destruct (Rotector.checkLotsOfUsers _ _ _) as [results|e'|]; [|done|];
    by rewrite Hspec.
Qed.

Lemma collect_not_crashed w label r l x e :
  control_of (Index.collect w label r l x) <> Index.Crashed e.
Proof.
  unfold Index.collect.
  destruct (decide (x ∈ Index.seenIds (Index.count_entry l))); [done|].
  destruct (Index.statusCache r !! x); [done|].
  case_decide; [apply flushLookup_not_crashed|done].
Qed.

Lemma foldl_collect_not_crashed {Entry} w label (extractUserId : Entry -> Z) entries e :
  forall r l,
  control_of (foldl (Index.collect_step w label extractUserId)
                (Index.At Index.Live r l) entries)
  <> Index.Crashed e.
Proof.
  induction entries as [|entry entries IH]; intros r l; simpl; [done|].
  pose proof (collect_not_crashed w label r l (extractUserId entry)) as Hc.
  destruct (Index.collect w label r l (extractUserId entry)) as [[| |e'] r1 l1];
    [apply IH|by rewrite foldl_collect_stuck|].
  by destruct (Hc e').
Qed.

(** Fewer entries than the buffer has room for: no lookup is started. *)
Lemma foldl_collect_short {Entry} w label (extractUserId : Entry -> Z) entries :
  forall r l,
  (length (Index.pendingLookup l) + length entries < 50)%nat ->
  exists l',
    foldl (Index.collect_step w label extractUserId) (Index.At Index.Live r l) entries
    = Index.At Index.Live r l'
    /\ Index.submitted l' = Index.submitted l.
Proof.
  induction entries as [|entry entries IH]; intros r l Hlen; simpl in *.
  { by exists l. }
  unfold Index.collect.
  destruct (decide (extractUserId entry ∈ Index.seenIds (Index.count_entry l))).
  { destruct (IH r (Index.count_entry l)) as (l' & -> & Hs); [simpl; lia|].
    exists l'. by rewrite Hs. }
  destruct (Index.statusCache r !! extractUserId entry) as [cached|].
  { destruct (IH r (Index.writeStatus label cached
                      (Index.mark_seen (extractUserId entry) (Index.count_entry l))))
      as (l' & -> & Hs); [simpl; lia|].
    exists l'. by rewrite Hs. }
  rewrite decide_False by (unfold Index.LOOKUP_BATCH_SIZE; simpl; rewrite length_app;
                           simpl; lia).
  destruct (IH r (Index.push_pending (extractUserId entry)
                    (Index.mark_seen (extractUserId entry) (Index.count_entry l))))
    as (l' & -> & Hs); [simpl; rewrite length_app; simpl; lia|].
  exists l'. by rewrite Hs.
Qed.

(** X5: The stream of a source throws (the scraper has used up its retries):
    [processEntries] does not reach its final flush, so the exception leaves
    the call with the ids still in the buffer, which have not been submitted
    and are not in the run cache; the only other way the call can stand is
    waiting for a lookup that does not settle.  When the stream threw before
    its fiftieth entry, no lookup was started at all. *)
Theorem stream_failure_drops_buffer {Entry} w label (extractUserId : Entry -> Z)
    entryStream r e
    (Hthrows : ending entryStream = Throws e) :
  let after := Index.processEntries w label extractUserId entryStream r in
  (control_of after = Index.Crashed e \/ control_of after = Index.Hung)
  /\ (control_of after = Index.Crashed e ->
      forall x, x ∈ Index.pendingLookup (locals_of after) ->
        x ∈ Index.seenIds (locals_of after)
        /\ (x ∉ submitted_ids (locals_of after))
        /\ Index.statusCache (run_of after) !! x = None)
  /\ ((length (yields entryStream) < 50)%nat ->
      control_of after = Index.Crashed e
      /\ run_of after = r
      /\ Index.submitted (locals_of after) = []).
Proof.
  intros after.
  pose proof (processEntries_consistent w label extractUserId entryStream r) as Hc.
  fold after in Hc.
  split; [|split].
  - subst after. unfold Index.processEntries. rewrite Hthrows.
    pose proof (foldl_collect_not_crashed w label extractUserId (yields entryStream))
      as Hnc.
    destruct (foldl _ _ _) as [[| |e'] r1 l1] eqn:Hfold; simpl; [by left|by right|].
    specialize (Hnc e' r Index.fresh). by rewrite Hfold in Hnc.
  - intros _ x Hx. split; [|split].
    + apply (c_seen _ _ _ Hc), elem_of_app. by right.
    + intros Hin.
      pose proof (c_nodup _ _ _ Hc) as Hnd.
      apply NoDup_app in Hnd as (_ & Hdisj & _). by apply (Hdisj x).
    + by apply (c_pending_uncached _ _ _ Hc).
  - intros Hshort. subst after. unfold Index.processEntries.
    destruct (foldl_collect_short w label extractUserId (yields entryStream)
                r Index.fresh) as (l' & -> & Hsub); [simpl; lia|].
    by rewrite Hthrows.
Qed.

(** The friends service fails after two friends of user 7 were delivered:
    the three ids collected are left in the buffer, unsubmitted. *)
Lemma stream_failure_drops_buffer_witness :
  let entryStream := mkStream [7; 42; 43] (Throws (HttpError 500)) in
  let after := Index.processEntries (world_of 1 (fun _ => answering 0)) "friends:7"
                 (fun i : Z => i) entryStream (Index.mkRun ∅ 0) in
  control_of after = Index.Crashed (HttpError 500)
  /\ Index.pendingLookup (locals_of after) = [7; 42; 43]
  /\ Index.submitted (locals_of after) = [].
Proof.
  intros entryStream after.
  destruct (proj2 (proj2 (stream_failure_drops_buffer
              (world_of 1 (fun _ => answering 0)) "friends:7" (fun i : Z => i)
              entryStream (Index.mkRun ∅ 0) (HttpError 500) eq_refl)))
    as (Hc & _ & Hs); [simpl; lia|].
  split; [exact Hc|]. split; [vm_compute; reflexivity|exact Hs].
Defined.

(** X6: A source that does not return ends the run: the sources before it have
    run, the targets after it are not started, the run stands as that source
    does (its exception goes to the [catch] of [main], or the process waits
    for ever), and no [summary.json] is written. *)
Theorem a_failed_source_ends_the_run w before t after r
    (Hbefore : (Index.processSources w before r).1.2 = Index.Live)
    (Hfails : control_of (Index.processSource w t (Index.processSources w before r).2)
              <> Index.Live) :
  let failed := Index.processSource w t (Index.processSources w before r).2 in
  let outcome := Index.processSources w (before ++ t :: after) r in
  outcome
  = ((Index.processSources w before r).1.1 ++ [locals_of failed],
     control_of failed, run_of failed)
  /\ length outcome.1.1 = S (length before)
  /\ Index.summary_of_run (before ++ t :: after) outcome = None.
Proof.
  intros failed outcome. subst outcome failed.
  rewrite processSources_app.
  destruct (Index.processSources w before r) as [[ls c] r1] eqn:Hrun.
  simpl in Hbefore. subst c. cbn [fst snd] in *.
  apply processSources_returns in Hrun. apply Forall2_length in Hrun.
  rewrite processSources_cons.
  destruct (Index.processSource w t r1) as [[| |e] r2 l]; [done|..];
    cbn [fst snd control_of run_of locals_of]; rewrite length_app; simpl;
    (split; [done|split; [lia|done]]).
Qed.

(** The friends service fails for the second of three users: the third is
    not processed. *)
Lemma a_failed_source_ends_the_run_witness :
  let w := world_of 1 (fun _ => answering 0) in
  let down := Index.Friends "2" (mkStream [2] (Throws (HttpError 500))) in
  let outcome :=
    Index.processSources w
      ([Index.Friends "1" (mkStream [1; 42] Exhausted)] ++ down
       :: [Index.Friends "3" (mkStream [3] Exhausted)]) (Index.mkRun ∅ 0) in
  outcome.1.2 = Index.Crashed (HttpError 500) /\ length outcome.1.1 = 2%nat.
Proof.
  intros w down outcome.
  destruct (a_failed_source_ends_the_run w
              [Index.Friends "1" (mkStream [1; 42] Exhausted)] down
              [Index.Friends "3" (mkStream [3] Exhausted)] (Index.mkRun ∅ 0))
    as (Heq & Hlen & _); [vm_compute; reflexivity|by vm_compute|].
  split; [|exact Hlen]. fold outcome in Heq. by rewrite Heq.
Defined.

(* ===================================================================== *)
(** * The retry loop: sleeps, failures and answers *)
(* ===================================================================== *)

Lemma loop_body_sleep f fetched f' waitMs :
  0 <= f <= 5 ->
  Rotector.loop_body f fetched = Rotector.SleepThenRetry f' waitMs ->
  f' = f + 1 /\ f' <= 5 /\ waitMs = Rotector.retryDelayMs f'.
Proof.
  intros Hf. unfold Rotector.loop_body, Rotector.MAX_HTTP_RETRIES.
  destruct fetched as [message|response].
  - destruct (Z.ltb_spec 5 (f + 1)); [done|]. intros [= <- <-]. lia.
  - destruct (Rotector.ok response).
    { destruct (Rotector.json response) as [result|]; [|done].
      by destruct (Rotector.success result), (Rotector.data result). }
    destruct (Rotector.status response =? 429); [done|].
    destruct (Z.ltb_spec 5 (f + 1)); [done|]. intros [= <- <-]. lia.
Qed.

Lemma loop_body_halt f fetched f' waitMs :
  Rotector.loop_body f fetched = Rotector.HaltThenRetry f' waitMs -> f' = 0.
Proof.
  unfold Rotector.loop_body.
  destruct fetched as [message|response].
  - by destruct (Rotector.MAX_HTTP_RETRIES <? f + 1).
  - destruct (Rotector.ok response).
    { destruct (Rotector.json response) as [result|]; [|done].
      by destruct (Rotector.success result), (Rotector.data result). }
    destruct (Rotector.status response =? 429); [by intros [= <- _]|].
    by destruct (Rotector.MAX_HTTP_RETRIES <? f + 1).
Qed.

Lemma loop_sleeps fuel net : forall request f,
  0 <= f <= 5 ->
  Forall (fun waitMs => waitMs ∈ [1000; 2000; 4000; 8000; 16000])
    (slept (Rotector.checkMultipleUsers_loop fuel net request f).2).
Proof.
  induction fuel as [|fuel IH]; intros request f Hf; [constructor|].
  rewrite loop_unfold.
  destruct (Rotector.loop_body f (net request)) as [d|e|f' waitMs|f' waitMs] eqn:Hbody;
    try constructor.
  - apply loop_body_sleep in Hbody as (-> & Hle & ->); [|done].
    assert (f = 0 \/ f = 1 \/ f = 2 \/ f = 3 \/ f = 4) as Hcases by lia.
    destruct Hcases as [->|[->|[->|[->| ->]]]]; vm_compute; repeat constructor.
  - apply IH. apply loop_body_sleep in Hbody; [lia|done].
  - apply loop_body_halt in Hbody as ->. by apply IH.
Qed.

(** X8: The backoff of [checkMultipleUsers]: whatever the service answers, every
    sleep between two requests of a call lasts 1, 2, 4, 8 or 16 seconds, so
    the cap of [MAX_RETRY_DELAY_MS] is never what [retryDelayMs] returns
    there. *)
Theorem backoff_sleeps_are_short fuel server userIds :
  Forall (fun waitMs => waitMs ∈ [1000; 2000; 4000; 8000; 16000]
                        /\ waitMs < Rotector.MAX_RETRY_DELAY_MS)
    (slept (Rotector.checkMultipleUsers fuel server userIds).2).
Proof.
  eapply Forall_impl; [apply (loop_sleeps fuel (server userIds) 0 0); lia|].
  intros waitMs Hin. split; [done|].
  unfold Rotector.MAX_RETRY_DELAY_MS.
  repeat (apply elem_of_cons in Hin as [->|Hin]; [lia|]).
  by apply elem_of_nil in Hin.
Qed.

Lemma not_transient_body f fetched :
  transient fetched = false ->
  match Rotector.loop_body f fetched with
  | Rotector.Return _ => True
  | Rotector.Throw e => retries_exhausted e = false
  | Rotector.SleepThenRetry _ _ => False
  | Rotector.HaltThenRetry f' _ => f' = 0
  end.
Proof.
  destruct fetched as [message|response]; simpl; [done|].
  destruct (Rotector.ok response); simpl.
  { intros _. destruct (Rotector.json response) as [result|]; [|done].
    by destruct (Rotector.success result), (Rotector.data result). }
  by intros ->%negb_false_iff.
Qed.

Lemma loop_fails_in_a_row fuel net : forall request f e,
  0 <= f ->
  (Z.to_nat f <= request)%nat ->
  (forall k, (k < Z.to_nat f)%nat -> transient (net (request - 1 - k)%nat) = true) ->
  (Rotector.checkMultipleUsers_loop fuel net request f).1 = Rotector.Failed e ->
  retries_exhausted e = true ->
  exists n,
    (n + 5 < request + fuel)%nat
    /\ (forall k, (k <= 5)%nat -> transient (net (n + k)%nat) = true)
    /\ e = error_of (net (n + 5)%nat).
Proof.
  induction fuel as [|fuel IH]; intros request f e Hf Hreq Hprev; [done|].
  rewrite loop_unfold.
  destruct (transient (net request)) eqn:Htr.
  - rewrite (loop_body_transient _ _ Htr). unfold Rotector.MAX_HTTP_RETRIES.
    destruct (Z.ltb_spec 5 (f + 1)) as [Hgt|Hle]; simpl.
    + intros [= <-] _. exists (request - 5)%nat.
      split; [lia|]. split; [|f_equal; f_equal; lia].
      intros k Hk. destruct (decide (k = 5%nat)) as [->|Hne].
      * by replace (request - 5 + 5)%nat with request by lia.
      * replace (request - 5 + k)%nat with (request - 1 - (4 - k))%nat by lia.
        apply Hprev. lia.
    + intros Hfail He.
      destruct (IH (S request) (f + 1) e) as (n & Hn & Hall & Heq);
        [lia|lia| |done|done|].
      * intros k Hk. destruct k as [|k].
        -- by replace (S request - 1 - 0)%nat with request by lia.
        -- replace (S request - 1 - S k)%nat with (request - 1 - k)%nat by lia.
           apply Hprev. lia.
      * exists n. split; [lia|done].
  - pose proof (not_transient_body f (net request) Htr) as Hbody.
    destruct (Rotector.loop_body f (net request)) as [d|e'|f' waitMs|f' waitMs];
      simpl; [done| |done|].
    + intros [= <-] He. by rewrite Hbody in He.
    + subst f'. intros Hfail He.
      destruct (IH (S request) 0 e) as (n & Hn & Hall & Heq);
        [lia|simpl; lia|simpl; lia|done|done|].
      exists n. split; [lia|done].
Qed.

(** X9: [checkMultipleUsers] gives up on the network, or on an HTTP status,
    only at the sixth failure in a row: six consecutive requests of the
    call, none of them answered by a success status or a 429, the last of
    which is the one the error reports. *)
Theorem fails_after_six_in_a_row fuel server userIds e
    (Hfails : (Rotector.checkMultipleUsers fuel server userIds).1 = Rotector.Failed e)
    (Hkind : retries_exhausted e = true) :
  exists n,
    (n + 5 < fuel)%nat
    /\ (forall k, (k <= 5)%nat -> transient (server userIds (n + k)%nat) = true)
    /\ e = error_of (server userIds (n + 5)%nat).
Proof.
  apply (loop_fails_in_a_row fuel (server userIds) 0 0 e); try done. simpl. lia.
Qed.

(** A service that cannot be reached: the call fails at its sixth request. *)
Lemma fails_after_six_in_a_row_witness :
  (Rotector.checkMultipleUsers 8 unreachable [1; 2]).1
  = Rotector.Failed (NetworkError "ECONNREFUSED")
  /\ exists n, (n + 5 < 8)%nat
       /\ NetworkError "ECONNREFUSED" = error_of (unreachable [1; 2] (n + 5)%nat).
Proof.
  split; [reflexivity|].
  destruct (fails_after_six_in_a_row 8 unreachable [1; 2]
              (NetworkError "ECONNREFUSED") eq_refl eq_refl) as (n & Hn & _ & He).
  by exists n.
Defined.

(** The answer a call of [checkMultipleUsers] returns is the data of a
    response it received. *)
Lemma loop_fulfilled fuel net : forall request f d,
  (Rotector.checkMultipleUsers_loop fuel net request f).1 = Rotector.Fulfilled d ->
  exists n response result,
    (request <= n < request + fuel)%nat
    /\ net n = Rotector.FetchResolves response
    /\ Rotector.ok response = true
    /\ Rotector.json response = Some result
    /\ Rotector.success result = true
    /\ Rotector.data result = Some d.
Proof.
  induction fuel as [|fuel IH]; intros request f d; [done|].
  rewrite loop_unfold.
  destruct (Rotector.loop_body f (net request)) as [d'|e|f' waitMs|f' waitMs] eqn:Hbody;
    cbn [fst]; [|done|..].
  - intros [= ->]. exists request.
    unfold Rotector.loop_body in Hbody.
    destruct (net request) as [message|response].
    { by destruct (Rotector.MAX_HTTP_RETRIES <? f + 1). }
    destruct (Rotector.ok response) eqn:Hok.
    + destruct (Rotector.json response) as [result|] eqn:Hjson; [|done].
      destruct (Rotector.success result) eqn:Hs, (Rotector.data result) eqn:Hd;
        try done.
      injection Hbody as ->. exists response, result. split; [lia|done].
    + destruct (Rotector.status response =? 429); [done|].
      by destruct (Rotector.MAX_HTTP_RETRIES <? f + 1).
  - intros (n & response & result & Hn & H)%IH. exists n, response, result.
    split; [lia|done].
  - intros (n & response & result & Hn & H)%IH. exists n, response, result.
    split; [lia|done].
Qed.

(** X10: What [checkMultipleUsers] resolves with is the [data] of a response the
    service gave to one of its requests, with a success status and the
    [success] flag set: no status is made up, and the data of a response
    without the flag is never returned. *)
Theorem fulfilled_by_a_success_response fuel server userIds d
    (Hfulfilled : (Rotector.checkMultipleUsers fuel server userIds).1
                  = Rotector.Fulfilled d) :
  exists n response result,
    (n < fuel)%nat
    /\ server userIds n = Rotector.FetchResolves response
    /\ Rotector.ok response = true
    /\ Rotector.json response = Some result
    /\ Rotector.success result = true
    /\ Rotector.data result = Some d.
Proof.
  apply loop_fulfilled in Hfulfilled as (n & response & result & Hn & H).
  exists n, response, result. split; [lia|done].
Qed.

(** The service answers at once: the call returns the data of that
    response. *)
Lemma fulfilled_by_a_success_response_witness :
  exists n response result,
    (n < 1)%nat
    /\ silent [1; 2] n = Rotector.FetchResolves response
    /\ Rotector.json response = Some result
    /\ Rotector.data result = Some ∅.
Proof.
  destruct (fulfilled_by_a_success_response 1 silent [1; 2] ∅ eq_refl)
    as (n & response & result & Hn & Hnet & _ & Hjson & _ & Hdata).
  by exists n, response, result.
Defined.

(* ===================================================================== *)
(** * The order in which the batches complete *)
(* ===================================================================== *)

Lemma NoDup_concat_disjoint {A} (bs : list (list A)) :
  NoDup (concat bs) ->
  forall i j b b' x, i <> j -> bs !! i = Some b -> bs !! j = Some b' ->
                     x ∈ b -> x ∉ b'.
Proof.
  induction bs as [|b0 bs IH]; intros Hnd i j b b' x Hij Hi Hj Hx; [done|].
  simpl in Hnd. apply NoDup_app in Hnd as (_ & Hdisj & Hrest).
  destruct i as [|i], j as [|j]; simpl in *; try done.
  - injection Hi as <-. intros Hx'. apply (Hdisj x Hx).
    apply elem_of_concat. exists b'. split; [by eapply list_elem_of_lookup_2|done].
  - injection Hj as <-. intros Hx'. apply (Hdisj x Hx').
    apply elem_of_concat. exists b. split; [by eapply list_elem_of_lookup_2|done].
  - apply (IH Hrest i j b b' x); try done. congruence.
Qed.

Lemma batch_outcomes_lookup fuel env ids i o :
  batch_outcomes fuel env ids !! i = Some o ->
  exists batch,
    Rotector.batches ids !! i = Some batch
    /\ o = (Rotector.checkMultipleUsers fuel (Rotector.server env i) batch).1.
Proof.
  unfold batch_outcomes. rewrite list_lookup_imap.
  destruct (Rotector.batches ids !! i) as [batch|]; [|done].
  intros [= <-]. by exists batch.
Qed.

(** X11: [checkLotsOfUsers] merges the answers of its batches into one record as
    the batches complete.  When the ids are distinct and every answer only
    has entries for the ids of its own batch, no two answers have a key in
    common, and the record does not depend on the order in which the
    batches complete. *)
Theorem completion_order_is_immaterial fuel servers completion completion' ids
    (Hdistinct : NoDup ids)
    (Hasked : forall i batch d k,
        Rotector.batches ids !! i = Some batch ->
        (Rotector.checkMultipleUsers fuel (servers i) batch).1 = Rotector.Fulfilled d ->
        is_Some (d !! k) -> k ∈ batch) :
  Rotector.checkLotsOfUsers fuel (Rotector.mkEnv servers completion) ids
  = Rotector.checkLotsOfUsers fuel (Rotector.mkEnv servers completion') ids.
Proof.
  set (env := Rotector.mkEnv servers completion).
  set (env' := Rotector.mkEnv servers completion').
  assert (batch_outcomes fuel env' ids = batch_outcomes fuel env ids) as Hsame by done.
  destruct (decide (Forall (fun o => still_looping o = false)
                      (batch_outcomes fuel env ids))) as [Hsettled|Hloops].
  - rewrite !checkLotsOfUsers_resolves by (by rewrite ?Hsame).
    rewrite Hsame. f_equal.
    set (outcomes := batch_outcomes fuel env ids) in *.
    assert (forall i j d d' k,
              outcomes !! i = Some (Rotector.Fulfilled d) ->
              outcomes !! j = Some (Rotector.Fulfilled d') ->
              is_Some (d !! k) -> is_Some (d' !! k) -> i = j) as Hone.
    { intros i j d d' k Hi Hj Hk Hk'.
      destruct (decide (i = j)) as [|Hne]; [done|exfalso].
      apply batch_outcomes_lookup in Hi as (b & Hb & Hd).
      apply batch_outcomes_lookup in Hj as (b' & Hb' & Hd').
      rewrite <- (batches_concat ids) in Hdistinct.
      apply (NoDup_concat_disjoint _ Hdistinct i j b b' k Hne Hb Hb').
      - by apply (Hasked i b d k).
      - by apply (Hasked j b' d' k). }
    assert (forall order order' k v,
              (forall i, i ∈ order <-> i ∈ order') ->
              foldl (fun userStatuses i =>
                       match outcomes !! i with
                       | Some (Rotector.Fulfilled d) => Rotector.Object_assign userStatuses d
                       | _ => userStatuses
                       end) ∅ order !! k = Some v ->
              foldl (fun userStatuses i =>
                       match outcomes !! i with
                       | Some (Rotector.Fulfilled d) => Rotector.Object_assign userStatuses d
                       | _ => userStatuses
                       end) ∅ order' !! k = Some v) as Hinto.
    { intros order order' k v Hperm Hv.
      apply merge_lookup in Hv as [Hv|(i & d & Hi & Ho & Hd)];
        [by rewrite lookup_empty in Hv|].
      destruct (merge_covers outcomes order' k ∅) as [v' Hv'].
      { right. exists i, d. split; [by apply Hperm|]. by rewrite Hd. }
      rewrite Hv'. f_equal.
      apply merge_lookup in Hv' as [Hv'|(j & d' & Hj & Ho' & Hd')];
        [by rewrite lookup_empty in Hv'|].
      assert (i = j) as <- by (by eapply Hone).
      rewrite Ho in Ho'. injection Ho' as <-. congruence. }
    assert (forall i, i ∈ Rotector.completion_order env (length outcomes)
                      <-> i ∈ Rotector.completion_order env' (length outcomes)) as Hperm.
    { intros i. by rewrite !completion_order_covers. }
    apply map_eq. intros k.
    destruct (foldl _ ∅ (Rotector.completion_order env (length outcomes)) !! k)
      as [v|] eqn:Hv.
    + symmetry. by apply (Hinto _ _ k v Hperm).
    + destruct (foldl _ ∅ (Rotector.completion_order env' (length outcomes)) !! k)
        as [v'|] eqn:Hv'; [|done].
      apply (Hinto (Rotector.completion_order env' (length outcomes))
               (Rotector.completion_order env (length outcomes)) k v') in Hv';
        [congruence|].
      intros i. by rewrite Hperm.
  - apply not_Forall_Exists in Hloops; [|apply _].
    apply Exists_exists in Hloops as (o & Ho & Hloop).
    destruct o as [d|e|f]; try by destruct Hloop.
    rewrite (checkLotsOfUsers_hangs fuel env ids f Ho).
    rewrite <- Hsame in Ho.
    by rewrite (checkLotsOfUsers_hangs fuel env' ids f Ho).
Qed.

(** Sixty ids in two batches that are answered: the second batch completing
    first gives the same record. *)
Lemma completion_order_is_immaterial_witness :
  Rotector.checkLotsOfUsers 1 (Rotector.mkEnv (fun _ => answering 0) (fun i => i))
    (ids_from 1 60)
  = Rotector.checkLotsOfUsers 1
      (Rotector.mkEnv (fun _ => answering 0) (fun i => (1 - i)%nat)) (ids_from 1 60).
Proof.
  apply completion_order_is_immaterial; [apply ids_from_NoDup|].
  intros i batch d k _ Hd Hk.
  unfold Rotector.checkMultipleUsers in Hd. simpl in Hd. injection Hd as <-.
  by apply (answer_lookup 0).
Defined.

(* ===================================================================== *)
(** * Flag labels in range *)
(* ===================================================================== *)

(** X12: Flag levels 0 to 6: [flagTypeToEnum] and the numeric value of the enum
    are inverse to each other, [flagTypeToString] gives the name of the enum
    member, distinct levels get distinct labels, and the label is "UNKNOWN"
    exactly for the levels outside 0 to 6. *)
Theorem flag_labels_round_trip :
  (forall s, Rotector.flagTypeToEnum (Rotector.UserFlagStatus_value s) = inr s)
  /\ (forall f s, Rotector.flagTypeToEnum f = inr s <->
        (Rotector.UserFlagStatus_value s = f))
  /\ (forall s, Rotector.flagTypeToString (Rotector.UserFlagStatus_value s)
                = Rotector.UserFlagStatus_name s)
  /\ (forall f g, 0 <= f <= 6 -> 0 <= g <= 6 ->
        Rotector.flagTypeToString f = Rotector.flagTypeToString g -> f = g)
  /\ (forall f, Rotector.flagTypeToString f = "UNKNOWN" <-> (f < 0 \/ 6 < f)).
Proof.
  assert (forall f, 0 <= f <= 6 ->
            f = 0 \/ f = 1 \/ f = 2 \/ f = 3 \/ f = 4 \/ f = 5 \/ f = 6) as Hcases
    by (intros; lia).
  split; [by intros []|]. split; [|split; [by intros []|split]].
  - intros f s. split.
    + destruct (decide (0 <= f <= 6)) as [Hin|Hout].
      * destruct (Hcases f Hin) as [->|[->|[->|[->|[->|[->| ->]]]]]];
          by intros [= <-].
      * rewrite flagTypeToEnum_out_of_range by lia. done.
    + intros <-. by destruct s.
  - intros f g Hf Hg.
    destruct (Hcases f Hf) as [->|[->|[->|[->|[->|[->| ->]]]]]];
      destruct (Hcases g Hg) as [->|[->|[->|[->|[->|[->| ->]]]]]];
      by vm_compute.
  - intros f. split.
    + intros Hu. destruct (decide (0 <= f <= 6)) as [Hin|Hout]; [|lia].
      destruct (Hcases f Hin) as [->|[->|[->|[->|[->|[->| ->]]]]]];
        by vm_compute in Hu.
    + intros Hout. by apply flagTypeToString_out_of_range.
Qed.

(* ===================================================================== *)
(** * The friends scraper *)
(* ===================================================================== *)

Lemma fetchFriendsPage_loop_from fuel net : forall attempt,
  (attempt <= 4)%nat ->
  (5 <= attempt + fuel)%nat ->
  exists n,
    (attempt <= n <= 4)%nat
    /\ (forall k, (attempt <= k < n)%nat -> page_failing (net k) = true)
    /\ (UsersScraper.fetchFriendsPage_loop fuel net attempt).2
       = (fun k => UsersScraper.backoffMs (Z.of_nat (k + 1))) <$> seq attempt (n - attempt)
    /\ (UsersScraper.fetchFriendsPage_loop fuel net attempt).1
       = (if page_failing (net n) then Rejected (page_error (net n))
          else page_answer (net n))
    /\ (page_failing (net n) = true -> n = 4%nat).
Proof.
  induction fuel as [|fuel IH]; intros attempt Hle Hfuel; [lia|].
  simpl. unfold UsersScraper.MAX_HTTP_RETRIES.
  assert (forall p : Promise UsersScraper.FriendResponse * list Z,
            (let '(p0, ws) := p in
             (p0, UsersScraper.backoffMs (Z.of_nat (attempt + 1)) :: ws))
            = (p.1, UsersScraper.backoffMs (Z.of_nat (attempt + 1)) :: p.2))
    as Hlet by (by intros []).
  destruct (page_failing (net attempt)) eqn:Hfail.
  - destruct (decide (attempt = 4%nat)) as [->|Hne].
    + exists 4%nat. rewrite Hfail. split; [lia|]. split; [intros; lia|].
      destruct (net 4%nat) as [message|status body]; simpl in *; [done|].
      apply negb_true_iff in Hfail. by rewrite Hfail.
    + destruct (IH (S attempt)) as (n & Hn & Hall & Hws & Hp & Hlast); [lia|lia|].
      exists n. split; [lia|]. split.
      { intros k Hk. destruct (decide (k = attempt)) as [->|?]; [done|].
        apply Hall. lia. }
      replace (n - attempt)%nat with (S (n - S attempt)) by lia.
      destruct (net attempt) as [message|status body]; simpl in Hfail.
      * rewrite decide_False by lia. rewrite Hlet. cbn [fst snd].
        by rewrite Hws, Hp.
      * apply negb_true_iff in Hfail. rewrite Hfail.
        rewrite decide_False by lia. rewrite Hlet. cbn [fst snd].
        by rewrite Hws, Hp.
  - exists attempt. rewrite Hfail. split; [lia|]. split; [intros; lia|].
    rewrite Nat.sub_diag.
    destruct (net attempt) as [message|status body]; simpl in *; [done|].
    apply negb_false_iff in Hfail. rewrite Hfail. by destruct body.
Qed.

(** X13: [fetchFriendsPage] makes at most five requests for a page: it settles
    with the first answer that carries a success status, after the waits of
    2, 4, 8 and 16 seconds that follow the failed attempts before it, and
    rejects with the error of the fifth answer when all five failed; a 429
    is a failed attempt like any other. *)
Theorem fetchFriendsPage_five_requests fuel pages cursor (Hfuel : (5 <= fuel)%nat) :
  exists n,
    (n <= 4)%nat
    /\ (forall k, (k < n)%nat -> page_failing (pages cursor k) = true)
    /\ (UsersScraper.fetchFriendsPage fuel pages cursor).2
       = take n [2000; 4000; 8000; 16000]
    /\ (UsersScraper.fetchFriendsPage fuel pages cursor).1
       = (if page_failing (pages cursor n) then Rejected (page_error (pages cursor n))
          else page_answer (pages cursor n))
    /\ (page_failing (pages cursor n) = true -> n = 4%nat).
Proof.
  destruct (fetchFriendsPage_loop_from fuel (pages cursor) 0) as (n & Hn & Hall & Hws & Hp);
    [lia|lia|].
  exists n. split; [lia|]. split; [intros k Hk; apply Hall; lia|].
  split; [|exact Hp].
  unfold UsersScraper.fetchFriendsPage. rewrite Hws, Nat.sub_0_r.
  assert (n = 0 \/ n = 1 \/ n = 2 \/ n = 3 \/ n = 4)%nat as Hcases by lia.
  by destruct Hcases as [->|[->|[->|[->| ->]]]].
Qed.

(** A page that answers 429 twice and then delivers: two waits, then the
    page. *)
Lemma fetchFriendsPage_five_requests_witness :
  let pages : UsersScraper.Pages := fun _ k =>
    if (k <? 2)%nat then UsersScraper.FetchResolves 429 None
    else UsersScraper.FetchResolves 200
           (Some (UsersScraper.mkFriendResponse None [] None)) in
  UsersScraper.fetchFriendsPage 5 pages None
  = (Resolved (UsersScraper.mkFriendResponse None [] None), [2000; 4000])
  /\ exists n, (n <= 4)%nat
       /\ (UsersScraper.fetchFriendsPage 5 pages None).2
          = take n [2000; 4000; 8000; 16000].
Proof.
  intros pages. split; [reflexivity|].
  destruct (fetchFriendsPage_five_requests 5 pages None) as (n & Hn & _ & Hws & _);
    [lia|].
  by exists n.
Defined.

Lemma streamFriends_loop_unfold pagesLeft fuel pages cursor :
  UsersScraper.streamFriends_loop (S pagesLeft) fuel pages cursor
  = match (UsersScraper.fetchFriendsPage fuel pages cursor).1 with
    | Resolved page =>
        let here := UsersScraper.FetchPage cursor
                    :: (UsersScraper.Yield ∘ UsersScraper.id
                        <$> UsersScraper.PageItems page) in
        if UsersScraper.truthy (UsersScraper.NextCursor page) then
          (here ++ (UsersScraper.streamFriends_loop pagesLeft fuel pages
                      (UsersScraper.NextCursor page)).1,
           (UsersScraper.streamFriends_loop pagesLeft fuel pages
              (UsersScraper.NextCursor page)).2)
        else (here, Exhausted)
    | Rejected e => ([UsersScraper.FetchPage cursor], Throws e)
    | NeverSettles => ([UsersScraper.FetchPage cursor], Stalls)
    end.
Proof.
  simpl. destruct (UsersScraper.fetchFriendsPage fuel pages cursor).1 as [page|e|];
    try done.
  destruct (UsersScraper.truthy (UsersScraper.NextCursor page)); [|done].
  by destruct (UsersScraper.streamFriends_loop pagesLeft fuel pages
                 (UsersScraper.NextCursor page)).
Qed.

Lemma yielded_page (items : list UsersScraper.PageItem) :
  UsersScraper.yielded (UsersScraper.Yield ∘ UsersScraper.id <$> items)
  = UsersScraper.id <$> items.
Proof.
  unfold UsersScraper.yielded.
  induction items as [|item items IH]; [done|]. simpl. by f_equal.
Qed.

Lemma requested_page (items : list UsersScraper.PageItem) :
  requested (UsersScraper.Yield ∘ UsersScraper.id <$> items) = [].
Proof. unfold requested. by induction items as [|item items IH]. Qed.

(** The pages a walk asks for: each at the cursor the page before it
    returned. *)
Lemma streamFriends_loop_walk pagesLeft fuel pages : forall cursor,
  let evs := (UsersScraper.streamFriends_loop pagesLeft fuel pages cursor).1 in
  let e := (UsersScraper.streamFriends_loop pagesLeft fuel pages cursor).2 in
  UsersScraper.yielded evs = concat (page_ids fuel pages <$> requested evs)
  /\ (pagesLeft <> 0%nat -> head (requested evs) = Some cursor)
  /\ (forall i c c',
        requested evs !! i = Some c -> requested evs !! S i = Some c' ->
        exists page,
          (UsersScraper.fetchFriendsPage fuel pages c).1 = Resolved page
          /\ UsersScraper.NextCursor page = c'
          /\ UsersScraper.truthy c' = true)
  /\ (e = Exhausted ->
      exists c page,
        last (requested evs) = Some c
        /\ (UsersScraper.fetchFriendsPage fuel pages c).1 = Resolved page
        /\ UsersScraper.truthy (UsersScraper.NextCursor page) = false)
  /\ (forall err, e = Throws err ->
      exists c,
        last (requested evs) = Some c
        /\ (UsersScraper.fetchFriendsPage fuel pages c).1 = Rejected err).
Proof.
  induction pagesLeft as [|pagesLeft IH]; intros cursor.
  { simpl. split; [done|]. split; [done|]. split; [by intros i c c' ?|]. done. }
  cbv zeta. rewrite streamFriends_loop_unfold.
  destruct (UsersScraper.fetchFriendsPage fuel pages cursor).1 as [page|err|] eqn:Hfetch.
  - cbv zeta.
    destruct (UsersScraper.truthy (UsersScraper.NextCursor page)) eqn:Hnext;
      cbn [fst snd].
    + destruct (IH (UsersScraper.NextCursor page)) as (Hy & Hhead & Hchain & Hend & Herr).
      set (rest := (UsersScraper.streamFriends_loop pagesLeft fuel pages
                      (UsersScraper.NextCursor page)).1) in *.
      assert (requested (UsersScraper.FetchPage cursor
                         :: (UsersScraper.Yield ∘ UsersScraper.id
                             <$> UsersScraper.PageItems page) ++ rest)
              = cursor :: requested rest) as Hreq.
      { unfold requested. cbn [omap list_omap].
        change (list_omap _ _ ?f ?k) with (omap f k).
        rewrite omap_app. fold (requested rest).
        fold (requested (UsersScraper.Yield ∘ UsersScraper.id
                         <$> UsersScraper.PageItems page)).
        by rewrite requested_page. }
      rewrite <- app_comm_cons, Hreq.
      split; [|split; [done|split; [|split]]].
      * unfold UsersScraper.yielded. cbn [omap list_omap].
        change (list_omap _ _ ?f ?k) with (omap f k).
        rewrite omap_app. fold (UsersScraper.yielded rest).
        fold (UsersScraper.yielded (UsersScraper.Yield ∘ UsersScraper.id
                                    <$> UsersScraper.PageItems page)).
        rewrite yielded_page, Hy. cbn [fmap list_fmap concat].
        unfold page_ids at 2. by rewrite Hfetch.
      * intros i c c' Hc Hc'. destruct i as [|i].
        -- change (Some cursor = Some c) in Hc. injection Hc as <-.
           change (requested rest !! 0%nat = Some c') in Hc'.
           exists page. split; [done|].
           destruct pagesLeft as [|pagesLeft]; [done|].
           rewrite <- head_lookup, Hhead in Hc' by done.
           injection Hc' as <-. done.
        -- by apply (Hchain i).
      * intros He. destruct (Hend He) as (c & page' & Hlast & Hrest).
        exists c, page'. split; [|done].
        destruct (requested rest) as [|c0 cs]; [done|]. by rewrite last_cons, Hlast.
      * intros err He. destruct (Herr err He) as (c & Hlast & Hrest).
        exists c. split; [|done].
        destruct (requested rest) as [|c0 cs]; [done|]. by rewrite last_cons, Hlast.
    + assert (requested (UsersScraper.FetchPage cursor
                         :: (UsersScraper.Yield ∘ UsersScraper.id
                             <$> UsersScraper.PageItems page))
              = [cursor]) as Hreq.
      { unfold requested. cbn [omap list_omap].
        change (list_omap _ _ ?f ?k) with (omap f k).
        fold (requested (UsersScraper.Yield ∘ UsersScraper.id
                         <$> UsersScraper.PageItems page)).
        by rewrite requested_page. }
      rewrite Hreq. split; [|split; [done|split; [|split]]].
      * unfold UsersScraper.yielded. cbn [omap list_omap].
        change (list_omap _ _ ?f ?k) with (omap f k).
        fold (UsersScraper.yielded (UsersScraper.Yield ∘ UsersScraper.id
                                    <$> UsersScraper.PageItems page)).
        rewrite yielded_page. cbn [fmap list_fmap concat].
        unfold page_ids. by rewrite Hfetch, app_nil_r.
      * by intros [|[|i]] c c'.
      * intros _. by exists cursor, page.
      * done.
  - cbn [fst snd]. split; [|split; [done|split; [|split]]].
    + cbn. unfold page_ids. by rewrite Hfetch.
    + by intros [|[|i]] c c'.
    + done.
    + intros err' [= <-]. by exists cursor.
  - cbn [fst snd]. split; [|split; [done|split; [|split]]].
    + cbn. unfold page_ids. by rewrite Hfetch.
    + by intros [|[|i]] c c'.
    + done.
    + done.
Qed.

(** X14: [streamFriends] walks the cursors: after the subject's own id it yields
    the ids of the pages it asked for, page by page; the first page is asked
    for without a cursor and every other page at the cursor the page before
    it returned; the stream ends after a page whose [NextCursor] is [null]
    or empty, and throws what the fetch of a page rejected with; and
    [getFriends] resolves with exactly the ids of a stream that ended. *)
Theorem streamFriends_walks_the_cursors pagesLeft fuel pages userid :
  let evs := (UsersScraper.streamFriends_events pagesLeft fuel pages userid).1 in
  let entryStream := UsersScraper.streamFriends pagesLeft fuel pages userid in
  yields entryStream
  = UsersScraper.Number userid :: concat (page_ids fuel pages <$> requested evs)
  /\ (pagesLeft <> 0%nat -> head (requested evs) = Some None)
  /\ (forall i c c',
        requested evs !! i = Some c -> requested evs !! S i = Some c' ->
        exists page,
          (UsersScraper.fetchFriendsPage fuel pages c).1 = Resolved page
          /\ UsersScraper.NextCursor page = c'
          /\ c' <> None /\ c' <> Some EmptyString)
  /\ (ending entryStream = Exhausted ->
      exists c page,
        last (requested evs) = Some c
        /\ (UsersScraper.fetchFriendsPage fuel pages c).1 = Resolved page
        /\ (UsersScraper.NextCursor page = None
            \/ UsersScraper.NextCursor page = Some EmptyString))
  /\ (forall err, ending entryStream = Throws err ->
      exists c,
        last (requested evs) = Some c
        /\ (UsersScraper.fetchFriendsPage fuel pages c).1 = Rejected err)
  /\ (forall friends,
        UsersScraper.getFriends pagesLeft fuel pages userid = Resolved friends ->
        friends = yields entryStream /\ ending entryStream = Exhausted).
Proof.
  intros evs entryStream.
  destruct (streamFriends_loop_walk pagesLeft fuel pages None)
    as (Hy & Hhead & Hchain & Hend & Herr).
  assert (entryStream
          = mkStream (UsersScraper.Number userid
                      :: UsersScraper.yielded
                           (UsersScraper.streamFriends_loop pagesLeft fuel pages None).1)
              (UsersScraper.streamFriends_loop pagesLeft fuel pages None).2) as Hstream.
  { subst entryStream.
    unfold UsersScraper.streamFriends, UsersScraper.streamFriends_events.
    by destruct (UsersScraper.streamFriends_loop pagesLeft fuel pages None). }
  assert (requested evs
          = requested (UsersScraper.streamFriends_loop pagesLeft fuel pages None).1)
    as Hreq.
  { subst evs. unfold UsersScraper.streamFriends_events.
    by destruct (UsersScraper.streamFriends_loop pagesLeft fuel pages None). }
  rewrite Hreq, Hstream. cbn [yields ending].
  split; [by rewrite Hy|]. split; [done|]. split; [|split; [|split]].
  - intros i c c' Hc Hc'.
    destruct (Hchain i c c' Hc Hc') as (page & Hpage & Hnext & Htruthy).
    exists page. split; [done|]. split; [done|].
    destruct c' as [[|a s]|]; [|done|done].
    by vm_compute in Htruthy.
  - intros He. destruct (Hend He) as (c & page & Hlast & Hpage & Hfalsy).
    exists c, page. split; [done|]. split; [done|].
    destruct (UsersScraper.NextCursor page) as [[|a s]|]; [by right| |by left].
    by vm_compute in Hfalsy.
  - done.
  - intros friends. unfold UsersScraper.getFriends.
    fold entryStream. rewrite Hstream. cbn [yields ending].
    destruct (UsersScraper.streamFriends_loop pagesLeft fuel pages None).2; [|done..].
    by intros [= <-].
Qed.

(* ===================================================================== *)
(** * The groups scraper *)
(* ===================================================================== *)

Lemma waitMs_of_retry_wait {A} status header (body : option A) (k : nat) :
  (k <= 3)%nat ->
  Groups.waitMs_of status header (k + 1)
  = retry_wait k (Groups.FetchResolves status header body).
Proof.
  intros Hk. unfold Groups.waitMs_of, retry_wait.
  assert (GroupsScraper.backoffMs (Z.of_nat (k + 1))
          = default 0 ([2000; 4000; 8000; 16000] !! k)) as Hb.
  { assert (k = 0 \/ k = 1 \/ k = 2 \/ k = 3)%nat as Hcases by lia.
    by destruct Hcases as [->|[->|[->| ->]]]. }
  destruct (Z.eqb_spec status 429) as [->|Hne].
  - by destruct header.
  - rewrite Hb.
    assert (forall (x y z : Z), match status with 429 => x | _ => z end = z) as Hmatch.
    { intros x y z. destruct status as [|p|p]; try done.
      do 9 (destruct p as [p|p|]; try done). }
    destruct header; simpl; try done; by rewrite ?Hmatch.
Qed.

Lemma fetchJSON_loop_from {A} fuel (net : nat -> Groups.FetchResult A) : forall attempt,
  (attempt <= 4)%nat ->
  (5 <= attempt + fuel)%nat ->
  exists n,
    (attempt <= n <= 4)%nat
    /\ (forall k, (attempt <= k < n)%nat -> json_failing (net k) = true)
    /\ (Groups.fetchJSON_loop fuel net attempt).2
       = (fun k => retry_wait k (net k)) <$> seq attempt (n - attempt)
    /\ (Groups.fetchJSON_loop fuel net attempt).1
       = (if json_failing (net n) then Rejected (json_error (net n))
          else json_answer (net n))
    /\ (json_failing (net n) = true -> n = 4%nat).
Proof.
  induction fuel as [|fuel IH]; intros attempt Hle Hfuel; [lia|].
  cbn [Groups.fetchJSON_loop]. unfold GroupsScraper.MAX_HTTP_RETRIES.
  assert (forall (w : Z) (p : Promise A * list Z),
            (let '(p0, ws) := p in (p0, w :: ws)) = (p.1, w :: p.2))
    as Hlet by (by intros w []).
  destruct (json_failing (net attempt)) eqn:Hfail.
  - destruct (decide (attempt = 4%nat)) as [->|Hne].
    + exists 4%nat. rewrite Hfail. split; [lia|]. split; [intros; lia|].
      destruct (net 4%nat) as [message|status header body]; simpl in *; [done|].
      apply negb_true_iff in Hfail. by rewrite Hfail.
    + destruct (IH (S attempt)) as (n & Hn & Hall & Hws & Hp & Hlast); [lia|lia|].
      exists n. split; [lia|]. split.
      { intros k Hk. destruct (decide (k = attempt)) as [->|?]; [done|].
        apply Hall. lia. }
      replace (n - attempt)%nat with (S (n - S attempt)) by lia.
      cbn [seq fmap list_fmap]. change (list_fmap _ _ ?f ?k) with (f <$> k).
      destruct (net attempt) as [message|status header body] eqn:Hnet;
        simpl in Hfail.
      * rewrite decide_False by lia. rewrite Hlet. cbn [fst snd].
        rewrite Hws, Hp. split; [|done]. f_equal.
        assert (attempt = 0 \/ attempt = 1 \/ attempt = 2 \/ attempt = 3)%nat
          as Hcases by lia.
        by destruct Hcases as [->|[->|[->| ->]]].
      * apply negb_true_iff in Hfail. rewrite Hfail.
        rewrite decide_False by lia. rewrite Hlet. cbn [fst snd].
        rewrite Hws, Hp. split; [|done]. f_equal.
        apply waitMs_of_retry_wait. lia.
  - exists attempt. rewrite Hfail. split; [lia|]. split; [intros; lia|].
    rewrite Nat.sub_diag.
    destruct (net attempt) as [message|status header body]; simpl in *; [done|].
    apply negb_false_iff in Hfail. rewrite Hfail. by destruct body.
Qed.

(** X15: [fetchJSON] makes at most five requests, a 429 counting like any other
    failure: it settles with the first answer that carries a success status
    and rejects with the error of the fifth answer when all five failed.
    After a failed attempt it waits 2, 4, 8 and 16 seconds, except after a
    429: then it waits the seconds of the [Retry-After] header, however
    many, and does not wait at all when the header is missing. *)
Theorem fetchJSON_five_requests {A} fuel (net : nat -> Groups.FetchResult A)
    (Hfuel : (5 <= fuel)%nat) :
  exists n,
    (n <= 4)%nat
    /\ (forall k, (k < n)%nat -> json_failing (net k) = true)
    /\ (Groups.fetchJSON fuel net).2 = (fun k => retry_wait k (net k)) <$> seq 0 n
    /\ (Groups.fetchJSON fuel net).1
       = (if json_failing (net n) then Rejected (json_error (net n))
          else json_answer (net n))
    /\ (json_failing (net n) = true -> n = 4%nat).
Proof.
  destruct (fetchJSON_loop_from fuel net 0) as (n & Hn & Hall & Hws & Hp); [lia|lia|].
  exists n. split; [lia|]. split; [intros k Hk; apply Hall; lia|].
  split; [|exact Hp]. unfold Groups.fetchJSON. by rewrite Hws, Nat.sub_0_r.
Qed.

(** A service that answers 429 to every request: without a [Retry-After]
    header the five requests follow one another without a wait; with a
    header of 120 seconds each wait lasts two minutes. *)
Lemma fetchJSON_five_requests_witness :
  let bare : nat -> Groups.FetchResult Groups.RolesetInfo :=
    fun _ => Groups.FetchResolves 429 Groups.Missing None in
  let hinted : nat -> Groups.FetchResult Groups.RolesetInfo :=
    fun _ => Groups.FetchResolves 429 (Groups.Seconds 120) None in
  Groups.fetchJSON 5 bare = (Rejected (HttpError 429), [0; 0; 0; 0])
  /\ Groups.fetchJSON 5 hinted
     = (Rejected (HttpError 429), [120000; 120000; 120000; 120000])
  /\ exists n, (n <= 4)%nat /\ length (Groups.fetchJSON 5 bare).2 = n.
Proof.
  intros bare hinted. split; [reflexivity|]. split; [reflexivity|].
  destruct (fetchJSON_five_requests 5 bare) as (n & Hn & _ & Hws & _); [lia|].
  exists n. split; [done|]. by rewrite Hws, length_fmap, length_seq.
Defined.

Lemma deliver_yield max member inner delivered :
  Groups.deliver max (Groups.Yield member :: inner) delivered
  = if Groups.reached max (delivered + 1)
    then ([Groups.Yield member], delivered + 1, true)
    else (Groups.Yield member :: (Groups.deliver max inner (delivered + 1)).1.1,
          (Groups.deliver max inner (delivered + 1)).1.2,
          (Groups.deliver max inner (delivered + 1)).2).
Proof.
  simpl. destruct (Groups.reached max (delivered + 1)); [done|].
  by destruct (Groups.deliver max inner (delivered + 1)) as [[evs d] ret].
Qed.

Lemma deliver_request max ev inner delivered :
  (forall member, ev <> Groups.Yield member) ->
  Groups.deliver max (ev :: inner) delivered
  = (ev :: (Groups.deliver max inner delivered).1.1,
     (Groups.deliver max inner delivered).1.2,
     (Groups.deliver max inner delivered).2).
Proof.
  intros Hev. destruct ev as [member| |rolesetId cursor]; [by destruct (Hev member)|..];
    simpl; by destruct (Groups.deliver max inner delivered) as [[evs d] ret].
Qed.

Lemma yielded_cons_yield member evs :
  Groups.yielded (Groups.Yield member :: evs) = member :: Groups.yielded evs.
Proof. done. Qed.

Lemma yielded_cons_request ev evs :
  (forall member, ev <> Groups.Yield member) ->
  Groups.yielded (ev :: evs) = Groups.yielded evs.
Proof. intros Hev. destruct ev as [member| |]; [by destruct (Hev member)|done..]. Qed.

Lemma yielded_app evs1 evs2 :
  Groups.yielded (evs1 ++ evs2) = Groups.yielded evs1 ++ Groups.yielded evs2.
Proof. unfold Groups.yielded. apply omap_app. Qed.

(** Without a cap every event of the inner generator goes through. *)
Lemma deliver_uncapped max inner :
  (forall delivered, Groups.reached max delivered = false) ->
  forall delivered,
  Groups.deliver max inner delivered
  = (inner, delivered + Z.of_nat (length (Groups.yielded inner)), false).
Proof.
  intros Hno. induction inner as [|ev inner IH]; intros delivered.
  { simpl. do 2 f_equal. lia. }
  destruct ev as [member| |rolesetId cursor].
  - rewrite deliver_yield, Hno, IH, yielded_cons_yield. cbn [fst snd length].
    do 2 f_equal. lia.
  - rewrite deliver_request, IH, yielded_cons_request by done. done.
  - rewrite deliver_request, IH, yielded_cons_request by done. done.
Qed.

(** With a cap of [m] and [delivered < m]: the events up to the member that
    reaches the cap. *)
Lemma deliver_capped m inner : forall delivered,
  0 <= delivered < m ->
  let r := Groups.deliver (Some m) inner delivered in
  r.1.1 `prefix_of` inner
  /\ Groups.yielded r.1.1 = take (Z.to_nat (m - delivered)) (Groups.yielded inner)
  /\ (r.2 = true ->
      (Z.to_nat (m - delivered) <= length (Groups.yielded inner))%nat
      /\ exists member, last r.1.1 = Some (Groups.Yield member))
  /\ (r.2 = false ->
      r.1.1 = inner
      /\ r.1.2 = delivered + Z.of_nat (length (Groups.yielded inner))
      /\ r.1.2 < m).
Proof.
  induction inner as [|ev inner IH]; intros delivered Hd; cbv zeta.
  { simpl. split; [done|]. split; [by rewrite take_nil|]. split; [done|].
    intros _. split; [done|]. split; lia. }
  destruct ev as [member| |rolesetId cursor].
  - rewrite deliver_yield, yielded_cons_yield.
    replace (Z.to_nat (m - delivered)) with (S (Z.to_nat (m - (delivered + 1)))) by lia.
    unfold Groups.reached.
    destruct (Z.eqb_spec m 0) as [->|Hm]; cbn [negb andb].
    { lia. }
    destruct (Z.leb_spec m (delivered + 1)) as [Hle|Hlt]; cbn [fst snd].
    + split; [by apply prefix_cons, prefix_nil|].
      replace (Z.to_nat (m - (delivered + 1))) with 0%nat by lia.
      split; [done|]. split; [|done].
      intros _. split; [simpl; lia|by exists member].
    + destruct (IH (delivered + 1) ltac:(lia)) as (Hpre & Hy & Hret & Hnot).
      split; [by apply prefix_cons|]. split; [simpl; by rewrite Hy|]. split.
      * intros Hr. destruct (Hret Hr) as (Hlen & member' & Hlast).
        split; [simpl; lia|]. exists member'.
        destruct (Groups.deliver (Some m) inner (delivered + 1)).1.1; [done|].
        by rewrite last_cons, Hlast.
      * intros Hr. destruct (Hnot Hr) as (-> & -> & Hlt').
        split; [done|]. cbn [length]. split; lia.
  - rewrite deliver_request, yielded_cons_request by done. cbn [fst snd].
    destruct (IH delivered Hd) as (Hpre & Hy & Hret & Hnot).
    split; [by apply prefix_cons|]. split; [done|]. split.
    + intros Hr. destruct (Hret Hr) as (Hlen & member' & Hlast).
      split; [done|]. exists member'.
      destruct (Groups.deliver (Some m) inner delivered).1.1; [done|].
      by rewrite last_cons, Hlast.
    + intros Hr. destruct (Hnot Hr) as (-> & -> & Hlt'). done.
  - rewrite deliver_request, yielded_cons_request by done. cbn [fst snd].
    destruct (IH delivered Hd) as (Hpre & Hy & Hret & Hnot).
    split; [by apply prefix_cons|]. split; [done|]. split.
    + intros Hr. destruct (Hret Hr) as (Hlen & member' & Hlast).
      split; [done|]. exists member'.
      destruct (Groups.deliver (Some m) inner delivered).1.1; [done|].
      by rewrite last_cons, Hlast.
    + intros Hr. destruct (Hnot Hr) as (-> & -> & Hlt'). done.
Qed.

Lemma streamGroupMembers_loop_unfold pagesLeft fuel service max roleset roleList delivered :
  Groups.streamGroupMembers_loop pagesLeft fuel service max (roleset :: roleList) delivered
  = let inner := Groups.streamRolesetMembers pagesLeft fuel service (Groups.id roleset) in
    let r := Groups.deliver max inner.1 delivered in
    if r.2 then (r.1.1, Exhausted)
    else match inner.2 with
         | Exhausted =>
             (r.1.1 ++ (Groups.streamGroupMembers_loop pagesLeft fuel service max
                          roleList r.1.2).1,
              (Groups.streamGroupMembers_loop pagesLeft fuel service max
                 roleList r.1.2).2)
         | e => (r.1.1, e)
         end.
Proof.
  cbn [Groups.streamGroupMembers_loop].
  destruct (Groups.streamRolesetMembers pagesLeft fuel service (Groups.id roleset))
    as [inner e].
  cbv zeta. cbn [fst snd].
  destruct (Groups.deliver max inner delivered) as [[evs d] ret]. cbn [fst snd].
  destruct ret; [done|]. destruct e; try done.
  by destruct (Groups.streamGroupMembers_loop pagesLeft fuel service max roleList d).
Qed.

Lemma streamGroupMembers_loop_capped pagesLeft fuel service m roleList :
  forall delivered,
  0 <= delivered < m ->
  let capped := Groups.streamGroupMembers_loop pagesLeft fuel service (Some m)
                  roleList delivered in
  let all := Groups.streamGroupMembers_loop pagesLeft fuel service None
               roleList delivered in
  capped.1 `prefix_of` all.1
  /\ Groups.yielded capped.1
     = take (Z.to_nat (m - delivered)) (Groups.yielded all.1)
  /\ capped.2 = (if decide (Z.to_nat (m - delivered) <= length (Groups.yielded all.1))%nat
                 then Exhausted else all.2)
  /\ ((Z.to_nat (m - delivered) <= length (Groups.yielded all.1))%nat ->
      exists member, last capped.1 = Some (Groups.Yield member)).
Proof.
  induction roleList as [|roleset roleList IH]; intros delivered Hd; cbv zeta.
  { simpl. split; [done|]. split; [by rewrite take_nil|].
    split; [by case_decide|]. intros Hle. lia. }
  rewrite !streamGroupMembers_loop_unfold. cbv zeta.
  set (inner := Groups.streamRolesetMembers pagesLeft fuel service (Groups.id roleset)).
  rewrite (deliver_uncapped None inner.1) by done. cbn [fst snd].
  destruct (deliver_capped m inner.1 delivered Hd) as (Hpre & Hy & Hret & Hnot).
  destruct (Groups.deliver (Some m) inner.1 delivered) as [[evs d] ret].
  cbn [fst snd] in *.
  destruct ret.
  - destruct (Hret eq_refl) as (Hlen & member & Hlast). clear Hret Hnot.
    assert (forall rest,
              evs `prefix_of` inner.1 ++ rest
              /\ Groups.yielded evs
                 = take (Z.to_nat (m - delivered)) (Groups.yielded (inner.1 ++ rest))
              /\ (Z.to_nat (m - delivered)
                  <= length (Groups.yielded (inner.1 ++ rest)))%nat) as Hany.
    { intros rest. split; [by apply prefix_app_r|].
      rewrite yielded_app, length_app. split; [|lia].
      by rewrite take_app_le. }
    destruct inner.2.
    + cbn [fst snd]. destruct (Hany (Groups.streamGroupMembers_loop pagesLeft fuel
                                      service None roleList
                                      (delivered + Z.of_nat (length (Groups.yielded inner.1)))).1)
        as (H1 & H2 & H3).
      split; [done|]. split; [done|]. rewrite decide_True by done.
      split; [done|]. intros _. by exists member.
    + cbn [fst snd]. split; [done|]. split; [done|].
      rewrite decide_True by done. split; [done|]. intros _. by exists member.
    + cbn [fst snd]. split; [done|]. split; [done|].
      rewrite decide_True by done. split; [done|]. intros _. by exists member.
  - destruct (Hnot eq_refl) as (-> & -> & Hlt). clear Hret Hnot.
    destruct inner.2.
    + destruct (IH (delivered + Z.of_nat (length (Groups.yielded inner.1))))
        as (Hpre' & Hy' & Hend' & Hlast'); [lia|].
      cbn [fst snd].
      set (rest := (Groups.streamGroupMembers_loop pagesLeft fuel service None roleList
                      (delivered + Z.of_nat (length (Groups.yielded inner.1)))).1) in *.
      replace (Z.to_nat (m - (delivered + Z.of_nat (length (Groups.yielded inner.1)))))
        with (Z.to_nat (m - delivered) - length (Groups.yielded inner.1))%nat in * by lia.
      split; [by apply prefix_app|]. split.
      { rewrite !yielded_app, Hy', take_app.
        by rewrite (take_ge (Groups.yielded inner.1)) by lia. }
      split.
      { rewrite Hend'. rewrite yielded_app, length_app.
        repeat case_decide; try done; lia. }
      rewrite yielded_app, length_app. intros Hle.
      destruct Hlast' as [member Hlast]; [lia|]. exists member.
      by rewrite last_app, Hlast.
    + cbn [fst snd]. split; [done|]. split; [by rewrite take_ge by lia|].
      split; [rewrite decide_False by lia; done|]. intros Hle. lia.
    + cbn [fst snd]. split; [done|]. split; [by rewrite take_ge by lia|].
      split; [rewrite decide_False by lia; done|]. intros Hle. lia.
Qed.

Lemma streamGroupMembers_loop_under_cap pagesLeft fuel service m roleList :
  forall delivered,
  0 <= delivered < m ->
  let all := Groups.streamGroupMembers_loop pagesLeft fuel service None
               roleList delivered in
  (length (Groups.yielded all.1) < Z.to_nat (m - delivered))%nat ->
  Groups.streamGroupMembers_loop pagesLeft fuel service (Some m) roleList delivered
  = all.
Proof.
  induction roleList as [|roleset roleList IH]; intros delivered Hd; cbv zeta; [done|].
  rewrite !streamGroupMembers_loop_unfold. cbv zeta.
  set (inner := Groups.streamRolesetMembers pagesLeft fuel service (Groups.id roleset)).
  rewrite (deliver_uncapped None inner.1) by done. cbn [fst snd].
  destruct (deliver_capped m inner.1 delivered Hd) as (_ & _ & Hret & Hnot).
  destruct (Groups.deliver (Some m) inner.1 delivered) as [[evs d] ret].
  cbn [fst snd] in *.
  destruct ret.
  - destruct (Hret eq_refl) as (Hlen & _).
    destruct inner.2; cbn [fst snd]; rewrite ?yielded_app, ?length_app; lia.
  - destruct (Hnot eq_refl) as (-> & -> & Hlt).
    destruct inner.2; cbn [fst snd]; [|done..].
    rewrite yielded_app, length_app. intros Hshort.
    rewrite IH; [done|lia|]. cbv zeta. lia.
Qed.

Lemma streamGroupMembers_loop_no_cap pagesLeft fuel service roleList :
  forall delivered,
  Groups.streamGroupMembers_loop pagesLeft fuel service (Some 0) roleList delivered
  = Groups.streamGroupMembers_loop pagesLeft fuel service None roleList delivered.
Proof.
  induction roleList as [|roleset roleList IH]; intros delivered; [done|].
  rewrite !streamGroupMembers_loop_unfold. cbv zeta.
  rewrite !deliver_uncapped by done. cbn [fst snd]. by rewrite IH.
Qed.

(** X16: The member cap of [streamGroupMembers]: with a cap of [m] the stream
    does what the stream without a cap does, up to the [m]-th member; it
    yields the first [m] members of that stream and, if there are that many,
    returns right after the [m]-th without another request; if there are
    fewer it is that stream.  A cap of 0 is no cap. *)
Theorem member_cap pagesLeft fuel service (m : Z) rolesets (Hm : 0 < m) :
  let capped := Groups.streamGroupMembers_events pagesLeft fuel service (Some m) rolesets in
  let all := Groups.streamGroupMembers_events pagesLeft fuel service None rolesets in
  let members := yields (Groups.streamGroupMembers pagesLeft fuel service None rolesets) in
  capped.1 `prefix_of` all.1
  /\ yields (Groups.streamGroupMembers pagesLeft fuel service (Some m) rolesets)
     = take (Z.to_nat m) members
  /\ ((Z.to_nat m <= length members)%nat ->
      ending (Groups.streamGroupMembers pagesLeft fuel service (Some m) rolesets)
      = Exhausted
      /\ exists member, last capped.1 = Some (Groups.Yield member))
  /\ ((length members < Z.to_nat m)%nat -> capped = all)
  /\ Groups.streamGroupMembers_events pagesLeft fuel service (Some 0) rolesets = all.
Proof.
  intros capped all members.
  assert (forall max,
            Groups.streamGroupMembers pagesLeft fuel service max rolesets
            = mkStream
                (Groups.yielded
                   (Groups.streamGroupMembers_events pagesLeft fuel service max rolesets).1)
                (Groups.streamGroupMembers_events pagesLeft fuel service max rolesets).2)
    as Hstream.
  { intros max. unfold Groups.streamGroupMembers.
    by destruct (Groups.streamGroupMembers_events pagesLeft fuel service max rolesets). }
  subst members. rewrite !Hstream. cbn [yields ending]. fold capped all.
  subst capped all. unfold Groups.streamGroupMembers_events.
  pose proof (streamGroupMembers_loop_capped pagesLeft fuel service m) as Hcap.
  pose proof (streamGroupMembers_loop_under_cap pagesLeft fuel service m) as Hunder.
  pose proof (streamGroupMembers_loop_no_cap pagesLeft fuel service) as Hzero.
  destruct rolesets as [roleList|].
  - destruct (Hcap roleList 0) as (Hpre & Hy & Hend & Hlast); [lia|].
    specialize (Hunder roleList 0 ltac:(lia)). cbv zeta in Hunder.
    rewrite Z.sub_0_r in *.
    split; [done|]. split; [done|]. split; [|split; [done|apply Hzero]].
    intros Hle. rewrite Hend, decide_True by done. split; [done|by apply Hlast].
  - destruct (Groups.getGroupRoles fuel service) as [roleList|e|].
    + destruct (Hcap roleList 0) as (Hpre & Hy & Hend & Hlast); [lia|].
      specialize (Hunder roleList 0 ltac:(lia)). cbv zeta in Hunder.
      rewrite Z.sub_0_r in *. rewrite Hzero.
      destruct (Groups.streamGroupMembers_loop pagesLeft fuel service (Some m) roleList 0)
        as [evs e].
      destruct (Groups.streamGroupMembers_loop pagesLeft fuel service None roleList 0)
        as [evs' e'].
      cbn [fst snd] in *.
      split; [by apply prefix_cons|]. split; [by rewrite !yielded_cons_request|].
      rewrite !yielded_cons_request by done.
      split; [|split; [|done]].
      * intros Hle. rewrite Hend, decide_True by done. split; [done|].
        destruct (Hlast Hle) as [member Hm']. exists member.
        destruct evs; [done|]. by rewrite last_cons, Hm'.
      * intros Hshort. by injection (Hunder Hshort) as -> ->.
    + cbn [fst snd]. split; [done|]. split; [by destruct (Z.to_nat m)|].
      split; [simpl; lia|done].
    + cbn [fst snd]. split; [done|]. split; [by destruct (Z.to_nat m)|].
      split; [simpl; lia|done].
Qed.

(** A cap of 2 on the group with four members: the roles are fetched, then
    the first page of role 11, and the stream returns after its second
    member; the page at "p2" and role 12 are never asked for. *)
Lemma member_cap_witness :
  let capped := Groups.streamGroupMembers_events 5 5 small_group (Some 2) None in
  capped
  = ([Groups.FetchRoles; Groups.FetchPage 11 None;
      Groups.Yield (Index.mkGroupMemberEntry 101 11);
      Groups.Yield (Index.mkGroupMemberEntry 102 11)], Exhausted)
  /\ yields (Groups.streamGroupMembers 5 5 small_group None None)
     = [Index.mkGroupMemberEntry 101 11; Index.mkGroupMemberEntry 102 11;
        Index.mkGroupMemberEntry 103 11; Index.mkGroupMemberEntry 200 12]
  /\ yields (Groups.streamGroupMembers 5 5 small_group (Some 2) None)
     = take 2 (yields (Groups.streamGroupMembers 5 5 small_group None None)).
Proof.
  intros capped. split; [vm_compute; reflexivity|]. split; [vm_compute; reflexivity|].
  apply (member_cap 5 5 small_group 2 None). lia.
Defined.

Lemma deliver_prefix max inner : forall delivered,
  (Groups.deliver max inner delivered).1.1 `prefix_of` inner.
Proof.
  induction inner as [|ev inner IH]; intros delivered; [done|].
  destruct ev as [member| |rolesetId cursor].
  - rewrite deliver_yield.
    destruct (Groups.reached max (delivered + 1)); cbn [fst snd].
    + by apply prefix_cons, prefix_nil.
    + by apply prefix_cons.
  - rewrite deliver_request by done. by apply prefix_cons.
  - rewrite deliver_request by done. by apply prefix_cons.
Qed.

Lemma yielded_prefix evs1 evs2 :
  evs1 `prefix_of` evs2 -> Groups.yielded evs1 `prefix_of` Groups.yielded evs2.
Proof. intros [k ->]. rewrite yielded_app. by apply prefix_app_r. Qed.

Lemma streamRolesetMembers_loop_unfold pagesLeft fuel service rolesetId cursor :
  Groups.streamRolesetMembers_loop (S pagesLeft) fuel service rolesetId cursor
  = match (Groups.fetchJSON fuel (Groups.users_url service rolesetId cursor)).1 with
    | Resolved page =>
        let here :=
          Groups.FetchPage rolesetId cursor
          :: ((fun entry =>
                 Groups.Yield (Index.mkGroupMemberEntry (Groups.userId entry) rolesetId))
              <$> Groups.data page) in
        if Groups.truthy (Groups.nextPageCursor page) then
          (here ++ (Groups.streamRolesetMembers_loop pagesLeft fuel service rolesetId
                      (Groups.nextPageCursor page)).1,
           (Groups.streamRolesetMembers_loop pagesLeft fuel service rolesetId
              (Groups.nextPageCursor page)).2)
        else (here, Exhausted)
    | Rejected e => ([Groups.FetchPage rolesetId cursor], Throws e)
    | NeverSettles => ([Groups.FetchPage rolesetId cursor], Stalls)
    end.
Proof.
  cbn [Groups.streamRolesetMembers_loop].
  destruct (Groups.fetchJSON fuel (Groups.users_url service rolesetId cursor)).1
    as [page|e|]; try done.
  destruct (Groups.truthy (Groups.nextPageCursor page)); [|done].
  by destruct (Groups.streamRolesetMembers_loop pagesLeft fuel service rolesetId
                 (Groups.nextPageCursor page)).
Qed.

Lemma yielded_members rolesetId (members : list Groups.Member) :
  Groups.yielded
    ((fun m => Groups.Yield (Index.mkGroupMemberEntry (Groups.userId m) rolesetId))
     <$> members)
  = (fun m => Index.mkGroupMemberEntry (Groups.userId m) rolesetId) <$> members.
Proof.
  induction members as [|m members IH]; [done|].
  rewrite !fmap_cons, yielded_cons_yield. by f_equal.
Qed.

Lemma streamRolesetMembers_loop_role pagesLeft fuel service rolesetId :
  forall cursor entry,
  entry ∈ Groups.yielded
            (Groups.streamRolesetMembers_loop pagesLeft fuel service rolesetId cursor).1 ->
  Index.rolesetId entry = rolesetId.
Proof.
  induction pagesLeft as [|pagesLeft IH]; intros cursor entry.
  { by intros ?%elem_of_nil. }
  rewrite streamRolesetMembers_loop_unfold.
  destruct (Groups.fetchJSON fuel (Groups.users_url service rolesetId cursor)).1
    as [page|e|]; [|by intros ?%elem_of_nil..].
  cbv zeta.
  assert (entry ∈ Groups.yielded
                    ((fun m => Groups.Yield
                                 (Index.mkGroupMemberEntry (Groups.userId m) rolesetId))
                     <$> Groups.data page) ->
          Index.rolesetId entry = rolesetId) as Hhere.
  { rewrite yielded_members. by intros (m & -> & _)%list_elem_of_fmap. }
  destruct (Groups.truthy (Groups.nextPageCursor page)); cbn [fst snd].
  - rewrite <- app_comm_cons, yielded_cons_request by done.
    rewrite yielded_app. intros [Hin|Hin]%elem_of_app; [by apply Hhere|by eapply IH].
  - rewrite yielded_cons_request by done. apply Hhere.
Qed.

Lemma streamGroupMembers_loop_roles pagesLeft fuel service max roleList :
  forall delivered entry,
  entry ∈ Groups.yielded
            (Groups.streamGroupMembers_loop pagesLeft fuel service max roleList delivered).1 ->
  Index.rolesetId entry ∈ Groups.id <$> roleList.
Proof.
  induction roleList as [|roleset roleList IH]; intros delivered entry.
  { by intros ?%elem_of_nil. }
  rewrite streamGroupMembers_loop_unfold. cbv zeta.
  set (inner := Groups.streamRolesetMembers pagesLeft fuel service (Groups.id roleset)).
  assert (entry ∈ Groups.yielded (Groups.deliver max inner.1 delivered).1.1 ->
          Index.rolesetId entry ∈ Groups.id <$> roleset :: roleList) as Hhere.
  { intros Hin. rewrite fmap_cons. apply elem_of_cons. left.
    apply (streamRolesetMembers_loop_role pagesLeft fuel service (Groups.id roleset)
             None entry).
    pose proof (yielded_prefix _ _ (deliver_prefix max inner.1 delivered)) as [k Hk].
    fold (Groups.streamRolesetMembers pagesLeft fuel service (Groups.id roleset)).
    fold inner. rewrite Hk. apply elem_of_app. by left. }
  destruct (Groups.deliver max inner.1 delivered).2; [done|].
  destruct inner.2; cbn [fst snd]; [|done..].
  rewrite yielded_app. intros [Hin|Hin]%elem_of_app; [by apply Hhere|].
  rewrite fmap_cons. apply elem_of_cons. right. by eapply IH.
Qed.




(** X18: The roles of a group: [getGroupRoles] returns the roles the service
    lists with a rank above 0, in the order of the service; a stream of the
    members of a group that fetches the roles itself, as [getAllGroupMembers]
    does, only yields members of those roles, and none of a role of rank 0;
    when the roles cannot be fetched the stream throws before any member is
    asked for, and [getAllGroupMembers] and [getRolesetIds] reject. *)
Theorem members_come_from_ranked_roles pagesLeft fuel service max :
  let entryStream := Groups.streamGroupMembers pagesLeft fuel service max None in
  (forall roleList,
     Groups.getGroupRoles fuel service = Resolved roleList ->
     Groups.getRolesetIds fuel service = Resolved (Groups.id <$> roleList)
     /\ exists info,
          (Groups.fetchJSON fuel (Groups.roles_url service)).1 = Resolved info
          /\ roleList `sublist_of` Groups.roles info
          /\ forall role, role ∈ roleList
                          <-> (0 < Groups.rank role /\ role ∈ Groups.roles info))
  /\ (forall entry, entry ∈ yields entryStream ->
        exists roleList role,
          Groups.getGroupRoles fuel service = Resolved roleList
          /\ role ∈ roleList
          /\ Groups.id role = Index.rolesetId entry
          /\ 0 < Groups.rank role)
  /\ (forall e,
        Groups.getGroupRoles fuel service = Rejected e ->
        Groups.streamGroupMembers_events pagesLeft fuel service max None
        = ([Groups.FetchRoles], Throws e)
        /\ Groups.getAllGroupMembers pagesLeft fuel service max = Rejected e
        /\ Groups.getRolesetIds fuel service = Rejected e)
  /\ (forall ids,
        Groups.getAllGroupMembers pagesLeft fuel service max = Resolved ids ->
        ids = Index.userId <$> yields entryStream
        /\ ending entryStream = Exhausted).
Proof.
  intros entryStream.
  assert (forall roleList,
            Groups.getGroupRoles fuel service = Resolved roleList ->
            exists info,
              (Groups.fetchJSON fuel (Groups.roles_url service)).1 = Resolved info
              /\ roleList = filter (fun r => 0 < Groups.rank r) (Groups.roles info))
    as Hroles.
  { intros roleList. unfold Groups.getGroupRoles.
    destruct (Groups.fetchJSON fuel (Groups.roles_url service)).1 as [info|e|];
      [|done..].
    intros [= <-]. by exists info. }
  split; [|split; [|split]].
  - intros roleList Hget. split; [unfold Groups.getRolesetIds; by rewrite Hget|].
    destruct (Hroles roleList Hget) as (info & Hinfo & ->).
    exists info. split; [done|]. split; [apply sublist_filter|].
    intros role. apply (list_elem_of_filter (fun r => 0 < Groups.rank r)).
  - subst entryStream. unfold Groups.streamGroupMembers, Groups.streamGroupMembers_events.
    destruct (Groups.getGroupRoles fuel service) as [roleList|e|] eqn:Hget;
      [|by intros entry ?%elem_of_nil..].
    pose proof (streamGroupMembers_loop_roles pagesLeft fuel service max roleList 0)
      as Hin.
    destruct (Groups.streamGroupMembers_loop pagesLeft fuel service max roleList 0)
      as [evs e].
    cbn [yields fst] in *. rewrite yielded_cons_request by done.
    intros entry (role & Hid & Hrole)%Hin%list_elem_of_fmap.
    exists roleList, role. split; [done|]. split; [done|]. split; [done|].
    destruct (Hroles roleList eq_refl) as (info & _ & ->).
    by apply (list_elem_of_filter (fun r => 0 < Groups.rank r)) in Hrole as [Hrank _].
  - intros e Hget.
    unfold Groups.getAllGroupMembers, Groups.getRolesetIds, Groups.streamGroupMembers,
      Groups.streamGroupMembers_events.
    by rewrite Hget.
  - intros ids. unfold Groups.getAllGroupMembers. fold entryStream.
    destruct (ending entryStream); [|done..]. by intros [= <-].
Qed.

(* ===================================================================== *)
(** * The command line *)
(* ===================================================================== *)

Section parseArgs_facts.

Variable trim : string -> string.
Variable Number : string -> option Z.

Lemma push_friendIds_valid ids : forall friendIds friendIds',
  Forall (fun friendId => Index.digits_only friendId = true) friendIds ->
  Index.push_friendIds trim ids friendIds = inr friendIds' ->
  Forall (fun friendId => Index.digits_only friendId = true) friendIds'.
Proof.
  induction ids as [|id ids IH]; intros friendIds friendIds' Hvalid; simpl.
  { by intros [= <-]. }
  case_decide; [by apply IH|].
  destruct (Index.digits_only (trim id)) eqn:Hd; simpl; [|done].
  apply IH, Forall_app. split; [done|]. by constructor.
Qed.

Lemma group_config_valid groupRaw cfg :
  Index.group_config Number groupRaw = inr cfg ->
  Index.digits_only (Index.group_id cfg) = true
  /\ forall cap, Index.cap cfg = Some cap -> 0 < cap.
Proof.
  unfold Index.group_config.
  destruct (Index.digits_only _) eqn:Hd; simpl; [|done].
  destruct (Index.split ":" groupRaw !! 1%nat) as [capRaw|]; [|by intros [= <-]].
  destruct (Number capRaw) as [parsed|]; [|done].
  destruct (Z.leb_spec parsed 0); [done|]. intros [= <-]. simpl.
  split; [done|]. by intros cap [= <-].
Qed.

Lemma parseArgs_loop_valid n : forall argv opts opts',
  (length argv <= n)%nat ->
  valid_options opts ->
  Index.parseArgs_loop trim Number argv opts = Index.Options opts' ->
  valid_options opts'.
Proof.
  induction n as [|n IH]; intros argv opts opts' Hlen Hvalid.
  { destruct argv; [|simpl in Hlen; lia]. by intros [= <-]. }
  destruct argv as [|arg rest]; [by intros [= <-]|]. simpl in Hlen.
  cbn [Index.parseArgs_loop].
  destruct Hvalid as [Hf Hg].
  repeat case_bool_decide; try done.
  - destruct rest as [|dir rest']; [done|]. case_decide; [done|].
    apply IH; [simpl in Hlen; lia|done].
  - destruct rest as [|idsRaw rest']; [done|]. case_decide; [done|].
    destruct (Index.push_friendIds trim _ _) as [message|friendIds] eqn:Hpush; [done|].
    apply IH; [simpl in Hlen; lia|]. split; [|done].
    by eapply push_friendIds_valid.
  - destruct rest as [|groupRaw rest']; [done|]. case_decide; [done|].
    destruct (Index.group_config Number groupRaw) as [message|cfg] eqn:Hcfg; [done|].
    apply IH; [simpl in Hlen; lia|]. split; [done|].
    apply Forall_app. split; [done|]. constructor; [|done].
    by eapply group_config_valid.
  - apply IH; [lia|done].
Qed.

End parseArgs_facts.

(** X19: [main] gets past its checks only with options that [parseArgs] returned
    and that name an output directory and at least one target, with the
    cookie set; every friend id and group id among them is a non-empty
    string of decimal digits and every cap is positive. *)
Theorem main_starts_validated trim Number argv COOKIE options
    (Hstarts : Index.main_options trim Number argv COOKIE = Index.Proceeds options) :
  Index.parseArgs trim Number argv = Index.Options options
  /\ Index.outputDir options <> EmptyString
  /\ (Index.friendIds options <> [] \/ Index.groups options <> [])
  /\ (exists cookie, COOKIE = Some cookie /\ cookie <> EmptyString)
  /\ valid_options options.
Proof.
  unfold Index.main_options in Hstarts.
  destruct (Index.parseArgs trim Number argv) as [opts| |message] eqn:Hparse; [|done..].
  case_decide as Hout; [done|]. case_decide as Htargets; [done|].
  destruct COOKIE as [[|c cookie]|]; [done| |done].
  injection Hstarts as <-.
  split; [done|]. split; [done|]. split.
  { destruct (Index.friendIds opts), (Index.groups opts); try (by left); try (by right).
    by destruct Htargets. }
  split; [by eexists|].
  apply (parseArgs_loop_valid trim Number (length argv) argv
           (Index.mkCliOptions [] [] EmptyString false) opts (le_n _));
    [|exact Hparse].
  split; constructor.
Qed.

(** A command line with two friends and a capped group. *)
Lemma main_starts_validated_witness :
  let argv := ["-o"; "out"; "--friend"; "12,34"; "-g"; "5:100"; "-v"] in
  let options :=
    Index.mkCliOptions ["12"; "34"] [Index.mkGroupConfig "5" (Some 100)] "out" true in
  Index.main_options (fun s => s) decimal argv (Some "token") = Index.Proceeds options
  /\ valid_options options.
Proof.
  intros argv options. split; [vm_compute; reflexivity|].
  apply (main_starts_validated (fun s => s) decimal argv (Some "token") options).
  vm_compute. reflexivity.
Defined.

Section parseArgs_composes.

Variable trim : string -> string.
Variable Number : string -> option Z.

Lemma push_friendIds_base ids : forall base friendIds,
  Index.push_friendIds trim ids (base ++ friendIds)
  = match Index.push_friendIds trim ids friendIds with
    | inl message => inl message
    | inr friendIds' => inr (base ++ friendIds')
    end.
Proof.
  induction ids as [|id ids IH]; intros base friendIds; simpl; [done|].
  case_decide; [apply IH|].
  destruct (Index.digits_only (trim id)); simpl; [|done].
  by rewrite <- app_assoc, IH.
Qed.

(** The arguments that follow a command line that parses are parsed from the
    options it gave. *)
Lemma parseArgs_loop_app n : forall argv1 argv2 opts opts1,
  (length argv1 <= n)%nat ->
  Index.parseArgs_loop trim Number argv1 opts = Index.Options opts1 ->
  Index.parseArgs_loop trim Number (argv1 ++ argv2) opts
  = Index.parseArgs_loop trim Number argv2 opts1.
Proof.
  induction n as [|n IH]; intros argv1 argv2 opts opts1 Hlen.
  { destruct argv1; [|simpl in Hlen; lia]. by intros [= <-]. }
  destruct argv1 as [|arg rest]; [by intros [= <-]|]. simpl in Hlen.
  rewrite <- app_comm_cons. cbn [Index.parseArgs_loop].
  repeat case_bool_decide; try done.
  - destruct rest as [|dir rest']; [done|]. rewrite <- app_comm_cons.
    case_decide; [done|]. apply IH. simpl in Hlen. lia.
  - destruct rest as [|idsRaw rest']; [done|]. rewrite <- app_comm_cons.
    case_decide; [done|].
    destruct (Index.push_friendIds trim _ _) as [message|friendIds]; [done|].
    apply IH. simpl in Hlen. lia.
  - destruct rest as [|groupRaw rest']; [done|]. rewrite <- app_comm_cons.
    case_decide; [done|].
    destruct (Index.group_config Number groupRaw) as [message|cfg]; [done|].
    apply IH. simpl in Hlen. lia.
  - apply IH. lia.
Qed.

(** Parsing on top of options that are already there. *)
Lemma parseArgs_loop_base n : forall argv base opts,
  (length argv <= n)%nat ->
  Index.parseArgs_loop trim Number argv (options_app base opts)
  = match Index.parseArgs_loop trim Number argv opts with
    | Index.Options opts' => Index.Options (options_app base opts')
    | other => other
    end.
Proof.
  induction n as [|n IH]; intros argv base opts Hlen.
  { destruct argv; [done|simpl in Hlen; lia]. }
  destruct argv as [|arg rest]; [done|]. simpl in Hlen.
  cbn [Index.parseArgs_loop].
  repeat case_bool_decide; try done.
  - destruct rest as [|dir rest']; [done|]. case_decide as Hdir; [done|].
    rewrite <- IH by (simpl in Hlen; lia). f_equal.
    unfold options_app. cbn. by rewrite decide_False.
  - destruct rest as [|idsRaw rest']; [done|]. case_decide; [done|].
    cbn [options_app Index.friendIds]. rewrite push_friendIds_base.
    destruct (Index.push_friendIds trim _ (Index.friendIds opts))
      as [message|friendIds]; [done|].
    by rewrite <- IH by (simpl in Hlen; lia).
  - destruct rest as [|groupRaw rest']; [done|]. case_decide; [done|].
    destruct (Index.group_config Number groupRaw) as [message|cfg]; [done|].
    rewrite <- IH by (simpl in Hlen; lia). f_equal.
    unfold options_app. cbn. by rewrite app_assoc.
  - rewrite <- IH by lia. f_equal.
    unfold options_app. cbn. by rewrite orb_true_r.
Qed.

End parseArgs_composes.

(** X20: Command lines compose: when a command line parses, the arguments put
    after it are parsed as on their own, the help flag and every error among
    them ending the run as they would alone, and their options are added to
    the first ones: friends and groups are appended in order, a later
    [--output] replaces an earlier one, and [--verbose] stays on. *)
Theorem parseArgs_app trim Number argv1 argv2 first
    (Hfirst : Index.parseArgs trim Number argv1 = Index.Options first) :
  Index.parseArgs trim Number (argv1 ++ argv2)
  = match Index.parseArgs trim Number argv2 with
    | Index.Options second => Index.Options (options_app first second)
    | other => other
    end.
Proof.
  unfold Index.parseArgs in *.
  rewrite (parseArgs_loop_app trim Number (length argv1) argv1 argv2 _ first (le_n _) Hfirst).
  rewrite <- (parseArgs_loop_base trim Number (length argv2) argv2 first _ (le_n _)).
  f_equal. destruct first as [f g o v]. unfold options_app. cbn.
  by rewrite !app_nil_r, orb_false_r.
Qed.

(** Two [--friend] flags and two [--output] flags. *)
Lemma parseArgs_app_witness :
  Index.parseArgs (fun s => s) decimal (["-f"; "1,2"; "-o"; "a"] ++ ["-o"; "b"; "-f"; "3"])
  = Index.Options (Index.mkCliOptions ["1"; "2"; "3"] [] "b" false).
Proof.
  rewrite (parseArgs_app (fun s => s) decimal ["-f"; "1,2"; "-o"; "a"] ["-o"; "b"; "-f"; "3"]
             (Index.mkCliOptions ["1"; "2"] [] "a" false));
    vm_compute; reflexivity.
Defined.

(* ===================================================================== *)
(** * The logger *)
(* ===================================================================== *)

Lemma append_assoc (a b c : string) : (a +:+ b) +:+ c = a +:+ (b +:+ c).
Proof.
  induction a as [|x a IH]; [done|].
  change (String x ((a +:+ b) +:+ c) = String x (a +:+ (b +:+ c))). by rewrite IH.
Qed.

Lemma at_line_start_LF out text : at_line_start (out +:+ (text +:+ Index.LF)).
Proof. right. exists (out +:+ text). by rewrite append_assoc. Qed.

(** What the logger keeps between two calls. *)
Lemma logger_invariant verbose calls :
  let lg := foldl Index.call (Index.createLogger verbose) calls in
  Index.verboseEnabled lg = verbose
  /\ (Index.statusActive lg = false -> at_line_start (Index.stdout lg))
  /\ (Index.statusActive lg = false -> Index.lastStatusLength lg = 0%nat)
  /\ (verbose = true -> Index.statusActive lg = false).
Proof.
  induction calls as [|c calls IH] using rev_ind.
  { simpl. split; [done|]. split; [by left|]. done. }
  cbv zeta in *. rewrite foldl_snoc.
  destruct IH as (Hv & Hstart & Hlen & Hquiet).
  set (lg := foldl Index.call (Index.createLogger verbose) calls) in *.
  assert (at_line_start (Index.stdout lg +:+ Index.LF)) as Hfeed.
  { right. by exists (Index.stdout lg). }
  destruct verbose.
  - specialize (Hquiet eq_refl). specialize (Hstart Hquiet). specialize (Hlen Hquiet).
    destruct c as [message|finalMessage|message|message|message];
      unfold Index.call, Index.status, Index.statusDone, Index.log, Index.warn,
        Index.verboseLog;
      rewrite Hv; try (destruct finalMessage as [[|x s]|]); simpl;
      (split; [exact Hv|]);
      (split; [intros _|split; [intros _; exact Hlen|intros _; exact Hquiet]]);
      try exact Hstart; apply at_line_start_LF.
  - destruct (Index.statusActive lg) eqn:Hactive;
    destruct c as [message|finalMessage|message|message|message];
      unfold Index.call, Index.status, Index.statusDone, Index.log, Index.warn,
        Index.verboseLog, Index.statusDone;
      rewrite Hv; try (destruct finalMessage as [[|x s]|]); simpl;
      rewrite ?Hactive; simpl;
      (split; [exact Hv|]);
      (split; [|split; [|intros H; discriminate H]]);
      intros H;
      first [ discriminate H | reflexivity | exact Hfeed | exact (Hstart eq_refl)
            | exact (Hlen eq_refl)
            | rewrite <- !append_assoc; right; eexists; reflexivity ].
Qed.

(** X21: A message never continues a status line: after any calls of the logger,
    in either mode, [log] writes its message, followed by a line feed, where
    the standard output stands at the start of a line, and [warn] leaves the
    standard output at the start of a line when it writes to the standard
    error; whenever no status line is active the output stands at the start
    of a line, and in verbose mode no status line is ever active. *)
Theorem log_starts_a_line verbose calls message :
  let lg := foldl Index.call (Index.createLogger verbose) calls in
  (exists out,
     Index.stdout (Index.log message lg) = out +:+ message +:+ Index.LF
     /\ at_line_start out)
  /\ (at_line_start (Index.stdout (Index.warn message lg))
      /\ Index.stderr (Index.warn message lg)
         = Index.stderr lg +:+ message +:+ Index.LF)
  /\ (Index.statusActive lg = false -> at_line_start (Index.stdout lg))
  /\ (verbose = true -> Index.statusActive lg = false).
Proof.
  intros lg.
  destruct (logger_invariant verbose calls) as (Hv & Hstart & _ & Hquiet).
  fold lg in Hv, Hstart, Hquiet.
  assert (at_line_start
            (Index.stdout (if Index.verboseEnabled lg then lg
                           else Index.statusDone None lg))) as Hdone.
  { destruct (Index.verboseEnabled lg) eqn:Hverbose.
    - apply Hstart, Hquiet. by rewrite <- Hv.
    - unfold Index.statusDone. rewrite Hverbose. simpl.
      destruct (Index.statusActive lg) eqn:Hactive; simpl; [|by apply Hstart].
      right. by exists (Index.stdout lg). }
  split; [|split; [|done]].
  - eexists. split; [|exact Hdone]. unfold Index.log. simpl.
    by destruct (Index.verboseEnabled lg).
  - unfold Index.warn. split.
    + by destruct (Index.verboseEnabled lg).
    + destruct (Index.verboseEnabled lg) eqn:Hverbose; simpl; [done|].
      unfold Index.statusDone. rewrite Hverbose. simpl.
      by destruct (Index.statusActive lg).
Qed.

(* ===================================================================== *)
(** * The export script *)
(* ===================================================================== *)

Lemma assoc_count key DT vD :
  assoc key (Exp.count DT vD)
  = if decide (key = DT) then Some (S (default 0%nat (assoc DT vD))) else assoc key vD.
Proof.
  induction vD as [|[k n] vD IH]; simpl.
  { repeat case_decide; congruence. }
  destruct (decide (k = DT)) as [->|Hk]; simpl.
  - destruct (decide (DT = key)) as [<-|Hne].
    + rewrite (decide_True (P := DT = DT)) by done.
      by destruct (decide (n = 0%nat)) as [->|].
    + by rewrite (decide_False (P := key = DT)) by done.
  - destruct (decide (k = key)) as [->|Hne].
    + by rewrite (decide_False (P := key = DT)) by done.
    + by rewrite IH.
Qed.

Lemma assoc_list_id key DT id vI :
  assoc key (Exp.list_id DT id vI)
  = if decide (key = DT) then Some (default [] (assoc DT vI) ++ [id]) else assoc key vI.
Proof.
  induction vI as [|[k ids] vI IH]; simpl.
  { repeat case_decide; congruence. }
  destruct (decide (k = DT)) as [->|Hk]; simpl.
  - destruct (decide (DT = key)) as [<-|Hne].
    + by rewrite (decide_True (P := DT = DT)) by done.
    + by rewrite (decide_False (P := key = DT)) by done.
  - destruct (decide (k = key)) as [->|Hne].
    + by rewrite (decide_False (P := key = DT)) by done.
    + by rewrite IH.
Qed.

Lemma sum_count DT vD :
  sum_list ((Exp.count DT vD).*2) = S (sum_list (vD.*2)).
Proof.
  induction vD as [|[k n] vD IH]; [done|]. cbn [Exp.count].
  destruct (decide (k = DT)).
  - rewrite !fmap_cons. cbn [snd].
    change (sum_list (?a :: ?l)) with (a + sum_list l)%nat.
    destruct (decide (n = 0%nat)); lia.
  - rewrite !fmap_cons. cbn [snd].
    change (sum_list (?a :: ?l)) with (a + sum_list l)%nat.
    rewrite IH. lia.
Qed.

Lemma DT_of_inj fT fT' : Exp.DT_of fT = Exp.DT_of fT' -> fT = fT'.
Proof. destruct fT, fT'; vm_compute; congruence. Qed.

Lemma flagTypeToEnum_in_range f fT :
  Rotector.flagTypeToEnum f = inr fT ->
  0 <= f <= 6 /\ Rotector.UserFlagStatus_value fT = f.
Proof.
  destruct (decide (0 <= f <= 6)) as [Hin|Hout].
  - assert (f = 0 \/ f = 1 \/ f = 2 \/ f = 3 \/ f = 4 \/ f = 5 \/ f = 6) as Hcases by lia.
    destruct Hcases as [->|[->|[->|[->|[->|[->| ->]]]]]]; by intros [= <-].
  - by rewrite flagTypeToEnum_out_of_range by lia.
Qed.

(** The tally after the entries of an export, all in range. *)
Lemma tally_spec stuff t :
  Exp.tally stuff = inr t ->
  Forall (fun entry => 0 <= Rotector.flagType entry.2 <= 6) stuff
  /\ (forall fT, default 0%nat (assoc (Exp.DT_of fT) (Exp.vD t))
                 = length (flagged fT stuff))
  /\ (forall fT, default [] (assoc (Exp.DT_of fT) (Exp.vI t))
                 = (fun entry => pretty (Rotector.id entry.2)) <$> flagged fT stuff)
  /\ sum_list ((Exp.vD t).*2) = length stuff
  /\ (forall skidId skid,
        Exp.newV t !! skidId = Some skid ->
        (skidId, skid) ∈ stuff /\ Rotector.flagType skid <> 0
        /\ skidId <> "__proto__")
  /\ (NoDup (stuff.*1) ->
      forall skidId skid,
        (skidId, skid) ∈ stuff -> Rotector.flagType skid <> 0 ->
        skidId <> "__proto__" ->
        Exp.newV t !! skidId = Some skid).
Proof.
  unfold Exp.tally. revert t.
  induction stuff as [|[skidId skid] stuff IH] using rev_ind; intros t.
  { intros [= <-]. simpl. split; [constructor|]. split; [done|]. split; [done|].
    split; [done|]. split; [|by intros _ k s ?%elem_of_nil].
    intros k s. by rewrite lookup_empty. }
  rewrite foldl_snoc.
  destruct (foldl Exp.step _ stuff) as [f|t0]; [done|].
  destruct (IH t0 eq_refl) as (Hrange & HvD & HvI & Hsum & Hfrom & Hto).
  cbn [Exp.step].
  destruct (Rotector.flagTypeToEnum (Rotector.flagType skid)) as [f|fT] eqn:Hflag; [done|].
  intros [= <-]. cbn [Exp.newV Exp.vD Exp.vI].
  apply flagTypeToEnum_in_range in Hflag as [Hin Hval].
  assert (forall fT', flagged fT' (stuff ++ [(skidId, skid)])
                      = flagged fT' stuff
                        ++ (if decide (fT' = fT) then [(skidId, skid)] else [])) as Hflagged.
  { intros fT'. unfold flagged. rewrite filter_app, filter_cons, filter_nil. simpl.
    rewrite <- Hval. destruct (decide (fT' = fT)) as [->|Hne].
    - by rewrite decide_True.
    - rewrite decide_False; [done|]. intros Heq. apply Hne.
      destruct fT, fT'; simpl in Heq; congruence. }
  split; [apply Forall_app; split; [done|by constructor]|].
  split; [|split; [|split; [|split]]].
  - intros fT'. rewrite assoc_count, Hflagged, length_app.
    destruct (decide (fT' = fT)) as [->|Hne].
    + rewrite decide_True by done. simpl. rewrite HvD. lia.
    + rewrite decide_False by (by intros ?%DT_of_inj). rewrite HvD. simpl. lia.
  - intros fT'. rewrite assoc_list_id, Hflagged, fmap_app.
    destruct (decide (fT' = fT)) as [->|Hne].
    + rewrite decide_True by done. simpl. by rewrite HvI.
    + rewrite decide_False by (by intros ?%DT_of_inj). rewrite HvI. simpl.
      by rewrite app_nil_r.
  - rewrite sum_count, Hsum, length_app. simpl. lia.
  - assert (forall k s, Exp.newV t0 !! k = Some s ->
              (k, s) ∈ stuff ++ [(skidId, skid)] /\ Rotector.flagType s <> 0
              /\ k <> "__proto__") as Hold.
    { intros k s (Hk & Hs & Hp)%Hfrom. split; [|done]. apply elem_of_app. by left. }
    intros k s. case_decide as Hzero; [by apply Hold|].
    unfold Exp.assign. case_decide as Hproto; [by apply Hold|].
    destruct (decide (k = skidId)) as [->|Hne].
    + rewrite lookup_insert_eq. intros [= <-]. split; [|done].
      apply elem_of_app. right. by left.
    + rewrite lookup_insert_ne by done. by apply Hold.
  - rewrite fmap_app. intros [Hnd [Hdisj _]]%NoDup_app k s Hk Hs Hp.
    apply elem_of_app in Hk as [Hk|Hk%list_elem_of_singleton].
    + assert (k <> skidId) as Hne.
      { intros ->. apply (Hdisj skidId); [|by left].
        apply list_elem_of_fmap. by exists (skidId, s). }
      case_decide; [by apply Hto|]. unfold Exp.assign.
      case_decide; [by apply Hto|]. rewrite lookup_insert_ne by done. by apply Hto.
    + injection Hk as -> ->. rewrite decide_False by done. unfold Exp.assign.
      rewrite decide_False by done. by rewrite lookup_insert_eq.
Qed.

Lemma tally_throws stuff f :
  Exp.tally stuff = inl f ->
  (f < 0 \/ 6 < f)
  /\ exists before skidId skid after,
       stuff = before ++ (skidId, skid) :: after
       /\ Rotector.flagType skid = f
       /\ Forall (fun entry => 0 <= Rotector.flagType entry.2 <= 6) before.
Proof.
  unfold Exp.tally.
  induction stuff as [|[skidId skid] stuff IH] using rev_ind; [done|].
  rewrite foldl_snoc.
  destruct (foldl Exp.step _ stuff) as [f0|t0] eqn:Hfold.
  - intros [= ->]. destruct (IH eq_refl) as (Hout & before & k & s & after & -> & Hf & Hin).
    split; [done|]. exists before, k, s, (after ++ [(skidId, skid)]).
    by rewrite <- app_assoc.
  - cbn [Exp.step].
    destruct (Rotector.flagTypeToEnum (Rotector.flagType skid)) as [f0|fT] eqn:Hflag;
      [|done].
    intros [= ->].
    assert (Rotector.flagType skid = f /\ (f < 0 \/ 6 < f)) as [Hf Hout].
    { destruct (decide (0 <= Rotector.flagType skid <= 6)) as [Hin|Hout].
      - assert (Rotector.flagType skid = 0 \/ Rotector.flagType skid = 1
                \/ Rotector.flagType skid = 2 \/ Rotector.flagType skid = 3
                \/ Rotector.flagType skid = 4 \/ Rotector.flagType skid = 5
                \/ Rotector.flagType skid = 6) as Hcases by lia.
        destruct Hcases as [H|[H|[H|[H|[H|[H|H]]]]]]; by rewrite H in Hflag.
      - rewrite flagTypeToEnum_out_of_range in Hflag by lia.
        injection Hflag as <-. split; [done|lia]. }
    split; [done|]. exists stuff, skidId, skid, []. split; [done|]. split; [done|].
    by destruct (tally_spec stuff t0 Hfold) as (Hrange & _).
Qed.

(** X22: The export script [exp.ts]: it throws at the first entry whose flag is
    outside 0 to 6, before it has printed or written anything; otherwise
    every flag is in range, the count printed for a label is the number of
    entries with that flag and the counts add up to the number of entries,
    the report lists the ids of the entries of each flag in the order of
    [Object.entries], and the file written holds the entries whose flag is
    not 0 and whose key is not ["__proto__"], and only those: an entry under
    the key ["__proto__"] is never written, whatever its flag. *)
Theorem export_script stuff :
  match Exp.script stuff with
  | Exp.Threw f =>
      (f < 0 \/ 6 < f)
      /\ exists before skidId skid after,
           stuff = before ++ (skidId, skid) :: after
           /\ Rotector.flagType skid = f
           /\ Forall (fun entry => 0 <= Rotector.flagType entry.2 <= 6) before
  | Exp.Wrote printed_vD printed outputF =>
      Forall (fun entry => 0 <= Rotector.flagType entry.2 <= 6) stuff
      /\ (forall fT, default 0%nat (assoc (Exp.DT_of fT) printed_vD)
                     = length (flagged fT stuff))
      /\ sum_list (printed_vD.*2) = length stuff
      /\ (exists vI,
            printed = Exp.report vI
            /\ forall fT, default [] (assoc (Exp.DT_of fT) vI)
                          = (fun entry => pretty (Rotector.id entry.2))
                            <$> flagged fT stuff)
      /\ (forall skidId skid,
            outputF !! skidId = Some skid ->
            (skidId, skid) ∈ stuff /\ Rotector.flagType skid <> 0
            /\ skidId <> "__proto__")
      /\ (NoDup (stuff.*1) ->
          forall skidId skid,
            (skidId, skid) ∈ stuff -> Rotector.flagType skid <> 0 ->
            skidId <> "__proto__" ->
            outputF !! skidId = Some skid)
      /\ outputF !! "__proto__" = None
  end.
Proof.
  unfold Exp.script.
  destruct (Exp.tally stuff) as [f|t] eqn:Htally.
  - by apply tally_throws.
  - destruct (tally_spec stuff t Htally) as (Hrange & HvD & HvI & Hsum & Hfrom & Hto).
    split; [done|]. split; [done|]. split; [done|].
    split; [by exists (Exp.vI t)|]. split; [done|]. split; [done|].
    destruct (Exp.newV t !! "__proto__") as [skid|] eqn:Hproto; [|done].
    by destruct (Hfrom _ _ Hproto) as (_ & _ & Hne).
Qed.

(** An export with an unsafe entry under the key ["__proto__"]: it is
    counted and listed in the report, and missing from the file. *)
Lemma proto_entry_is_not_written :
  Exp.script [("1", answer 2 1); ("__proto__", answer 2 99)]
  = Exp.Wrote [("UNSAFE (2)", 2%nat)] "UNSAFE (2) - 1, 99" {[ "1" := answer 2 1 ]}.
Proof. vm_compute. reflexivity. Qed.

(* ===================================================================== *)
(** * What a source's [rotector] file holds *)
(* ===================================================================== *)

Lemma elem_of_lines_for label results chunk line :
  line ∈ lines_for label results chunk
  <-> exists x status,
        x ∈ chunk /\ results !! x = Some status /\ line = line_of label status.
Proof.
  unfold lines_for. rewrite list_elem_of_omap. split.
  - intros (x & Hx & Hline). destruct (results !! x) as [status|] eqn:Hres; [|done].
    injection Hline as <-. by exists x, status.
  - intros (x & status & Hx & Hres & ->). exists x. by rewrite Hres.
Qed.








(* ===================================================================== *)
(** * Lookups that settle *)
(* ===================================================================== *)

(** With lookups that settle, a call runs to the end of its stream. *)
Lemma flushLookup_settles w (Hw : lookups_settle w) label r l :
  control_of (Index.flushLookup w label r l) = Index.Live.
Proof.
  destruct (decide (Index.pendingLookup l = [])) as [He|Hne].
  { by rewrite flushLookup_empty. }
  pose proof (flushLookup_spec w label r l Hne) as Hspec. simpl in Hspec.
  pose proof (Hw (Index.calls r) (Index.pendingLookup l)) as Hsettles.
  destruct (Rotector.checkLotsOfUsers _ _ _) as [results|e|]; [|done..].
  by rewrite Hspec.
Qed.

Lemma foldl_collect_settles {Entry} w (Hw : lookups_settle w) label
    (extractUserId : Entry -> Z) entries : forall r l,
  control_of (foldl (Index.collect_step w label extractUserId)
                (Index.At Index.Live r l) entries)
  = Index.Live.
Proof.
  induction entries as [|entry entries IH]; intros r l; simpl; [done|].
  assert (control_of (Index.collect w label r l (extractUserId entry)) = Index.Live)
    as Hlive.
  { unfold Index.collect.
    destruct (decide (_ ∈ Index.seenIds (Index.count_entry l))); [done|].
    destruct (Index.statusCache r !! _); [done|].
    case_decide; [by apply flushLookup_settles|done]. }
  destruct (Index.collect w label r l (extractUserId entry)) as [c r1 l1].
  simpl in Hlive. subst c. apply IH.
Qed.

Lemma answering_lookups_settle fuel flag :
  lookups_settle (world_of (S fuel) (fun _ => answering flag)).
Proof.
  intros n chunk. simpl.
  by rewrite checkLotsOfUsers_resolves by apply answering_settles.
Qed.

(* ===================================================================== *)
(** * A cached identifier, at every occurrence *)
(* ===================================================================== *)

Lemma cached_written_fresh label r : cached_written label r Index.fresh.
Proof. intros x status Hx. by apply not_elem_of_empty in Hx. Qed.

(** A lookup that resolves against a verifier that answers only what it is
    asked: the statuses it adds to the cache are written, the others are
    as before. *)
Lemma resolved_lookup_cached_written w (Hw : answers_only_asked w) label r l results :
  cached_written label r l ->
  Rotector.checkLotsOfUsers (Index.fuel w) (Index.rotector w (Index.calls r))
    (Index.pendingLookup l) = Resolved results ->
  cached_written label
    (Index.mkRun (results ∪ Index.statusCache r) (S (Index.calls r)))
    (Index.record_results label results (Index.pendingLookup l)
       (Index.add_newlyChecked (length (Index.pendingLookup l))
          (Index.start_lookup (Index.pendingLookup l) l))).
Proof.
  intros Hcw Hcall.
  pose proof (record_results_frame label results (Index.pendingLookup l)
                (Index.add_newlyChecked (length (Index.pendingLookup l))
                   (Index.start_lookup (Index.pendingLookup l) l))) as Hframe.
  cbv zeta in Hframe. destruct Hframe as (Hseen & _ & _ & _ & _ & _ & Hrw & _).
  intros y status Hy Hstatus. rewrite Hseen in Hy. rewrite Hrw.
  cbn [Index.statusCache] in Hstatus. simpl in Hy. simpl.
  apply lookup_union_Some_raw in Hstatus as [Hres|[_ Hold]].
  - apply elem_of_app. right. apply elem_of_lines_for. exists y, status.
    split; [|done]. apply (Hw _ _ _ Hcall). by exists status.
  - apply elem_of_app. left. by apply (Hcw y).
Qed.

Lemma flushLookup_cached_written w (Hw : answers_only_asked w) label r l r' l' :
  cached_written label r l ->
  Index.flushLookup w label r l = Index.At Index.Live r' l' ->
  cached_written label r' l'.
Proof.
  intros Hcw [(_ & -> & ->)|(_ & results & Hcall & -> & ->)]%flushLookup_live; [done|].
  by apply (resolved_lookup_cached_written w Hw).
Qed.

Lemma collect_cached_written w (Hw : answers_only_asked w) label r l x r' l' :
  cached_written label r l ->
  Index.collect w label r l x = Index.At Index.Live r' l' ->
  cached_written label r' l'.
Proof.
  intros Hcw Hcollect. apply collect_live in Hcollect. cbv zeta in Hcollect.
  destruct Hcollect as [(_ & -> & ->)|[(Hnew & cached & Hcached & -> & ->)|
                       [(Hnew & Hnone & _ & -> & ->)|
                        (Hnew & Hnone & _ & results & Hcall & -> & ->)]]].
  - exact Hcw.
  - intros y status [->%elem_of_singleton|Hy]%elem_of_union Hstatus; simpl.
    + rewrite Hcached in Hstatus. injection Hstatus as <-.
      apply elem_of_app. right. by left.
    + apply elem_of_app. left. by apply (Hcw y).
  - intros y status [->%elem_of_singleton|Hy]%elem_of_union Hstatus; simpl.
    + by rewrite Hnone in Hstatus.
    + by apply (Hcw y).
  - set (pushed := Index.push_pending x (Index.mark_seen x (Index.count_entry l))).
    change (Index.pendingLookup l ++ [x]) with (Index.pendingLookup pushed) in *.
    apply (resolved_lookup_cached_written w Hw label r pushed results); [|done].
    intros y status [->%elem_of_singleton|Hy]%elem_of_union Hstatus; simpl.
    + by rewrite Hnone in Hstatus.
    + by apply (Hcw y).
Qed.

(** An id that is seen and not in the buffer is not submitted again. *)
Lemma submitted_ids_start_lookup chunk l :
  submitted_ids (Index.start_lookup chunk l) = submitted_ids l ++ chunk.
Proof. unfold submitted_ids. simpl. by rewrite concat_app, batches_concat. Qed.

Lemma flushLookup_settled_id w label r l x :
  x ∉ Index.pendingLookup l ->
  let l' := locals_of (Index.flushLookup w label r l) in
  (x ∉ Index.pendingLookup l')
  /\ (x ∈ submitted_ids l' -> x ∈ submitted_ids l).
Proof.
  intros Hx. cbv zeta.
  destruct (decide (Index.pendingLookup l = [])) as [He|Hne].
  { by rewrite flushLookup_empty. }
  pose proof (flushLookup_spec w label r l Hne) as Hspec. simpl in Hspec.
  destruct (Rotector.checkLotsOfUsers _ _ _) as [results|e|]; [|done|];
    rewrite Hspec; cbn [locals_of].
  - rewrite record_results_submitted.
    change (submitted_ids (Index.add_newlyChecked ?n ?l0)) with (submitted_ids l0).
    rewrite submitted_ids_start_lookup.
    destruct (record_results_frame label results (Index.pendingLookup l)
                (Index.add_newlyChecked (length (Index.pendingLookup l))
                   (Index.start_lookup (Index.pendingLookup l) l)))
      as (_ & -> & _).
    simpl. split; [apply not_elem_of_nil|].
    by intros [?|?]%elem_of_app.
  - rewrite submitted_ids_start_lookup. split; [apply not_elem_of_nil|].
    by intros [?|?]%elem_of_app.
Qed.

Lemma collect_settled_id w label r l y x :
  x ∈ Index.seenIds l -> x ∉ Index.pendingLookup l ->
  let l' := locals_of (Index.collect w label r l y) in
  x ∈ Index.seenIds l'
  /\ (x ∉ Index.pendingLookup l')
  /\ (x ∈ submitted_ids l' -> x ∈ submitted_ids l).
Proof.
  intros Hseen Hpend. cbv zeta.
  split; [by apply (collect_seen_mono w label r l y)|].
  unfold Index.collect.
  destruct (decide (y ∈ Index.seenIds (Index.count_entry l))) as [Hy|Hy]; [done|].
  destruct (Index.statusCache r !! y) as [cached|]; [done|].
  assert (x ∉ Index.pendingLookup
                (Index.push_pending y (Index.mark_seen y (Index.count_entry l))))
    as Hpushed.
  { simpl. intros [?| ->%list_elem_of_singleton]%elem_of_app; [done|]. by apply Hy. }
  case_decide; [|done].
  by apply (flushLookup_settled_id w label r
              (Index.push_pending y (Index.mark_seen y (Index.count_entry l))) x).
Qed.

Lemma foldl_collect_settled_id {Entry} w label (extractUserId : Entry -> Z) entries x :
  forall s,
  x ∈ Index.seenIds (locals_of s) -> x ∉ Index.pendingLookup (locals_of s) ->
  let s' := foldl (Index.collect_step w label extractUserId) s entries in
  x ∈ Index.seenIds (locals_of s')
  /\ (x ∉ Index.pendingLookup (locals_of s'))
  /\ (x ∈ submitted_ids (locals_of s') -> x ∈ submitted_ids (locals_of s)).
Proof.
  induction entries as [|entry entries IH]; intros s Hseen Hpend; simpl; [done|].
  destruct s as [[| |e] r l]; simpl in *; [|by apply IH..].
  destruct (collect_settled_id w label r l (extractUserId entry) x Hseen Hpend)
    as (Hseen1 & Hpend1 & Hsub1).
  destruct (IH (Index.collect w label r l (extractUserId entry)) Hseen1 Hpend1)
    as (Hseen2 & Hpend2 & Hsub2).
  split; [done|]. split; [done|]. intros Hin. by apply Hsub1, Hsub2.
Qed.

(** The cache from any point of a call on. *)
Lemma foldl_collect_cache_kept_from {Entry} w (Hw : answers_only_asked w) label
    (extractUserId : Entry -> Z) r0 entries : forall s,
  consistent r0 (run_of s) (locals_of s) ->
  Index.statusCache (run_of s)
  ⊆ Index.statusCache
      (run_of (foldl (Index.collect_step w label extractUserId) s entries)).
Proof.
  induction entries as [|entry entries IH]; intros s Hc; simpl; [done|].
  etrans; [|apply IH; by apply collect_step_consistent].
  destruct s as [[| |e] r l]; simpl in *; [|done..].
  by eapply collect_cache_kept.
Qed.

(** How [processEntries] ends after the last entry: as it stands there, or
    by the flush of what is left in the buffer. *)
Lemma processEntries_end {Entry} w label (extractUserId : Entry -> Z) entryStream r :
  let streamed := foldl (Index.collect_step w label extractUserId)
                    (Index.At Index.Live r Index.fresh) (yields entryStream) in
  let after := Index.processEntries w label extractUserId entryStream r in
  (run_of after = run_of streamed /\ locals_of after = locals_of streamed)
  \/ (control_of streamed = Index.Live
      /\ ending entryStream = Exhausted
      /\ after = Index.flushLookup w label (run_of streamed) (locals_of streamed)).
Proof.
  unfold Index.processEntries.
  destruct (foldl _ _ _) as [[| |e] r1 l1]; simpl; try by left.
  destruct (ending entryStream); simpl; try by left.
  by right.
Qed.

(** An occurrence in a stream of an identifier that has an entry in the run
    cache by then, be it the first occurrence in this stream or a repeat,
    against a verifier that returns statuses only for the ids it is asked
    about. *)
Lemma cached_occurrence {Entry} w label
    (extractUserId : Entry -> Z) entryStream r pre e post r1 l1 cached
    (Honly : answers_only_asked w)
    (Hoccurs : yields entryStream = pre ++ e :: post)
    (Hreached : foldl (Index.collect_step w label extractUserId)
                  (Index.At Index.Live r Index.fresh) pre
                = Index.At Index.Live r1 l1)
    (Hcached : Index.statusCache r1 !! extractUserId e = Some cached) :
  let x := extractUserId e in
  let at_entry := Index.collect w label r1 l1 x in
  let after := Index.processEntries w label extractUserId entryStream r in
  (control_of at_entry = Index.Live
   /\ run_of at_entry = r1
   /\ Index.submitted (locals_of at_entry) = Index.submitted l1
   /\ Index.pendingLookup (locals_of at_entry) = Index.pendingLookup l1)
  /\ line_of label cached ∈ Index.rotectorWriter (locals_of at_entry)
  /\ (x ∉ extractUserId <$> pre ->
      Index.rotectorWriter (locals_of at_entry)
      = Index.rotectorWriter l1 ++ [line_of label cached])
  /\ (x ∈ extractUserId <$> pre ->
      Index.rotectorWriter (locals_of at_entry) = Index.rotectorWriter l1)
  /\ line_of label cached ∈ Index.rotectorWriter (locals_of after)
  /\ Index.statusCache (run_of after) !! x = Some cached
  /\ (x ∈ submitted_ids (locals_of after) -> x ∈ submitted_ids l1).
Proof.
  intros x at_entry after.
  change (Index.statusCache r1 !! x = Some cached) in Hcached.
  assert (consistent r r1 l1 /\ cached_written label r1 l1) as [Hc1 Hcw1].
  { refine (foldl_collect_live_ind w label extractUserId
              (fun r' l' => consistent r r' l' /\ cached_written label r' l')
              pre _ r Index.fresh r1 l1 _ Hreached).
    - intros r2 l2 y r3 l3 [Hc Hcw] Hcollect. split.
      + pose proof (collect_consistent w label r r2 l2 y Hc) as Hc'.
        by rewrite Hcollect in Hc'.
      + by eapply (collect_cached_written w Honly).
    - split; [apply consistent_fresh|apply cached_written_fresh]. }
  assert (x ∈ Index.seenIds l1 <-> x ∈ extractUserId <$> pre) as Hseen.
  { split.
    - intros Hin.
      pose proof (foldl_collect_seen w label extractUserId pre
                    (Index.At Index.Live r Index.fresh) x) as Hfrom.
      rewrite Hreached in Hfrom. destruct (Hfrom Hin) as [H0|H0]; [|done].
      by apply not_elem_of_empty in H0.
    - intros (entry & -> & Hin)%list_elem_of_fmap.
      by eapply foldl_collect_seen_all. }
  assert (at_entry
          = Index.At Index.Live r1
              (if decide (x ∈ Index.seenIds l1) then Index.count_entry l1
               else Index.writeStatus label cached
                      (Index.mark_seen x (Index.count_entry l1)))) as Hentry
    by apply (collect_cached w label r1 l1 x cached Hcached).
  assert (line_of label cached ∈ Index.rotectorWriter (locals_of at_entry)) as Hline.
  { rewrite Hentry. simpl. destruct (decide (x ∈ Index.seenIds l1)) as [Hin|Hnew].
    - by apply (Hcw1 x).
    - simpl. apply elem_of_app. right. by left. }
  assert (x ∈ Index.seenIds (locals_of at_entry)
          /\ x ∉ Index.pendingLookup (locals_of at_entry)) as [Hseen' Hpend'].
  { split; [apply collect_marks_seen|].
    rewrite Hentry. intros Hin.
    rewrite (c_pending_uncached _ _ _ Hc1 x) in Hcached; [done|].
    by destruct (decide (x ∈ Index.seenIds l1)). }
  assert (consistent r (run_of at_entry) (locals_of at_entry)) as Hc'
    by (by apply collect_consistent).
  set (streamed := foldl (Index.collect_step w label extractUserId) at_entry post).
  assert (foldl (Index.collect_step w label extractUserId)
            (Index.At Index.Live r Index.fresh) (yields entryStream) = streamed)
    as Hstreamed.
  { by rewrite Hoccurs, foldl_app, Hreached. }
  destruct (foldl_collect_settled_id w label extractUserId post x at_entry
              Hseen' Hpend') as (_ & Hpend2 & Hsub2).
  fold streamed in Hpend2, Hsub2.
  assert (line_of label cached ∈ Index.rotectorWriter (locals_of streamed)) as Hline2.
  { destruct (foldl_collect_writer_prefix w label extractUserId post at_entry)
      as [k Hk].
    fold streamed in Hk. rewrite Hk. apply elem_of_app. by left. }
  assert (consistent r (run_of streamed) (locals_of streamed)) as Hc2
    by (by apply foldl_collect_consistent).
  assert (Index.statusCache (run_of streamed) !! x = Some cached) as Hcached2.
  { eapply lookup_weaken;
      [|by apply (foldl_collect_cache_kept_from w Honly label extractUserId r post)].
    by rewrite Hentry. }
  assert (x ∈ submitted_ids (locals_of at_entry) -> x ∈ submitted_ids l1) as Hsub1.
  { rewrite Hentry. unfold submitted_ids.
    by destruct (decide (x ∈ Index.seenIds l1)). }
  split; [|split; [done|split; [|split; [|split; [|split]]]]].
  - rewrite Hentry. by destruct (decide (x ∈ Index.seenIds l1)).
  - intros Hnew. rewrite Hentry, decide_False by (by rewrite Hseen). done.
  - intros Hin. rewrite Hentry, decide_True by (by rewrite Hseen). done.
  - pose proof (processEntries_end w label extractUserId entryStream r) as Hend.
    cbv zeta in Hend. rewrite Hstreamed in Hend. fold after in Hend.
    destruct Hend as [[_ ->]|(_ & _ & ->)]; [done|].
    destruct (flushLookup_writer_prefix w label (run_of streamed) (locals_of streamed))
      as [k ->].
    apply elem_of_app. by left.
  - pose proof (processEntries_end w label extractUserId entryStream r) as Hend.
    cbv zeta in Hend. rewrite Hstreamed in Hend. fold after in Hend.
    destruct Hend as [[-> _]|(_ & _ & ->)]; [done|].
    eapply lookup_weaken; [exact Hcached2|].
    apply (flushLookup_cache_kept w Honly). apply (c_pending_uncached _ _ _ Hc2).
  - pose proof (processEntries_end w label extractUserId entryStream r) as Hend.
    cbv zeta in Hend. rewrite Hstreamed in Hend. fold after in Hend.
    intros Hin. apply Hsub1, Hsub2.
    destruct Hend as [[_ Heq]|(_ & _ & Heq)]; rewrite Heq in Hin; [done|].
    by apply (flushLookup_settled_id w label (run_of streamed) (locals_of streamed) x).
Qed.

(** C2, for any source of a run (the module state [r] being that in which
    the source starts), against a verifier that returns statuses only for
    the ids it is asked about.  An occurrence in the stream of an
    identifier that has an entry in the run cache by then, be it the first
    occurrence in this stream or a repeat, starts no lookup: the call goes
    on, the module state (the cache, the number of lookups made) and the
    submissions are as before; and the line of the cached status is in the
    source's sink, appended at this entry when it is the first occurrence
    and there since the first occurrence otherwise.  To the end of the
    source the line stays, the cache keeps the status, and the identifier is
    not submitted.  In particular an identifier that is cached when the
    source starts is never submitted by the source, and, the lookups
    settling, the source's sink holds the line of its cached status if the
    stream contains it. *)
Theorem cached_id_is_recorded_without_lookup {Entry} w label
    (extractUserId : Entry -> Z) entryStream r
    (Honly : answers_only_asked w) :
  let after := Index.processEntries w label extractUserId entryStream r in
  (forall pre e post r1 l1 cached,
     yields entryStream = pre ++ e :: post ->
     foldl (Index.collect_step w label extractUserId)
       (Index.At Index.Live r Index.fresh) pre
     = Index.At Index.Live r1 l1 ->
     Index.statusCache r1 !! extractUserId e = Some cached ->
     let x := extractUserId e in
     let at_entry := Index.collect w label r1 l1 x in
     (control_of at_entry = Index.Live
      /\ run_of at_entry = r1
      /\ Index.submitted (locals_of at_entry) = Index.submitted l1
      /\ Index.pendingLookup (locals_of at_entry) = Index.pendingLookup l1)
     /\ line_of label cached ∈ Index.rotectorWriter (locals_of at_entry)
     /\ (x ∉ extractUserId <$> pre ->
         Index.rotectorWriter (locals_of at_entry)
         = Index.rotectorWriter l1 ++ [line_of label cached])
     /\ (x ∈ extractUserId <$> pre ->
         Index.rotectorWriter (locals_of at_entry) = Index.rotectorWriter l1)
     /\ line_of label cached ∈ Index.rotectorWriter (locals_of after)
     /\ Index.statusCache (run_of after) !! x = Some cached
     /\ (x ∈ submitted_ids (locals_of after) -> x ∈ submitted_ids l1))
  /\ (forall x cached,
        Index.statusCache r !! x = Some cached ->
        (x ∉ submitted_ids (locals_of after))
        /\ (lookups_settle w ->
            x ∈ extractUserId <$> yields entryStream ->
            line_of label cached ∈ Index.rotectorWriter (locals_of after)
            /\ Index.statusCache (run_of after) !! x = Some cached)).
Proof.
  intros after. split.
  { intros pre e post r1 l1 cached Hoccurs Hreached Hcached.
    by apply (cached_occurrence w label extractUserId entryStream r pre e post). }
  intros x cached Hcached. split.
  { intros Hin.
    pose proof (processEntries_consistent w label extractUserId entryStream r) as Hc.
    fold after in Hc.
    rewrite (c_uncached_at_start _ _ _ Hc x) in Hcached; [done|].
    apply elem_of_app. by left. }
  intros Hsettle Hx.
  destruct (first_occurrence extractUserId (yields entryStream) x Hx)
    as (pre & e & post & Hsplit & He & _).
  pose proof (foldl_collect_settles w Hsettle label extractUserId pre r Index.fresh)
    as Hlive.
  pose proof (foldl_collect_cache_kept w Honly label extractUserId r pre) as Hkept.
  destruct (foldl (Index.collect_step w label extractUserId)
              (Index.At Index.Live r Index.fresh) pre) as [c r1 l1] eqn:Hreached.
  simpl in Hlive, Hkept. subst c.
  assert (Index.statusCache r1 !! extractUserId e = Some cached) as Hcached1.
  { rewrite He. by eapply lookup_weaken. }
  destruct (cached_occurrence w label extractUserId entryStream r pre e post r1 l1
              cached Honly Hsplit Hreached Hcached1)
    as (_ & _ & _ & _ & Hline & Hstatus & _).
  rewrite He in Hstatus. by split.
Qed.

(** Users 1 and 2 share the friend 42, which the first source resolves as
    flag 5; the stream of the second source has 42 twice.  At the repeat
    the line of 42 is in the sink of the second source, and no lookup has
    asked for 42. *)
Lemma cached_id_is_recorded_without_lookup_witness :
  let w := world_of 1 (fun _ => answering 5) in
  let r := (Index.main w [("1", mkStream [1; 42] Exhausted)] []).2 in
  let at_repeat :=
    foldl (Index.collect_step w "friends:2" (fun i : Z => i))
      (Index.At Index.Live r Index.fresh) [2; 42; 42] in
  let after := Index.processEntries w "friends:2" (fun i : Z => i)
                 (mkStream [2; 42; 42] Exhausted) r in
  Index.statusCache r !! 42 = Some (answer 5 42)
  /\ line_of "friends:2" (answer 5 42) ∈ Index.rotectorWriter (locals_of at_repeat)
  /\ line_of "friends:2" (answer 5 42) ∈ Index.rotectorWriter (locals_of after)
  /\ 42 ∉ submitted_ids (locals_of after).
Proof.
  intros w r at_repeat after.
  assert (Index.statusCache r !! 42 = Some (answer 5 42)) as Hcached
    by (vm_compute; reflexivity).
  split; [exact Hcached|].
  destruct (cached_id_is_recorded_without_lookup w "friends:2" (fun i : Z => i)
              (mkStream [2; 42; 42] Exhausted) r (answering_answers_only_asked 0 5))
    as [Hoccurrence Hsource].
  set (before := foldl (Index.collect_step w "friends:2" (fun i : Z => i))
                   (Index.At Index.Live r Index.fresh) [2; 42]).
  assert (before = Index.At Index.Live (run_of before) (locals_of before)) as Hreached
    by (vm_compute; reflexivity).
  destruct (Hoccurrence [2; 42] 42 [] (run_of before) (locals_of before) (answer 5 42)
              eq_refl Hreached ltac:(vm_compute; reflexivity))
    as (_ & Hline & _ & _ & Hend & _).
  split; [|split; [exact Hend|]].
  - unfold at_repeat.
    change [2; 42; 42] with ([2; 42] ++ [42]). rewrite foldl_app.
    fold before. rewrite Hreached. exact Hline.
  - exact (proj1 (Hsource 42 (answer 5 42) Hcached)).
Defined.

(** The condition on the verifier is needed.  The [volunteering] verifier
    leaves 42 out when it is asked about 42 and adds a status for 42 to its
    next answer: that status enters the cache, and at the repeat of 42 the
    sink of the source holds no line for 42. *)
Lemma unasked_status_has_no_line :
  let outcome :=
    Index.main (world_of 1 (fun _ => volunteering))
      [("7", mkStream (7 :: 42 :: ids_from 1000 48 ++ ids_from 2000 50 ++ [42])
               Exhausted)] [] in
  outcome.1.2 = Index.Live
  /\ Index.statusCache outcome.2 !! 42 = Some (answer 0 42)
  /\ (fun l => List.filter (Z.eqb 42) (Index.user_id <$> Index.rotectorWriter l))
       <$> outcome.1.1 = [[]].
Proof. repeat split; vm_compute; reflexivity. Qed.

(* ===================================================================== *)
(** * The batches of a stream, however it ends *)
(* ===================================================================== *)

Lemma batches_full_app (bs : list (list Z)) (rest : list Z) :
  Forall (fun b => length b = 50%nat) bs ->
  Rotector.batches (concat bs ++ rest) = bs ++ Rotector.batches rest.
Proof.
  intros Hbs. induction Hbs as [|b bs Hb _ IH]; simpl; [done|].
  by rewrite <- app_assoc, batches_app_full, IH.
Qed.

Lemma length_concat_full (bs : list (list Z)) :
  Forall (fun b => length b = 50%nat) bs ->
  length (concat bs) = (length bs * 50)%nat.
Proof.
  intros Hbs. induction Hbs as [|b bs Hb _ IH]; simpl; [done|].
  rewrite length_app. lia.
Qed.

(** What a flush leaves: the buffer is empty and its ids have been handed
    over, whether the lookup settles or not. *)
Lemma flushLookup_locals w label r l :
  let l' := locals_of (Index.flushLookup w label r l) in
  Index.submitted l' = Index.submitted l ++ Rotector.batches (Index.pendingLookup l)
  /\ Index.pendingLookup l' = [].
Proof.
  cbv zeta. destruct (decide (Index.pendingLookup l = [])) as [He|Hne].
  { rewrite flushLookup_empty by done. simpl. by rewrite He, batches_nil, app_nil_r. }
  pose proof (flushLookup_spec w label r l Hne) as Hspec. simpl in Hspec.
  destruct (Rotector.checkLotsOfUsers _ _ _) as [results|e|]; [|done|];
    rewrite Hspec; cbn [locals_of]; [|done].
  by destruct (record_results_frame label results (Index.pendingLookup l)
              (Index.add_newlyChecked (length (Index.pendingLookup l))
                 (Index.start_lookup (Index.pendingLookup l) l)))
    as (_ & -> & -> & _).
Qed.

(** After every entry, however the call stands: only full batches have been
    handed over, and the buffer is not full. *)
Lemma collect_full_batches w label r l x :
  Forall (fun b => length b = 50%nat) (Index.submitted l) ->
  (length (Index.pendingLookup l) < 50)%nat ->
  let l' := locals_of (Index.collect w label r l x) in
  Forall (fun b => length b = 50%nat) (Index.submitted l')
  /\ (length (Index.pendingLookup l') < 50)%nat.
Proof.
  intros Hfull Hshort. cbv zeta. unfold Index.collect.
  destruct (decide (x ∈ Index.seenIds (Index.count_entry l))); [done|].
  destruct (Index.statusCache r !! x) as [cached|]; [done|].
  case_decide as Hlen.
  - destruct (flushLookup_locals w label r
                (Index.push_pending x (Index.mark_seen x (Index.count_entry l))))
      as [-> ->].
    simpl in *. unfold Index.LOOKUP_BATCH_SIZE in Hlen. rewrite length_app in Hlen.
    simpl in Hlen. rewrite batches_single by (rewrite length_app; simpl; lia).
    split; [|lia]. apply Forall_app. split; [done|].
    constructor; [|done]. rewrite length_app. simpl. lia.
  - simpl in *. unfold Index.LOOKUP_BATCH_SIZE in Hlen. split; [done|lia].
Qed.

Lemma foldl_collect_full_batches {Entry} w label (extractUserId : Entry -> Z) entries :
  forall s,
  Forall (fun b => length b = 50%nat) (Index.submitted (locals_of s)) ->
  (length (Index.pendingLookup (locals_of s)) < 50)%nat ->
  let s' := foldl (Index.collect_step w label extractUserId) s entries in
  Forall (fun b => length b = 50%nat) (Index.submitted (locals_of s'))
  /\ (length (Index.pendingLookup (locals_of s')) < 50)%nat.
Proof.
  induction entries as [|entry entries IH]; intros s Hfull Hshort; simpl; [done|].
  destruct s as [[| |e] r l]; simpl in *; [|by apply IH..].
  destruct (collect_full_batches w label r l (extractUserId entry) Hfull Hshort).
  by apply IH.
Qed.

(** The entry at which a call stops running: the one whose lookup does not
    settle. *)
Lemma collect_stops w label r l x c r' l' :
  Index.collect w label r l x = Index.At c r' l' ->
  c <> Index.Live ->
  (x ∉ Index.seenIds l)
  /\ Index.statusCache r !! x = None
  /\ Index.pendingLookup l' = []
  /\ queue l' = queue l ++ [x].
Proof.
  unfold Index.collect.
  destruct (decide (x ∈ Index.seenIds (Index.count_entry l))) as [Hseen|Hseen].
  { by intros [= <- _ _]. }
  destruct (Index.statusCache r !! x) as [cached|]; [by intros [= <- _ _]|].
  case_decide; [|by intros [= <- _ _]].
  intros Hflush _.
  pose proof (flushLookup_locals w label r
                (Index.push_pending x (Index.mark_seen x (Index.count_entry l))))
    as [_ Hpend].
  pose proof (flushLookup_queue w label r
                (Index.push_pending x (Index.mark_seen x (Index.count_entry l))))
    as Hq.
  rewrite Hflush in Hpend, Hq. cbn [locals_of] in Hpend, Hq.
  split; [done|]. split; [done|]. split; [done|].
  rewrite Hq. unfold queue. simpl. by rewrite app_assoc.
Qed.

Lemma foldl_collect_stops {Entry} w label (extractUserId : Entry -> Z) entries :
  forall r l c r' l',
  foldl (Index.collect_step w label extractUserId) (Index.At Index.Live r l) entries
  = Index.At c r' l' ->
  c <> Index.Live ->
  exists pre e post r1 l1,
    entries = pre ++ e :: post
    /\ foldl (Index.collect_step w label extractUserId) (Index.At Index.Live r l) pre
       = Index.At Index.Live r1 l1
    /\ Index.collect w label r1 l1 (extractUserId e) = Index.At c r' l'.
Proof.
  induction entries as [|entry entries IH]; intros r l c r' l'; simpl.
  { by intros [= <- _ _]. }
  destruct (Index.collect w label r l (extractUserId entry)) as [c1 r1 l1] eqn:Hc.
  assert (c1 = Index.Live \/ c1 <> Index.Live) as [->|Hstop]
    by (destruct c1; [by left|by right..]).
  - intros Hfold Hne.
    destruct (IH r1 l1 c r' l' Hfold Hne) as (pre & e & post & r2 & l2 & -> & Hpre & He).
    exists (entry :: pre), e, post, r2, l2. simpl. by rewrite Hc.
  - rewrite foldl_collect_stuck by done. intros [= <- <- <-] _.
    by exists [], entry, entries, r, l.
Qed.

(** A stream of ids that are new to the call and to the cache: after the
    last entry the call has taken up a prefix of them, in stream order, and
    all of them if it is still running. *)
Lemma unseen_queue_prefix {Entry} w (Hw : answers_only_asked w) label
    (extractUserId : Entry -> Z) entries r :
  NoDup (extractUserId <$> entries) ->
  (forall x, x ∈ extractUserId <$> entries -> Index.statusCache r !! x = None) ->
  let streamed := foldl (Index.collect_step w label extractUserId)
                    (Index.At Index.Live r Index.fresh) entries in
  exists rest,
    extractUserId <$> entries = queue (locals_of streamed) ++ rest
    /\ (control_of streamed = Index.Live -> rest = []).
Proof.
  intros Hnd Hnew streamed.
  destruct streamed as [c r' l'] eqn:Hstreamed. subst streamed.
  assert (c = Index.Live \/ c <> Index.Live) as [->|Hstop]
    by (destruct c; [by left|by right..]).
  - exists []. split; [|done]. rewrite app_nil_r. cbn [locals_of]. unfold queue.
    rewrite (foldl_collect_unseen w Hw label extractUserId entries r Index.fresh r' l'
               Hnd); [done| |by intros y Hy%elem_of_nil|done].
    intros x Hx. split; [apply not_elem_of_empty|by apply Hnew].
  - destruct (foldl_collect_stops w label extractUserId entries _ _ _ _ _
                Hstreamed Hstop) as (pre & e & post & r1 & l1 & -> & Hpre & He).
    apply collect_stops in He as (_ & _ & _ & Hq); [|done].
    rewrite fmap_app, fmap_cons in Hnd, Hnew.
    apply NoDup_app in Hnd as (Hnd & _ & _).
    exists (extractUserId <$> post). split; [|done]. cbn [locals_of].
    rewrite Hq. unfold queue.
    rewrite (foldl_collect_unseen w Hw label extractUserId pre r Index.fresh r1 l1
               Hnd) with (3 := Hpre).
    + rewrite fmap_app, fmap_cons. simpl. by rewrite <- app_assoc.
    + intros x Hx. split; [apply not_elem_of_empty|].
      apply Hnew, elem_of_app. by left.
    + by intros y Hy%elem_of_nil.
Qed.

(** C7, as stated, fails.  User 1000 has 119 friends on three pages, and the
    fourth page of the friends service cannot be fetched: the stream
    delivers 120 identifiers, all new, and then throws.  Of the three
    batches that 120 identifiers make, the two full ones are handed to the
    Verification Client; the last 20 identifiers stay in the buffer, since
    the exception leaves [processEntries] before its final flush. *)
Lemma failing_stream_drops_the_last_batch :
  let entryStream := UsersScraper.streamFriends 5 5 fourth_page_down "1000" in
  let after := Index.processSource (world_of 1 (fun _ => answering 0))
                 (Index.Friends "1000" entryStream) (Index.mkRun ∅ 0) in
  entryStream = mkStream (ids_from 1000 120) (Throws (HttpError 500))
  /\ NoDup (yields entryStream)
  /\ length (Rotector.batches (yields entryStream)) = 3%nat
  /\ control_of after = Index.Crashed (HttpError 500)
  /\ length <$> Index.submitted (locals_of after) = [50; 50]%nat
  /\ Index.pendingLookup (locals_of after) = ids_from 1100 20.
Proof.
  intros entryStream after.
  assert (entryStream = mkStream (ids_from 1000 120) (Throws (HttpError 500))) as Hs
    by (vm_compute; reflexivity).
  split; [exact Hs|]. split; [rewrite Hs; apply ids_from_NoDup|].
  repeat split; vm_compute; reflexivity.
Qed.

(** C7, amended.  The batches [checkLotsOfUsers] makes of [N] ids are the
    [⌈N/50⌉] consecutive slices of 50, all full except the last, which holds
    [N mod 50] ids (50 when 50 divides [N]), in the order of the input.
    Whatever the stream, [processEntries] hands over full batches of 50,
    and at most one shorter batch, which is the last and is handed over
    only when the stream has ended normally.  For a stream of [N] ids that
    are new to the run (no repeats, none cached, the verifier answering
    only what it is asked) the batches handed over are, in every case, the
    first of the [⌈N/50⌉] batches of the stream's ids; they are all of them
    when the stream ends normally and the lookups settle; and when the
    stream throws, they are the [⌊N/50⌋] full ones only, the last [N mod 50]
    ids staying in the buffer. *)
Theorem batch_sizes :
  (forall ids : list Z,
     length (Rotector.batches ids) = ((length ids + 49) / 50)%nat
     /\ concat (Rotector.batches ids) = ids
     /\ forall k batch,
          Rotector.batches ids !! k = Some batch ->
          batch = Rotector.slice ids (k * 50) (k * 50 + 50)
          /\ ((S k < length (Rotector.batches ids))%nat -> length batch = 50%nat)
          /\ (S k = length (Rotector.batches ids) ->
              length batch = if decide (length ids mod 50 = 0)%nat then 50%nat
                             else (length ids mod 50)%nat))
  /\ (forall Entry w label (extractUserId : Entry -> Z) entryStream r,
        let after := Index.processEntries w label extractUserId entryStream r in
        exists full last,
          Index.submitted (locals_of after) = full ++ last
          /\ Forall (fun b => length b = 50%nat) full
          /\ (last = []
              \/ (ending entryStream = Exhausted
                  /\ exists b, last = [b] /\ (0 < length b < 50)%nat)))
  /\ (forall Entry w label (extractUserId : Entry -> Z) entryStream r,
        let ids := extractUserId <$> yields entryStream in
        let after := Index.processEntries w label extractUserId entryStream r in
        answers_only_asked w ->
        NoDup ids ->
        (forall x, x ∈ ids -> Index.statusCache r !! x = None) ->
        Index.submitted (locals_of after) `prefix_of` Rotector.batches ids
        /\ (lookups_settle w -> ending entryStream = Exhausted ->
            control_of after = Index.Live
            /\ Index.submitted (locals_of after) = Rotector.batches ids)
        /\ (lookups_settle w -> forall e, ending entryStream = Throws e ->
            control_of after = Index.Crashed e
            /\ Index.submitted (locals_of after)
               = take (length ids / 50) (Rotector.batches ids)
            /\ Index.pendingLookup (locals_of after)
               = drop (length ids / 50 * 50) ids
            /\ length (Index.pendingLookup (locals_of after))
               = (length ids mod 50)%nat)).
Proof.
  split; [|split].
  - intros ids. split; [apply batches_length|]. split; [apply batches_concat|].
    apply batches_sizes.
  - intros Entry w label extractUserId entryStream r after. subst after.
    unfold Index.processEntries.
    destruct (foldl_collect_full_batches w label extractUserId (yields entryStream)
                (Index.At Index.Live r Index.fresh)) as [Hfull Hshort];
      [constructor|simpl; lia|].
    destruct (foldl _ _ _) as [c r1 l1]. simpl in Hfull, Hshort.
    assert (exists full last,
              Index.submitted l1 = full ++ last
              /\ Forall (fun b => length b = 50%nat) full
              /\ (last = []
                  \/ (ending entryStream = Exhausted
                      /\ exists b, last = [b] /\ (0 < length b < 50)%nat))) as Hstay.
    { exists (Index.submitted l1), []. rewrite app_nil_r. split; [done|].
      split; [done|]. by left. }
    destruct c; [|done..].
    destruct (ending entryStream) eqn:Hend; [|done..].
    destruct (flushLookup_locals w label r1 l1) as [Hsub _].
    exists (Index.submitted l1), (Rotector.batches (Index.pendingLookup l1)).
    split; [done|]. split; [done|].
    destruct (Index.pendingLookup l1) as [|x chunk] eqn:Hp; [by left|].
    right. split; [done|]. exists (x :: chunk).
    rewrite batches_single by (simpl in *; lia). split; [done|]. simpl in *. lia.
  - intros Entry w label extractUserId entryStream r ids after Hw Hnd Hnew.
    destruct (unseen_queue_prefix w Hw label extractUserId (yields entryStream) r
                Hnd Hnew) as (rest & Hids & Hall).
    destruct (foldl_collect_full_batches w label extractUserId (yields entryStream)
                (Index.At Index.Live r Index.fresh)) as [Hfull Hshort];
      [constructor|simpl; lia|].
    fold ids in Hids. subst after. unfold Index.processEntries.
    destruct (foldl (Index.collect_step w label extractUserId)
                (Index.At Index.Live r Index.fresh) (yields entryStream))
      as [c r1 l1] eqn:Hfold.
    simpl in Hfull, Hshort, Hids, Hall. unfold queue, submitted_ids in Hids.
    assert (Rotector.batches ids
            = Index.submitted l1 ++ Rotector.batches (Index.pendingLookup l1 ++ rest))
      as Hbatches.
    { by rewrite Hids, <- app_assoc, batches_full_app. }
    assert (Index.submitted l1 `prefix_of` Rotector.batches ids) as Hprefix.
    { rewrite Hbatches. by apply prefix_app_r. }
    assert (lookups_settle w -> c = Index.Live) as Hsettles.
    { intros Hs.
      pose proof (foldl_collect_settles w Hs label extractUserId (yields entryStream)
                    r Index.fresh) as Hlive.
      by rewrite Hfold in Hlive. }
    split; [|split].
    + destruct c; [|done..].
      destruct (ending entryStream); [|done..].
      destruct (flushLookup_locals w label r1 l1) as [-> _].
      rewrite Hbatches, (Hall eq_refl), app_nil_r. done.
    + intros Hs Hend. rewrite (Hsettles Hs), Hend in *.
      split; [by apply flushLookup_settles|].
      destruct (flushLookup_locals w label r1 l1) as [-> _].
      by rewrite Hbatches, (Hall eq_refl), app_nil_r.
    + intros Hs e Hend. rewrite (Hsettles Hs), Hend in *.
      cbn [control_of locals_of].
      rewrite (Hall eq_refl), app_nil_r in Hids, Hbatches.
      pose proof (length_concat_full _ Hfull) as Hlen.
      assert (length ids = (length (Index.submitted l1) * 50
                            + length (Index.pendingLookup l1))%nat) as Hn.
      { by rewrite Hids, length_app, Hlen. }
      assert ((length ids / 50)%nat = length (Index.submitted l1)) as Hdiv.
      { symmetry. apply (Nat.div_unique _ 50 _ (length (Index.pendingLookup l1)));
          [done|lia]. }
      split; [done|]. split; [|split].
      * by rewrite Hdiv, Hbatches, take_app_length.
      * rewrite Hdiv, <- Hlen, Hids. by rewrite drop_app_length.
      * apply (Nat.mod_unique _ 50 (length (Index.submitted l1))); [done|lia].
Qed.

(** 120 new ids from a stream that ends normally, against a verifier that
    answers: batches of 50, 50 and 20, cut from the stream in order. *)
Lemma batch_sizes_witness :
  let w := world_of 1 (fun _ => answering 0) in
  let entryStream := mkStream (ids_from 1000 120) Exhausted in
  let after := Index.processEntries w "friends:1000" (fun i : Z => i) entryStream
                 (Index.mkRun ∅ 0) in
  control_of after = Index.Live
  /\ Index.submitted (locals_of after) = Rotector.batches (ids_from 1000 120)
  /\ length <$> Rotector.batches (ids_from 1000 120) = [50; 50; 20]%nat.
Proof.
  intros w entryStream after.
  pose proof (proj2 (proj2 batch_sizes) Z w "friends:1000" (fun i : Z => i)
                entryStream (Index.mkRun ∅ 0)) as Hsizes.
  cbv zeta in Hsizes.
  destruct Hsizes as (_ & Hends & _).
  - apply answering_answers_only_asked.
  - change (NoDup (id <$> ids_from 1000 120)).
    rewrite list_fmap_id. apply ids_from_NoDup.
  - intros x Hx. apply lookup_empty.
  - destruct (Hends (answering_lookups_settle 0 0) eq_refl) as [Hlive Hall].
    split; [exact Hlive|]. split; [|vm_compute; reflexivity].
    change (Index.submitted (locals_of after)
            = Rotector.batches (id <$> ids_from 1000 120)) in Hall.
    by rewrite list_fmap_id in Hall.
Defined.

(* ===================================================================== *)
(** * The subject of a friends source *)
(* ===================================================================== *)

(** A stream that ends normally leaves nothing in the buffer: the call has
    flushed it, or waits for the lookup that took it. *)
Lemma processEntries_exhausted_buffer {Entry} w label (extractUserId : Entry -> Z)
    entryStream r :
  ending entryStream = Exhausted ->
  Index.pendingLookup
    (locals_of (Index.processEntries w label extractUserId entryStream r)) = [].
Proof.
  intros Hend. unfold Index.processEntries. rewrite Hend.
  destruct (foldl _ _ _) as [c r1 l1] eqn:Hfold.
  assert (c = Index.Live \/ c <> Index.Live) as [->|Hstop]
    by (destruct c; [by left|by right..]).
  - by destruct (flushLookup_locals w label r1 l1) as [_ ->].
  - destruct (foldl_collect_stops w label extractUserId (yields entryStream)
                _ _ _ _ _ Hfold Hstop) as (pre & e & post & r2 & l2 & _ & _ & He).
    apply collect_stops in He as (_ & _ & Hempty & _); [|done].
    by destruct c.
Qed.

(** C10, as stated, fails.  The friends service answers every request for the
    friends of user 7 with a 500: [streamFriends] yields 7 and throws when
    its fifth request for the first page has failed.  The subject has been
    collected (it is in the buffer), but the exception leaves
    [processEntries] before any flush: no lookup is made, and user 7 is not
    verified. *)
Lemma subject_is_not_verified_when_the_friends_fail :
  let entryStream := UsersScraper.streamFriends 5 5 pages_down "7" in
  let after := Index.processSource (world_of 1 (fun _ => answering 0))
                 (Index.Friends "7" entryStream) (Index.mkRun ∅ 0) in
  entryStream = mkStream [7] (Throws (HttpError 500))
  /\ control_of after = Index.Crashed (HttpError 500)
  /\ Index.pendingLookup (locals_of after) = [7]
  /\ Index.submitted (locals_of after) = []
  /\ Index.calls (run_of after) = 0%nat
  /\ Index.statusCache (run_of after) !! 7 = None
  /\ Index.rotectorWriter (locals_of after) = [].
Proof. repeat split; vm_compute; reflexivity. Qed.

(** C10, amended: whatever the friends service answers, the first thing
    [streamFriends] does is to yield [Number(userid)], before it requests any
    page; so the stream handed to [processEntries] starts with the subject's
    own id, and the subject is always collected: it is marked seen, and
    either its cached status is the first line of the source's sink, or it
    heads the queue of ids to look up.  It is verified with its friends
    once a lookup is started: it heads the first batch that is submitted,
    and one is submitted whenever the stream ends normally.  When the
    stream throws before its fiftieth entry (the friends service failing),
    no lookup is made: the subject is left in the buffer without a status. *)
Theorem streamFriends_yields_subject_first pagesLeft fuel pages userid :
  let subject := UsersScraper.Number userid in
  let entryStream := UsersScraper.streamFriends pagesLeft fuel pages userid in
  (exists evs,
     (UsersScraper.streamFriends_events pagesLeft fuel pages userid).1
     = UsersScraper.Yield subject :: evs
     /\ yields entryStream = subject :: UsersScraper.yielded evs)
  /\ head (yields entryStream) = Some subject
  /\ (forall w r,
        let after := Index.processSource w (Index.Friends userid entryStream) r in
        subject ∈ Index.seenIds (locals_of after)
        /\ (forall cached, Index.statusCache r !! subject = Some cached ->
              head (Index.rotectorWriter (locals_of after))
              = Some (line_of ("friends:" +:+ userid) cached))
        /\ (Index.statusCache r !! subject = None ->
            head (queue (locals_of after)) = Some subject
            /\ (control_of after = Index.Live ->
                head (submitted_ids (locals_of after)) = Some subject)
            /\ (submitted_ids (locals_of after) <> [] ->
                head (submitted_ids (locals_of after)) = Some subject)
            /\ (ending entryStream = Exhausted ->
                head (submitted_ids (locals_of after)) = Some subject)
            /\ (forall e, ending entryStream = Throws e ->
                (length (yields entryStream) < 50)%nat ->
                control_of after = Index.Crashed e
                /\ Index.submitted (locals_of after) = []
                /\ head (Index.pendingLookup (locals_of after)) = Some subject
                /\ run_of after = r))).
Proof.
  intros subject entryStream.
  destruct (streamFriends_events_head pagesLeft fuel pages userid) as (evs & Hev & Hy).
  fold subject entryStream in Hev, Hy.
  split; [by exists evs|]. split; [by rewrite Hy|].
  intros w r after.
  set (label := "friends:" +:+ userid).
  set (step := Index.collect_step w label (fun i : Z => i)).
  set (first := Index.collect w label r Index.fresh subject).
  set (streamed := foldl step first (UsersScraper.yielded evs)).
  pose proof (processEntries_locals w label (fun i : Z => i) entryStream r) as Hshape.
  cbv zeta in Hshape. rewrite Hy in Hshape. cbn [foldl Index.collect_step] in Hshape.
  change (Index.processEntries w label (fun i : Z => i) entryStream r)
    with after in Hshape.
  fold first step streamed in Hshape.
  assert (subject ∈ Index.seenIds (locals_of streamed)) as Hseen.
  { apply (foldl_collect_seen_mono w label (fun i : Z => i)
             (UsersScraper.yielded evs) first).
    apply collect_marks_seen. }
  split; [|split].
  - destruct Hshape as [->|[r1 ->]]; [done|]. by rewrite flushLookup_seen.
  - intros cached Hcached.
    assert (head (Index.rotectorWriter (locals_of streamed))
            = Some (line_of label cached)) as Hline.
    { destruct (foldl_collect_writer_prefix w label (fun i : Z => i)
                  (UsersScraper.yielded evs) first) as [k Hk].
      fold step streamed in Hk. rewrite Hk. unfold first.
      rewrite (collect_cached w label r Index.fresh subject cached Hcached).
      by rewrite decide_False by apply not_elem_of_empty. }
    destruct Hshape as [->|[r1 ->]]; [done|].
    destruct (flushLookup_writer_prefix w label r1 (locals_of streamed)) as [k ->].
    by apply head_app_Some.
  - intros Huncached.
    assert (queue (locals_of first) = [subject]) as Hfirst.
    { unfold first, Index.collect. simpl.
      rewrite decide_False by apply not_elem_of_empty. by rewrite Huncached. }
    assert (head (queue (locals_of after)) = Some subject) as Hhead.
    { destruct (foldl_collect_queue w label (fun i : Z => i)
                  (UsersScraper.yielded evs) first) as [extra Hq].
      fold step streamed in Hq. rewrite Hfirst in Hq.
      destruct Hshape as [->|[r1 ->]]; [by rewrite Hq|].
      by rewrite flushLookup_queue, Hq. }
    assert (Index.pendingLookup (locals_of after) = [] ->
            head (submitted_ids (locals_of after)) = Some subject) as Hflushed.
    { intros Hempty. unfold queue in Hhead. by rewrite Hempty, app_nil_r in Hhead. }
    split; [done|]. split; [|split; [|split]].
    + intros Hlive. apply Hflushed.
      destruct after as [c r' l'] eqn:Hafter. simpl in Hlive. subst c.
      apply processEntries_live in Hafter as (r1 & l1 & _ & _ & Hflush).
      by apply flushLookup_live_empty in Hflush.
    + intros Hsome. unfold queue in Hhead.
      by destruct (submitted_ids (locals_of after)).
    + intros Hend. apply Hflushed.
      by apply (processEntries_exhausted_buffer w label (fun i : Z => i) entryStream r).
    + intros e Hend Hshort.
      destruct (foldl_collect_short w label (fun i : Z => i) (yields entryStream)
                  r Index.fresh) as (l' & Hfold & Hsub); [simpl; lia|].
      assert (after = Index.At (Index.Crashed e) r l') as Hafter.
      { unfold after, Index.processSource, Index.processEntries.
        fold label. by rewrite Hfold, Hend. }
      rewrite Hafter in *. simpl in *. split; [done|]. split; [done|].
      split; [|done]. unfold queue, submitted_ids in Hhead.
      by rewrite Hsub in Hhead.
Qed.

(** User 7 has the friends 42, 43 and 44 on two pages: the stream is 7, 42,
    43, 44 and ends normally, and 7 heads the batch that is submitted. *)
Lemma streamFriends_yields_subject_first_witness :
  let entryStream := UsersScraper.streamFriends 5 5 two_pages "7" in
  let after := Index.processSource (world_of 1 (fun _ => answering 0))
                 (Index.Friends "7" entryStream) (Index.mkRun ∅ 0) in
  entryStream = mkStream [7; 42; 43; 44] Exhausted
  /\ Index.submitted (locals_of after) = [[7; 42; 43; 44]]
  /\ head (submitted_ids (locals_of after)) = Some (UsersScraper.Number "7").
Proof.
  intros entryStream after.
  split; [reflexivity|]. split; [vm_compute; reflexivity|].
  destruct (proj2 (proj2 (streamFriends_yields_subject_first 5 5 two_pages "7"))
              (world_of 1 (fun _ => answering 0)) (Index.mkRun ∅ 0))
    as (_ & _ & Hhead).
  destruct (Hhead (lookup_empty _)) as (_ & _ & _ & Hended & _).
  by apply Hended.
Defined.
